(** * python-workshop: the utility functions of the workshop scripts

    A shallow embedding of the functions of
    [solutions/01_basics_solutions.py], [src/oop/models.py] and
    [src/data_handling/json_api.py], with the properties the written
    specification states about them.

    Python values are modelled by inductive types, exceptions by the
    [Raise] case of a [result], the file system by an explicit state that
    the file helpers thread through.  The library functions the code calls
    ([json.dumps], [json.loads], [str.split], [str.strip], the UTF-8 codec,
    [Path.write_text], [Path.read_text], the operator [/]) are modelled
    after CPython.  The limits of an interpreter (recursion depth, the
    digit limit of the conversion between [int] and [str], memory) are not
    modelled; a property that needs the conversion to return takes the
    digit limit as a hypothesis.  Values are finite trees: a container
    that holds itself is no value of the model. *)

From Stdlib Require Import ZArith QArith Qabs Lia List Ascii String.
From Stdlib Require Strings.Byte DecimalN DecimalFacts.
From stdpp Require Import base option list gmap strings sorting.

Local Open Scope Z_scope.
Set Warnings "-register-all,-clear-no-such-hyp".

(** ** Outcomes of a Python call *)

(** The exceptions the modelled code can raise or meet. *)
Inductive exc : Type :=
  | ZeroDivisionError
  | TypeError
  | OverflowError
  | ValueError (msg : string)
  | JSONDecodeError
  | FileNotFoundError
  | IsADirectoryError
  | NotADirectoryError
  | UnicodeEncodeError
  | UnicodeDecodeError
  | IndexError.

(** A call either returns a value or raises. *)
Inductive result (A : Type) : Type :=
  | Return (a : A)
  | Raise (e : exc).
Arguments Return {A} a.
Arguments Raise {A} e.


Definition bind {A B} (r : result A) (k : A -> result B) : result B :=
  match r with
  | Return a => k a
  | Raise e => Raise e
  end.

Notation "x <- r ;; k" := (bind r (fun x => k))
  (at level 100, r at next level, right associativity, only parsing).

(** ** Text *)

(** A [str] is a sequence of Unicode code points. *)
Definition codepoint : Type := N.
Definition pystr : Type := list codepoint.

Definition ord (c : ascii) : codepoint := N_of_ascii c.

(** An ASCII literal as a [str]. *)
Definition str (s : string) : pystr := map ord (list_ascii_of_string s).

(** A literal in which the apostrophe stands for the double quote. *)
Definition dq (s : string) : pystr :=
  map (fun c => if N.eqb c 39 then 34%N else c) (str s).

Arguments ord : simpl never.
Arguments str : simpl never.

(** Literal characters and strings, evaluated. *)
Ltac literals :=
  repeat match goal with
    | |- context [ord ?c] =>
        let v := eval vm_compute in (ord c) in change (ord c) with v
    | |- context [str ?s] =>
        let v := eval vm_compute in (str s) in change (str s) with v
    | H : context [ord ?c] |- _ =>
        let v := eval vm_compute in (ord c) in change (ord c) with v in H
    | H : context [str ?s] |- _ =>
        let v := eval vm_compute in (str s) in change (str s) with v in H
    end.

(** [l[i]] with Python's negative indices. *)
Definition getitem {A} (l : list A) (i : Z) : result A :=
  let n := Z.of_nat (length l) in
  let j := if i <? 0 then i + n else i in
  if (j <? 0) || (n <=? j) then Raise IndexError
  else match l !! Z.to_nat j with
       | Some x => Return x
       | None => Raise IndexError
       end.

(** * solutions/01_basics_solutions.py *)

Module Basics.

(** ** grade *)

Definition grade (score : Z) : string :=
  if 90 <=? score then "A"
  else if 80 <=? score then "B"
  else if 70 <=? score then "C"
  else if 60 <=? score then "D"
  else "F".

(** Rank of a letter, best last: F < D < C < B < A. *)
Definition rank (g : string) : nat :=
  if String.eqb g "A" then 4
  else if String.eqb g "B" then 3
  else if String.eqb g "C" then 2
  else if String.eqb g "D" then 1
  else 0.

(** ** safe_div *)

(** A float is modelled by the real number it holds (a rational here: the
    rounding of an inexact quotient to 53 bits is not modelled, nor is the
    sign of zero), or one of the IEEE specials. *)
Inductive pyfloat : Type :=
  | Finite (q : Q)
  | Inf (negative : bool)
  | NaN.

(** The operands [safe_div] is called with: the numbers, and the
    non-numbers [str] and [None]. *)
Inductive pyobj : Type :=
  | PyInt (z : Z)
  | PyBool (b : bool)
  | PyFloat (f : pyfloat)
  | PyStr (s : pystr)
  | PyNone.

(** [bool] is a subclass of [int]. *)
Definition as_int (o : pyobj) : option Z :=
  match o with
  | PyInt z => Some z
  | PyBool b => Some (if b then 1 else 0)
  | _ => None
  end.

Definition is_number (o : pyobj) : bool :=
  match o with
  | PyInt _ | PyBool _ | PyFloat _ => true
  | _ => false
  end.

(** The quotient [x / y] of two integers, [y] not zero, in lowest terms. *)
Definition quotient (x y : Z) : Q :=
  Qred (Qmake (x * Z.sgn y) (Z.to_pos (Z.abs y))).

(** The least magnitude that rounds past the largest double:
    2^1024 - 2^970. *)
Definition DBL_OVERFLOW : Z := 2 ^ 1024 - 2 ^ 970.

Definition too_large (q : Q) : bool :=
  Qle_bool (inject_Z DBL_OVERFLOW) (Qabs q).

(** [int / int]: the zero check comes first, then the correctly rounded
    quotient, which may not fit a float. *)
Definition long_true_divide (x y : Z) : result pyfloat :=
  if y =? 0 then Raise ZeroDivisionError
  else if too_large (quotient x y) then Raise OverflowError
  else Return (Finite (quotient x y)).

(** Conversion of a number to a double, as [float.__truediv__] does with
    each operand: an [int] may be too large. *)
Definition to_double (o : pyobj) : result pyfloat :=
  match o with
  | PyFloat f => Return f
  | _ =>
    match as_int o with
    | Some z =>
        if too_large (inject_Z z) then Raise OverflowError
        else Return (Finite (inject_Z z))
    | None => Raise TypeError
    end
  end.

Definition float_is_zero (f : pyfloat) : bool :=
  match f with
  | Finite q => Qeq_bool q 0
  | _ => false
  end.

Definition Qsign_neg (q : Q) : bool := (Qnum q <? 0).

(** IEEE division of two doubles, the divisor not zero. *)
Definition ieee_div (a b : pyfloat) : pyfloat :=
  match a, b with
  | NaN, _ | _, NaN => NaN
  | Inf _, Inf _ => NaN
  | Inf s, Finite q => Inf (xorb s (Qsign_neg q))
  | Finite _, Inf _ => Finite 0
  | Finite p, Finite q => Finite (Qred (p / q))
  end.

(** [float_div]: both operands are converted, then the divisor is tested. *)
Definition float_div (a b : pyobj) : result pyfloat :=
  x <- to_double a ;;
  y <- to_double b ;;
  if float_is_zero y then Raise ZeroDivisionError
  else Return (ieee_div x y).

(** The operator [a / b] on the modelled operands. *)
Definition truediv (a b : pyobj) : result pyfloat :=
  if is_number a && is_number b then
    match as_int a, as_int b with
    | Some x, Some y => long_true_divide x y
    | _, _ => float_div a b
    end
  else Raise TypeError.

(** [b == 0] for a number [b]. *)
Definition is_zero (b : pyobj) : bool :=
  match b with
  | PyFloat f => float_is_zero f
  | _ => match as_int b with Some z => z =? 0 | None => false end
  end.

Definition is_float (o : pyobj) : bool :=
  match o with
  | PyFloat _ => true
  | _ => false
  end.

(** An [int] too large to convert to a float. *)
Definition overflows (o : pyobj) : bool :=
  match as_int o with
  | Some z => too_large (inject_Z z)
  | None => false
  end.

Definition safe_div (a b : pyobj) : result (option pyfloat) :=
  match truediv a b with
  | Return q => Return (Some q)
  | Raise ZeroDivisionError => Return None
  | Raise TypeError => Return None
  | Raise e => Raise e
  end.

End Basics.

(** * src/oop/models.py *)

Module Models.

(** ** The classic class *)
Module User.
Record t : Type := mk {
  id : Z;
  name : pystr;
  email : pystr;
  active : bool
}.
End User.

(** ** The dataclass *)
Module UserDC.
Record t : Type := mk {
  id : Z;
  name : pystr;
  email : pystr;
  active : bool;
  fingerprint : option pystr
}.

(** The generated [__init__]: [fingerprint] is not an init field and
    starts as [None]; [compute_fingerprint] later stores a digest in it,
    which is text like any other here. *)
Definition init (id : Z) (name email : pystr) (active : bool) : t :=
  mk id name email active None.
End UserDC.

(** The objects the utilities receive: [User | UserDC]. *)
Inductive user : Type :=
  | AUser (u : User.t)
  | AUserDC (d : UserDC.t).

(** [u.id] *)
Definition get_id (u : user) : Z :=
  match u with
  | AUser u => User.id u
  | AUserDC d => UserDC.id d
  end.

(** [u.email] *)
Definition get_email (u : user) : pystr :=
  match u with
  | AUser u => User.email u
  | AUserDC d => UserDC.email d
  end.

(** ** domain *)

(** [s.split(sep)] for a one-character separator. *)
Fixpoint split (sep : codepoint) (s : pystr) : list pystr :=
  match s with
  | [] => [[]]
  | c :: r =>
      if N.eqb c sep then [] :: split sep r
      else match split sep r with
           | h :: t => (c :: h) :: t
           | [] => [[c]]
           end
  end.

(** The pieces of a split, each followed by the separator again. *)
Definition glue (sep : codepoint) (pieces : list pystr) : pystr :=
  flat_map (fun p => p ++ [sep]) pieces.

(** [self.email.split("@")[-1]], the body of both [domain] methods. *)
Definition split_domain (email : pystr) : result pystr :=
  getitem (split (ord "@") email) (-1).

Definition User_domain (self : User.t) : result pystr :=
  split_domain (User.email self).

Definition UserDC_domain (self : UserDC.t) : result pystr :=
  split_domain (UserDC.email self).

Definition domain (u : user) : result pystr :=
  match u with
  | AUser u => User_domain u
  | AUserDC d => UserDC_domain d
  end.

(** ** Equality *)

(** [==] on the field types. *)
Definition str_eqb (a b : pystr) : bool := bool_decide (a = b).
Definition opt_str_eqb (a b : option pystr) : bool := bool_decide (a = b).

(** [User.__eq__]; [None] stands for [NotImplemented]. *)
Definition User_eq (self : User.t) (other : user) : option bool :=
  match other with
  | AUser o => Some (User.id self =? User.id o)
  | _ => None
  end.

(** The [__eq__] that [@dataclass(eq=True)] generates: the tuples of all
    fields are compared when the classes are the same. *)
Definition UserDC_eq (self : UserDC.t) (other : user) : option bool :=
  match other with
  | AUserDC o =>
      Some ((UserDC.id self =? UserDC.id o)
            && str_eqb (UserDC.name self) (UserDC.name o)
            && str_eqb (UserDC.email self) (UserDC.email o)
            && Bool.eqb (UserDC.active self) (UserDC.active o)
            && opt_str_eqb (UserDC.fingerprint self) (UserDC.fingerprint o))
  | _ => None
  end.

Definition dunder_eq (self other : user) : option bool :=
  match self with
  | AUser u => User_eq u other
  | AUserDC d => UserDC_eq d other
  end.

(** [a == b] for two distinct objects: the method of the left operand,
    then the reflected one, then identity, which is false here. *)
Definition py_eq (a b : user) : bool :=
  match dunder_eq a b with
  | Some r => r
  | None =>
      match dunder_eq b a with
      | Some r => r
      | None => false
      end
  end.

(** ** Collection utilities *)

Definition get_active (u : user) : bool :=
  match u with
  | AUser u => User.active u
  | AUserDC d => UserDC.active d
  end.

Definition active_users (users : list user) : list user :=
  filter (fun u => get_active u = true) users.

(** The loop of [dedupe_users_by_id], on the users still to visit, with
    the set [seen] and the list [result] built so far. *)
Fixpoint dedupe_loop (users : list user) (seen : gset Z) (result : list user)
    : list user :=
  match users with
  | [] => result
  | u :: rest =>
      if decide (get_id u ∈ seen) then dedupe_loop rest seen result
      else dedupe_loop rest ({[get_id u]} ∪ seen) (result ++ [u])
  end.

Definition dedupe_users_by_id (users : list user) : list user :=
  dedupe_loop users ∅ [].

End Models.

(** * src/data_handling/json_api.py *)

Module Json.

(** ** Python values *)

(** The sign character of an exponent. *)
Inductive exp_sign : Type := NoSign | PlusSign | MinusSign.

(** A finite float is kept as the number token that denotes it: the
    token [float.__repr__] prints for it, which [float()] reads back to
    the same float, or the token it was read from.  Equal tokens denote
    equal floats; the converse is not modelled. *)
Record float_literal : Type := {
  fl_neg : bool;
  fl_int : N;
  fl_frac : Decimal.uint;
  fl_exp : option (exp_sign * Decimal.uint)
}.

Inductive jfloat : Type :=
  | FLit (l : float_literal)
  | FInfinity (negative : bool)
  | FNaN.

(** Keys of a [dict]. *)
Inductive key : Type :=
  | KStr (s : pystr)
  | KInt (z : Z)
  | KFloat (f : jfloat)
  | KBool (b : bool)
  | KNone
  | KOther.

(** The objects handed to the JSON helpers.  A [dict] keeps its items in
    insertion order; [PObject] is any object [json] cannot serialize. *)
Inductive value : Type :=
  | PNone
  | PBool (b : bool)
  | PInt (z : Z)
  | PFloat (f : jfloat)
  | PStr (s : pystr)
  | PList (l : list value)
  | PTuple (l : list value)
  | PDict (d : list (key * value))
  | PObject.

Global Instance exp_sign_eq_dec : EqDecision exp_sign.
Proof. solve_decision. Defined.
Global Instance uint_eq_dec : EqDecision Decimal.uint.
Proof. solve_decision. Defined.
Global Instance float_literal_eq_dec : EqDecision float_literal.
Proof. solve_decision. Defined.
Global Instance jfloat_eq_dec : EqDecision jfloat.
Proof. solve_decision. Defined.
Global Instance key_eq_dec : EqDecision key.
Proof. solve_decision. Defined.

(** [d[k] = v]: an existing key keeps its place. *)
Fixpoint dict_setitem `{EqDecision K} {V} (k : K) (v : V) (d : list (K * V))
    : list (K * V) :=
  match d with
  | [] => [(k, v)]
  | (k', v') :: r =>
      if decide (k = k') then (k, v) :: r else (k', v') :: dict_setitem k v r
  end.

(** [dict(pairs)] *)
Definition dict `{EqDecision K} {V} (pairs : list (K * V)) : list (K * V) :=
  fold_left (fun d kv => dict_setitem kv.1 kv.2 d) pairs [].

(** [d.get(k)] *)
Fixpoint dict_get `{EqDecision K} {V} (k : K) (d : list (K * V)) : option V :=
  match d with
  | [] => None
  | (k', v) :: r => if decide (k = k') then Some v else dict_get k r
  end.

(** ** json.dumps *)

Definition QUOTE : codepoint := 34%N.
Definition BACKSLASH : codepoint := 92%N.

Definition hexdigit (d : N) : codepoint :=
  (if d <? 10 then 48 + d else 87 + d)%N.

(** ['{0:04x}'.format(n)] *)
Definition hex4 (n : N) : pystr :=
  [hexdigit (n / 4096 mod 16); hexdigit (n / 256 mod 16);
   hexdigit (n / 16 mod 16); hexdigit (n mod 16)]%N.

Definition u_escape (n : N) : pystr := BACKSLASH :: ord "u" :: hex4 n.

(** The replacement of one character by [py_encode_basestring_ascii]. *)
Definition escape_char (c : codepoint) : pystr :=
  (if c =? QUOTE then [BACKSLASH; QUOTE]
   else if c =? BACKSLASH then [BACKSLASH; BACKSLASH]
   else if c =? 10 then [BACKSLASH; ord "n"]
   else if c =? 13 then [BACKSLASH; ord "r"]
   else if c =? 9 then [BACKSLASH; ord "t"]
   else if c =? 8 then [BACKSLASH; ord "b"]
   else if c =? 12 then [BACKSLASH; ord "f"]
   else if (32 <=? c) && (c <=? 126) then [c]
   else if c <? 0x10000 then u_escape c
   else
     let n := c - 0x10000 in
     let s1 := N.lor 0xd800 (N.land (N.shiftr n 10) 0x3ff) in
     let s2 := N.lor 0xdc00 (N.land n 0x3ff) in
     u_escape s1 ++ u_escape s2)%N.

Definition encode_basestring_ascii (s : pystr) : pystr :=
  QUOTE :: flat_map escape_char s ++ [QUOTE].

(** The characters of a run of decimal digits. *)
Fixpoint uint_text (u : Decimal.uint) : pystr :=
  match u with
  | Decimal.Nil => []
  | Decimal.D0 u => ord "0" :: uint_text u
  | Decimal.D1 u => ord "1" :: uint_text u
  | Decimal.D2 u => ord "2" :: uint_text u
  | Decimal.D3 u => ord "3" :: uint_text u
  | Decimal.D4 u => ord "4" :: uint_text u
  | Decimal.D5 u => ord "5" :: uint_text u
  | Decimal.D6 u => ord "6" :: uint_text u
  | Decimal.D7 u => ord "7" :: uint_text u
  | Decimal.D8 u => ord "8" :: uint_text u
  | Decimal.D9 u => ord "9" :: uint_text u
  end.

Definition sign_text (neg : bool) : pystr := if neg then [ord "-"] else [].

(** [int.__repr__] *)
Definition int_repr (z : Z) : pystr :=
  sign_text (z <? 0) ++ uint_text (N.to_uint (Z.abs_N z)).

Definition exp_sign_text (s : exp_sign) : pystr :=
  match s with
  | NoSign => []
  | PlusSign => [ord "+"]
  | MinusSign => [ord "-"]
  end.

Definition frac_text (frac : Decimal.uint) : pystr :=
  match frac with
  | Decimal.Nil => []
  | _ => ord "." :: uint_text frac
  end.

Definition exp_text (e : option (exp_sign * Decimal.uint)) : pystr :=
  match e with
  | None => []
  | Some (s, d) => ord "e" :: exp_sign_text s ++ uint_text d
  end.

(** [float.__repr__] of a finite float: its token. *)
Definition float_repr (l : float_literal) : pystr :=
  sign_text (fl_neg l) ++ uint_text (N.to_uint (fl_int l))
  ++ frac_text (fl_frac l) ++ exp_text (fl_exp l).

(** [floatstr], with [allow_nan] left at its default. *)
Definition floatstr (f : jfloat) : pystr :=
  match f with
  | FNaN => str "NaN"
  | FInfinity false => str "Infinity"
  | FInfinity true => str "-Infinity"
  | FLit l => float_repr l
  end.

(** The text of a [dict] key: [str] keys as they are, the other basic
    types coerced, anything else a [TypeError]. *)
Definition key_text (k : key) : result pystr :=
  match k with
  | KStr s => Return s
  | KFloat f => Return (floatstr f)
  | KBool true => Return (str "true")
  | KBool false => Return (str "false")
  | KNone => Return (str "null")
  | KInt z => Return (int_repr z)
  | KOther => Raise TypeError
  end.

Section Traverse.
Context {A B : Type} (f : A -> result B).

Fixpoint traverse (l : list A) : result (list B) :=
  match l with
  | [] => Return []
  | x :: r => y <- f x ;; ys <- traverse r ;; Return (y :: ys)
  end.
End Traverse.

(** [sep.join(items)] *)
Fixpoint join (sep : pystr) (items : list pystr) : pystr :=
  match items with
  | [] => []
  | [x] => x
  | x :: r => x ++ sep ++ join sep r
  end.

Section Encoder.
(** [indent], a non-negative [int]. *)
Variable indent : nat.

(** ['\n' + _indent * level] *)
Definition newline_indent (level : nat) : pystr :=
  10%N :: repeat 32%N (indent * level).

(** A container: its delimiters alone when empty, else one item per
    line, one level deeper. *)
Definition container (open close : codepoint) (level : nat)
    (items : list pystr) : pystr :=
  match items with
  | [] => [open; close]
  | _ =>
      open :: newline_indent (S level)
      ++ join (ord "," :: newline_indent (S level)) items
      ++ newline_indent level ++ [close]
  end.

Definition item_text (k v : pystr) : pystr :=
  encode_basestring_ascii k ++ str ": " ++ v.

(** [_iterencode], the chunks concatenated. *)
Fixpoint iterencode (level : nat) (o : value) : result pystr :=
  match o with
  | PStr s => Return (encode_basestring_ascii s)
  | PNone => Return (str "null")
  | PBool true => Return (str "true")
  | PBool false => Return (str "false")
  | PInt z => Return (int_repr z)
  | PFloat f => Return (floatstr f)
  | PList l | PTuple l =>
      items <- traverse (iterencode (S level)) l ;;
      Return (container (ord "[") (ord "]") level items)
  | PDict d =>
      items <- traverse (fun kv =>
                 k <- key_text kv.1 ;;
                 v <- iterencode (S level) kv.2 ;;
                 Return (item_text k v)) d ;;
      Return (container (ord "{") (ord "}") level items)
  | PObject => Raise TypeError
  end.
End Encoder.

(** [json.dumps(obj, indent=indent)] *)
Definition dumps (obj : value) (indent : nat) : result pystr :=
  iterencode indent 0 obj.

(** ** json.loads *)

(** The JSON whitespace, [[ \t\n\r]]. *)
Definition is_ws (c : codepoint) : bool :=
  ((c =? 32) || (c =? 9) || (c =? 10) || (c =? 13))%N.

Fixpoint skip_ws (s : pystr) : pystr :=
  match s with
  | c :: r => if is_ws c then skip_ws r else s
  | [] => []
  end.

(** [s.startswith(p)], with what follows the prefix. *)
Fixpoint strip_prefix (p s : pystr) : option pystr :=
  match p, s with
  | [], _ => Some s
  | a :: p', b :: s' => if (a =? b)%N then strip_prefix p' s' else None
  | _ :: _, [] => None
  end.

Definition is_digit (c : codepoint) : bool := ((48 <=? c) && (c <=? 57))%N.

Definition digit_cons (c : codepoint) (u : Decimal.uint) : Decimal.uint :=
  match (c - 48)%N with
  | 0%N => Decimal.D0 u
  | 1%N => Decimal.D1 u
  | 2%N => Decimal.D2 u
  | 3%N => Decimal.D3 u
  | 4%N => Decimal.D4 u
  | 5%N => Decimal.D5 u
  | 6%N => Decimal.D6 u
  | 7%N => Decimal.D7 u
  | 8%N => Decimal.D8 u
  | _ => Decimal.D9 u
  end.

(** The longest run of digits at the head, [[0-9]*]. *)
Fixpoint scan_digits (s : pystr) : Decimal.uint * pystr :=
  match s with
  | c :: r =>
      if is_digit c then
        let '(u, r') := scan_digits r in (digit_cons c u, r')
      else (Decimal.Nil, s)
  | [] => (Decimal.Nil, [])
  end.

(** The integer part: an optional minus sign, then a lone zero or a run
    of digits that starts with a digit from 1 to 9. *)
Definition scan_integer (s : pystr) : option (bool * Decimal.uint * pystr) :=
  let '(neg, s1) :=
    match s with
    | c :: r => if (c =? ord "-")%N then (true, r) else (false, s)
    | [] => (false, s)
    end in
  match s1 with
  | c :: r =>
      if (c =? ord "0")%N then Some (neg, Decimal.D0 Decimal.Nil, r)
      else if is_digit c then
        let '(u, r') := scan_digits s1 in Some (neg, u, r')
      else None
  | [] => None
  end.

(** [(\.[0-9]+)?] *)
Definition scan_frac (s : pystr) : Decimal.uint * pystr :=
  match s with
  | c :: r =>
      if (c =? ord ".")%N then
        match scan_digits r with
        | (Decimal.Nil, _) => (Decimal.Nil, s)
        | (u, r') => (u, r')
        end
      else (Decimal.Nil, s)
  | [] => (Decimal.Nil, s)
  end.

(** [([eE][-+]?[0-9]+)?] *)
Definition scan_exp (s : pystr) : option (exp_sign * Decimal.uint) * pystr :=
  match s with
  | c :: r =>
      if ((c =? ord "e") || (c =? ord "E"))%N then
        let '(sg, r1) :=
          match r with
          | d :: r' =>
              if (d =? ord "+")%N then (PlusSign, r')
              else if (d =? ord "-")%N then (MinusSign, r')
              else (NoSign, r)
          | [] => (NoSign, r)
          end in
        match scan_digits r1 with
        | (Decimal.Nil, _) => (None, s)
        | (u, r2) => (Some (sg, u), r2)
        end
      else (None, s)
  | [] => (None, s)
  end.

(** [NUMBER_RE.match] and the conversion of its groups: an [int] when
    there is neither fraction nor exponent, else a [float]. *)
Definition match_number (s : pystr) : option (value * pystr) :=
  '(neg, u, r) ← scan_integer s;
  let '(frac, r1) := scan_frac r in
  let '(ex, r2) := scan_exp r1 in
  match frac, ex with
  | Decimal.Nil, None =>
      let n := Z.of_N (N.of_uint u) in
      Some (PInt (if neg then - n else n), r2)
  | _, _ =>
      Some (PFloat (FLit {| fl_neg := neg; fl_int := N.of_uint u;
                            fl_frac := frac; fl_exp := ex |}), r2)
  end.

Definition hexval (c : codepoint) : option N :=
  (if (48 <=? c) && (c <=? 57) then Some (c - 48)
   else if (97 <=? c) && (c <=? 102) then Some (c - 87)
   else if (65 <=? c) && (c <=? 70) then Some (c - 55)
   else None)%N.

(** [_decode_uXXXX] on the four characters after [\u]. *)
Definition hex4val (a b c d : codepoint) : option N :=
  x3 ← hexval a; x2 ← hexval b; x1 ← hexval c; x0 ← hexval d;
  Some (x3 * 4096 + x2 * 256 + x1 * 16 + x0)%N.

(** The table [BACKSLASH] of the one-character escapes. *)
Definition unescape (esc : codepoint) : option codepoint :=
  (if esc =? QUOTE then Some QUOTE
   else if esc =? BACKSLASH then Some BACKSLASH
   else if esc =? ord "/" then Some (ord "/")
   else if esc =? ord "b" then Some 8
   else if esc =? ord "f" then Some 12
   else if esc =? ord "n" then Some 10
   else if esc =? ord "r" then Some 13
   else if esc =? ord "t" then Some 9
   else None)%N.

Definition is_high_surrogate (c : codepoint) : bool :=
  ((0xd800 <=? c) && (c <=? 0xdbff))%N.
Definition is_low_surrogate (c : codepoint) : bool :=
  ((0xdc00 <=? c) && (c <=? 0xdfff))%N.

Definition join_surrogates (uni uni2 : N) : codepoint :=
  (0x10000 + N.lor (N.shiftl (uni - 0xd800) 10) (uni2 - 0xdc00))%N.

Definition cons_char (c : codepoint) (r : option (pystr * pystr))
    : option (pystr * pystr) :=
  '(t, rest) ← r; Some (c :: t, rest).

(** [scanstring], strict, from the character after the opening quote:
    the decoded string and what follows the closing quote. *)
Fixpoint scanstring (s : pystr) : option (pystr * pystr) :=
  match s with
  | [] => None
  | c :: r =>
    if (c =? QUOTE)%N then Some ([], r)
    else if (c =? BACKSLASH)%N then
      match r with
      | [] => None
      | esc :: r1 =>
        if (esc =? ord "u")%N then
          match r1 with
          | h1 :: h2 :: h3 :: h4 :: r2 =>
            match hex4val h1 h2 h3 h4 with
            | None => None
            | Some uni =>
              if is_high_surrogate uni then
                match r2 with
                | b :: u :: r3 =>
                  if ((b =? BACKSLASH) && (u =? ord "u"))%N then
                    match r3 with
                    | g1 :: g2 :: g3 :: g4 :: r4 =>
                      match hex4val g1 g2 g3 g4 with
                      | None => None
                      | Some uni2 =>
                        if is_low_surrogate uni2
                        then cons_char (join_surrogates uni uni2)
                                       (scanstring r4)
                        else cons_char uni (scanstring r2)
                      end
                    | _ => None
                    end
                  else cons_char uni (scanstring r2)
                | _ => cons_char uni (scanstring r2)
                end
              else cons_char uni (scanstring r2)
            end
          | _ => None
          end
        else
          match unescape esc with
          | Some ch => cons_char ch (scanstring r1)
          | None => None
          end
      end
    else if (c <? 32)%N then None
    else cons_char c (scanstring r)
  end.

(** [null], [true], [false] *)
Definition scan_literal (s : pystr) : option (value * pystr) :=
  match strip_prefix (str "null") s with
  | Some r => Some (PNone, r)
  | None =>
    match strip_prefix (str "true") s with
    | Some r => Some (PBool true, r)
    | None =>
      match strip_prefix (str "false") s with
      | Some r => Some (PBool false, r)
      | None => None
      end
    end
  end.

(** [NaN], [Infinity], [-Infinity] *)
Definition scan_constant (s : pystr) : option (value * pystr) :=
  match strip_prefix (str "NaN") s with
  | Some r => Some (PFloat FNaN, r)
  | None =>
    match strip_prefix (str "Infinity") s with
    | Some r => Some (PFloat (FInfinity false), r)
    | None =>
      match strip_prefix (str "-Infinity") s with
      | Some r => Some (PFloat (FInfinity true), r)
      | None => None
      end
    end
  end.

(** The items of a parsed object, under their [str] keys. *)
Definition str_keys (d : list (pystr * value)) : list (key * value) :=
  map (fun kv => (KStr kv.1, kv.2)) d.

(** [scan_once], with [JSONArray] and [JSONObject] from their first item
    on.  [None] is a [JSONDecodeError]; [fuel] bounds the nesting and the
    number of items. *)
Fixpoint scan_once (fuel : nat) (s : pystr) : option (value * pystr) :=
  match fuel with
  | O => None
  | S fuel =>
    match s with
    | [] => None
    | c :: r =>
      if (c =? QUOTE)%N then '(t, r') ← scanstring r; Some (PStr t, r')
      else if (c =? ord "{")%N then
        match skip_ws r with
        | c' :: r' =>
            if (c' =? ord "}")%N then Some (PDict [], r')
            else '(pairs, r'') ← object_items fuel (skip_ws r);
                 Some (PDict (str_keys (dict pairs)), r'')
        | [] => None
        end
      else if (c =? ord "[")%N then
        match skip_ws r with
        | c' :: r' =>
            if (c' =? ord "]")%N then Some (PList [], r')
            else '(items, r'') ← array_items fuel (skip_ws r);
                 Some (PList items, r'')
        | [] => None
        end
      else
        match scan_literal s with
        | Some res => Some res
        | None =>
          match match_number s with
          | Some res => Some res
          | None => scan_constant s
          end
        end
    end
  end
with array_items (fuel : nat) (s : pystr) : option (list value * pystr) :=
  match fuel with
  | O => None
  | S fuel =>
    '(v, r) ← scan_once fuel s;
    match skip_ws r with
    | c :: r' =>
        if (c =? ord "]")%N then Some ([v], r')
        else if (c =? ord ",")%N then
          '(vs, r'') ← array_items fuel (skip_ws r'); Some (v :: vs, r'')
        else None
    | [] => None
    end
  end
with object_items (fuel : nat) (s : pystr)
    : option (list (pystr * value) * pystr) :=
  match fuel with
  | O => None
  | S fuel =>
    match s with
    | q :: r =>
      if (q =? QUOTE)%N then
        '(k, r1) ← scanstring r;
        match skip_ws r1 with
        | c :: r2 =>
          if (c =? ord ":")%N then
            '(v, r3) ← scan_once fuel (skip_ws r2);
            match skip_ws r3 with
            | c' :: r4 =>
                if (c' =? ord "}")%N then Some ([(k, v)], r4)
                else if (c' =? ord ",")%N then
                  '(ps, r5) ← object_items fuel (skip_ws r4);
                  Some ((k, v) :: ps, r5)
                else None
            | [] => None
            end
          else None
        | [] => None
        end
      else None
    | [] => None
    end
  end.

(** [s.startswith('\ufeff')] *)
Definition startswith_bom (s : pystr) : bool :=
  match s with
  | c :: _ => (c =? 0xfeff)%N
  | [] => false
  end.

(** [json.loads(s)]: no byte-order mark, one value, only whitespace
    around it. *)
Definition loads (s : pystr) : result value :=
  if startswith_bom s then Raise JSONDecodeError
  else
    match scan_once (S (length s)) (skip_ws s) with
    | Some (obj, r) =>
        match skip_ws r with
        | [] => Return obj
        | _ :: _ => Raise JSONDecodeError
        end
    | None => Raise JSONDecodeError
    end.

(** ** Parsing a payload *)

Definition INVALID_JSON : string := "Invalid JSON payload: ".
Definition BAD_SHAPE : string := "Payload must be a dict with an 'items' list".

(** [parse_items_from_json]: a [JSONDecodeError] becomes a [ValueError]
    (the decoder's own message, which the source appends, is not
    modelled); then the shape test, [isinstance(obj, dict)],
    ["items" in obj], [isinstance(obj["items"], list)]. *)
Definition parse_items_from_json (payload : pystr) : result (list value) :=
  match loads payload with
  | Raise JSONDecodeError => Raise (ValueError INVALID_JSON)
  | Raise e => Raise e
  | Return obj =>
      match obj with
      | PDict d =>
          match dict_get (KStr (str "items")) d with
          | Some (PList items) => Return items
          | _ => Raise (ValueError BAD_SHAPE)
          end
      | _ => Raise (ValueError BAD_SHAPE)
      end
  end.

(** ** Files *)

(** The UTF-8 codec, strict. *)
Abbreviation byte := Byte.byte.

Definition byte_of_N (n : N) : byte :=
  match Byte.of_N n with
  | Some b => b
  | None => Byte.x00
  end.

Definition is_surrogate (c : codepoint) : bool :=
  ((0xd800 <=? c) && (c <=? 0xdfff))%N.

Definition cont_byte (n : N) : byte :=
  byte_of_N (N.lor 0x80 (N.land n 0x3f)).

Definition utf8_encode_char (c : codepoint) : option (list byte) :=
  (if c <? 0x80 then Some [byte_of_N c]
   else if c <? 0x800 then
     Some [byte_of_N (N.lor 0xc0 (N.shiftr c 6)); cont_byte c]
   else if c <? 0x10000 then
     if is_surrogate c then None
     else Some [byte_of_N (N.lor 0xe0 (N.shiftr c 12));
                cont_byte (N.shiftr c 6); cont_byte c]
   else if c <? 0x110000 then
     Some [byte_of_N (N.lor 0xf0 (N.shiftr c 18));
           cont_byte (N.shiftr c 12); cont_byte (N.shiftr c 6); cont_byte c]
   else None)%N.

(** [s.encode("utf-8")]; [None] is a [UnicodeEncodeError]. *)
Fixpoint utf8_encode (s : pystr) : option (list byte) :=
  match s with
  | [] => Some []
  | c :: r => bs ← utf8_encode_char c; rs ← utf8_encode r; Some (bs ++ rs)
  end.

Definition in_range (lo hi n : N) : bool := ((lo <=? n) && (n <=? hi))%N.

Definition payload (n : N) : N := N.land n 0x3f.

(** [b.decode("utf-8")]; [None] is a [UnicodeDecodeError]. *)
Fixpoint utf8_decode (bs : list byte) : option pystr :=
  match bs with
  | [] => Some []
  | b0 :: r =>
    let n0 := Byte.to_N b0 in
    if (n0 <? 0x80)%N then t ← utf8_decode r; Some (n0 :: t)
    else if (n0 <? 0xc2)%N then None
    else if (n0 <? 0xe0)%N then
      match r with
      | b1 :: r1 =>
        let n1 := Byte.to_N b1 in
        if in_range 0x80 0xbf n1 then
          t ← utf8_decode r1;
          Some (N.lor (N.shiftl (N.land n0 0x1f) 6) (payload n1) :: t)
        else None
      | _ => None
      end
    else if (n0 <? 0xf0)%N then
      match r with
      | b1 :: b2 :: r2 =>
        let n1 := Byte.to_N b1 in
        let n2 := Byte.to_N b2 in
        let lo := if (n0 =? 0xe0)%N then 0xa0%N else 0x80%N in
        let hi := if (n0 =? 0xed)%N then 0x9f%N else 0xbf%N in
        if in_range lo hi n1 && in_range 0x80 0xbf n2 then
          t ← utf8_decode r2;
          Some (N.lor (N.shiftl (N.land n0 0x0f) 12)
                  (N.lor (N.shiftl (payload n1) 6) (payload n2)) :: t)
        else None
      | _ => None
      end
    else if (n0 <? 0xf5)%N then
      match r with
      | b1 :: b2 :: b3 :: r3 =>
        let n1 := Byte.to_N b1 in
        let n2 := Byte.to_N b2 in
        let n3 := Byte.to_N b3 in
        let lo := if (n0 =? 0xf0)%N then 0x90%N else 0x80%N in
        let hi := if (n0 =? 0xf4)%N then 0x8f%N else 0xbf%N in
        if in_range lo hi n1 && in_range 0x80 0xbf n2
           && in_range 0x80 0xbf n3 then
          t ← utf8_decode r3;
          Some (N.lor (N.shiftl (N.land n0 0x07) 18)
                  (N.lor (N.shiftl (payload n1) 12)
                     (N.lor (N.shiftl (payload n2) 6) (payload n3))) :: t)
        else None
      | _ => None
      end
    else None
  end.

(** Text mode with [newline=None]: on writing, every line feed becomes
    [os.linesep]; on reading, universal newlines. *)
Definition translate_out (crlf : bool) (s : pystr) : pystr :=
  if crlf then flat_map (fun c => if (c =? 10)%N then [13%N; 10%N] else [c]) s
  else s.

Fixpoint universal_newlines (s : pystr) : pystr :=
  match s with
  | [] => []
  | c :: r =>
      if (c =? 13)%N then
        match r with
        | d :: r' =>
            if (d =? 10)%N then 10%N :: universal_newlines r'
            else 10%N :: universal_newlines r
        | [] => [10%N]
        end
      else c :: universal_newlines r
  end.

(** A path is the list of its components below the root. *)
Definition path : Type := list string.

(** [path.parent] *)
Definition parent (p : path) : path := removelast p.

(** The file system: the directories, and the files with their bytes.
    [crlf] tells whether [os.linesep] is a carriage return and a line
    feed. *)
Record filesystem : Type := {
  dirs : gset path;
  files : gmap path (list byte);
  crlf : bool
}.

Definition with_file (fs : filesystem) (p : path) (bs : list byte)
    : filesystem :=
  {| dirs := dirs fs; files := <[p := bs]> (files fs); crlf := crlf fs |}.

(** An action on the file system. *)
Definition io (A : Type) : Type := filesystem -> result A * filesystem.

Definition io_ret {A} (a : A) : io A := fun fs => (Return a, fs).

Definition io_lift {A} (r : result A) : io A := fun fs => (r, fs).

Definition io_bind {A B} (m : io A) (k : A -> io B) : io B :=
  fun fs =>
    match m fs with
    | (Return a, fs') => k a fs'
    | (Raise e, fs') => (Raise e, fs')
    end.

Notation "x <~ m ;; k" := (io_bind m (fun x => k))
  (at level 100, m at next level, right associativity, only parsing).

Fixpoint proper_prefixes (p : path) : list path :=
  match p with
  | [] => []
  | c :: r => [] :: map (cons c) (proper_prefixes r)
  end.

(** The error of opening a path that has no entry: a file on the way is
    not a directory, else nothing is there. *)
Definition missing (fs : filesystem) (p : path) : exc :=
  if existsb (fun q => bool_decide (is_Some (files fs !! q)))
       (proper_prefixes p)
  then NotADirectoryError else FileNotFoundError.

(** [open(path, "w")]: the file is created or truncated, in a directory
    that exists; no directory is ever created. *)
Definition open_w (p : path) : io unit :=
  fun fs =>
    if decide (p ∈ dirs fs) then (Raise IsADirectoryError, fs)
    else if decide (parent p ∈ dirs fs) then (Return tt, with_file fs p [])
    else (Raise (missing fs p), fs).

(** [path.write_text(data, encoding="utf-8")] *)
Definition write_text (p : path) (data : pystr) : io nat :=
  _ <~ open_w p ;;
  fun fs =>
    match utf8_encode (translate_out (crlf fs) data) with
    | Some bs => (Return (length data), with_file fs p bs)
    | None => (Raise UnicodeEncodeError, fs)
    end.

(** [path.read_text(encoding="utf-8")] *)
Definition read_text (p : path) : io pystr :=
  fun fs =>
    if decide (p ∈ dirs fs) then (Raise IsADirectoryError, fs)
    else match files fs !! p with
         | None => (Raise (missing fs p), fs)
         | Some bs =>
             match utf8_decode bs with
             | Some s => (Return (universal_newlines s), fs)
             | None => (Raise UnicodeDecodeError, fs)
             end
         end.

Definition DEFAULT_INDENT : nat := 2.

(** [write_json(path, obj, indent=indent)] *)
Definition write_json (p : path) (obj : value) (indent : nat) : io unit :=
  data <~ io_lift (dumps obj indent) ;;
  _ <~ write_text p data ;;
  io_ret tt.

(** [read_json(path)] *)
Definition read_json (p : path) : io value :=
  data <~ read_text p ;;
  io_lift (loads data).

(** ** Small utilities *)

(** [str.isspace] of one character. *)
Definition isspace (c : codepoint) : bool :=
  (in_range 9 13 c || in_range 28 32 c || (c =? 0x85) || (c =? 0xa0)
   || (c =? 0x1680) || in_range 0x2000 0x200a c || (c =? 0x2028)
   || (c =? 0x2029) || (c =? 0x202f) || (c =? 0x205f) || (c =? 0x3000))%N.

Fixpoint lstrip (s : pystr) : pystr :=
  match s with
  | c :: r => if isspace c then lstrip r else s
  | [] => []
  end.

Fixpoint rstrip (s : pystr) : pystr :=
  match s with
  | [] => []
  | c :: r =>
      match rstrip r with
      | [] => if isspace c then [] else [c]
      | r' => c :: r'
      end
  end.

(** [s.strip()] *)
Definition strip (s : pystr) : pystr := rstrip (lstrip s).

(** [str.lower] on ASCII text, where only the letters A to Z change. *)
Definition ascii_lower_char (c : codepoint) : codepoint :=
  (if in_range 65 90 c then c + 32 else c)%N.

Definition is_ascii (s : pystr) : Prop := Forall (fun c => (c < 128)%N) s.

(** [str.lower]: the Unicode case table is data of the interpreter, so the
    method is a parameter, with the facts about it that the properties
    below rest on. *)
Class CaseTable : Type := {
  lower : pystr -> pystr;
  lower_ascii : forall s, is_ascii s -> lower s = map ascii_lower_char s;
  lower_lower : forall s, lower (lower s) = lower s;
  lower_stripped : forall s, strip (lower (strip s)) = lower (strip s);
  lower_nil : forall s, lower s = [] -> s = []
}.

(** The order of [str]: by code points, a prefix first. *)
Fixpoint str_leb (a b : pystr) : bool :=
  match a, b with
  | [], _ => true
  | _ :: _, [] => false
  | x :: a', y :: b' =>
      if (x <? y)%N then true
      else if (y <? x)%N then false
      else str_leb a' b'
  end.

Definition str_le (a b : pystr) : Prop := str_leb a b = true.

Global Instance str_le_dec : RelDecision str_le.
Proof. intros a b. unfold str_le. apply _. Defined.

(** [sorted] of a set of [str]. *)
Definition sorted (xs : gset pystr) : list pystr :=
  merge_sort str_le (elements xs).

(** An entry of the list given to [normalize_emails]: a [str], or any
    other object, of which the code only sees its truth value. *)
Inductive entry : Type :=
  | Text (s : pystr)
  | NonText (truth : bool).

(** [bool(e)] *)
Definition truthy (e : entry) : bool :=
  match e with
  | Text s => negb (bool_decide (s = []))
  | NonText b => b
  end.

(** [isinstance(e, str)] *)
Definition isinstance_str (e : entry) : bool :=
  match e with
  | Text _ => true
  | NonText _ => false
  end.

Section Emails.
Context `{CaseTable}.

(** The comprehension [{e.strip().lower() for e in emails if e and
    isinstance(e, str)}]. *)
Definition normalized (emails : list entry) : gset pystr :=
  list_to_set
    (flat_map (fun e =>
       if truthy e && isinstance_str e then
         match e with
         | Text s => [lower (strip s)]
         | NonText _ => []
         end
       else []) emails).

Definition normalize_emails (emails : list entry) : list pystr :=
  sorted (normalized emails).
End Emails.

(** ** The values JSON represents *)

(** A Unicode scalar value: a code point that is not a surrogate. *)
Definition scalar_value (c : codepoint) : bool :=
  (c <? 0x110000)%N && negb (is_surrogate c).

Definition is_text (s : pystr) : bool := forallb scalar_value s.

(** A float token has a fraction or an exponent, and an exponent has
    digits. *)
Definition float_token (l : float_literal) : bool :=
  match fl_frac l, fl_exp l with
  | Decimal.Nil, None => false
  | _, Some (_, Decimal.Nil) => false
  | _, _ => true
  end.

Definition str_key (k : key) : bool :=
  match k with
  | KStr s => is_text s
  | _ => false
  end.

(** The values of JSON's own data model: [None], the booleans, the
    integers, the finite floats, text, lists of such values, and
    dictionaries from distinct text keys to such values.  Tuples, keys
    that are not [str], NaN and the infinities are serialized by [dumps]
    but are not in that model. *)
Fixpoint json_representable (v : value) : bool :=
  match v with
  | PNone | PBool _ | PInt _ => true
  | PFloat (FLit l) => float_token l
  | PFloat _ => false
  | PStr s => is_text s
  | PList l => forallb json_representable l
  | PTuple _ => false
  | PDict d =>
      bool_decide (NoDup (d.*1))
      && forallb (fun kv => str_key kv.1 && json_representable kv.2) d
  | PObject => false
  end.







(** What follows a value in the output of [dumps]: nothing, a comma or a
    line feed. *)
Definition follows_value (rest : pystr) : Prop :=
  match rest with
  | [] => True
  | c :: _ => c = ord "," \/ c = 10%N
  end.

(** The characters of the output of [dumps]: printable ASCII and the line
    feed. *)
Definition plain (c : codepoint) : bool := (c =? 10)%N || in_range 32 126 c.

(** ** Vocabulary of the properties *)

(** The first character of the text of a value: not whitespace, and not
    a closing bracket. *)
Definition value_head (t : pystr) : Prop :=
  exists c r, t = c :: r /\ is_ws c = false
              /\ (c =? 93)%N = false /\ (c =? 125)%N = false.

(** A number starts with a minus sign or a digit. *)
Definition number_head (t : pystr) : Prop :=
  exists c r, t = c :: r /\ (c = 45%N \/ is_digit c = true).

(** The name of a [str] key. *)
Definition key_name (k : key) : pystr :=
  match k with
  | KStr s => s
  | _ => []
  end.

Definition named (d : list (key * value)) : list (pystr * value) :=
  map (fun kv => (key_name kv.1, kv.2)) d.

(** The text of [dumps] is plain. *)
Definition plain_text (t : pystr) : Prop := Forall (fun c => plain c = true) t.

Definition ascii_text (t : pystr) : Prop := Forall (fun c => (c < 128)%N) t.

(** The text of one item of a [dict], as [iterencode] builds it. *)
Definition encode_item (indent level : nat) (kv : key * value)
    : result pystr :=
  k <- key_text kv.1 ;;
  v <- iterencode indent (S level) kv.2 ;;
  Return (item_text k v).

(** A value is read back from its text, whatever follows it in the
    output and at whatever depth, given fuel for the length of the
    text. *)
Definition reads_back (indent : nat) (v : value) : Prop :=
  forall level t fuel rest,
    json_representable v = true ->
    iterencode indent level v = Return t ->
    (length t <= fuel)%nat ->
    follows_value rest ->
    scan_once fuel (t ++ rest) = Some (v, rest).

Definition separator (indent level : nat) : pystr :=
  ord "," :: newline_indent indent (S level).

(** A file system with the directory of the demonstration, and the
    items the demonstration writes. *)
Definition demo_fs : filesystem :=
  {| dirs := {[ []; ["data"%string] ]}; files := ∅; crlf := false |}.

Definition demo_items : value :=
  PList [PDict [(KStr (str "id"), PInt 1); (KStr (str "name"), PStr (str "widget"))];
         PDict [(KStr (str "id"), PInt 2); (KStr (str "name"), PStr (str "gadget"))]].

End Json.

(** * The other functions of the files *)

(** ** solutions/01_basics_solutions.py *)

Module BasicsMore.

(** [range(start, stop)] *)
Definition range (start stop : Z) : list Z := seqZ start (stop - start).

(** What one turn of the loop of [fizzbuzz] prints: [out or i], as
    [str]. *)
Definition out_or_i (i : Z) : pystr :=
  let out := [] in
  let out := if i mod 3 =? 0 then out ++ str "Fizz" else out in
  let out := if i mod 5 =? 0 then out ++ str "Buzz" else out in
  if bool_decide (out = []) then Json.int_repr i else out.

(** One turn of the loop: [print] adds a line to the standard output. *)
Definition fizzbuzz_body (i : Z) (stdout : list pystr) : list pystr :=
  stdout ++ [out_or_i i].

(** [fizzbuzz(n)], from the lines printed before it to the lines printed
    after it. *)
Definition fizzbuzz (n : Z) (stdout : list pystr) : list pystr :=
  fold_left (fun out i => fizzbuzz_body i out) (range 1 (n + 1)) stdout.

(** [repeat(s, times, sep)]: [sep.join([s] * times)] *)
Definition repeat (s : pystr) (times : Z) (sep : pystr) : pystr :=
  Json.join sep (replicate (Z.to_nat times) s).

End BasicsMore.

(** ** src/oop/models.py *)

Module ModelsMore.
Import Models Json.

(** [User.to_dict] *)
Definition User_to_dict (self : User.t) : value :=
  PDict [(KStr (str "id"), PInt (User.id self));
         (KStr (str "name"), PStr (User.name self));
         (KStr (str "email"), PStr (User.email self));
         (KStr (str "active"), PBool (User.active self))].

(** [dataclasses.asdict(self)]: the fields in the order of their
    declaration. *)
Definition asdict (self : UserDC.t) : list (key * value) :=
  [(KStr (str "id"), PInt (UserDC.id self));
   (KStr (str "name"), PStr (UserDC.name self));
   (KStr (str "email"), PStr (UserDC.email self));
   (KStr (str "active"), PBool (UserDC.active self));
   (KStr (str "fingerprint"),
    match UserDC.fingerprint self with
    | Some fp => PStr fp
    | None => PNone
    end)].

(** [v is None] *)
Definition is_None (v : value) : bool :=
  match v with
  | PNone => true
  | _ => false
  end.

(** [UserDC.to_dict]: the items of [asdict] whose value is not [None]. *)
Definition UserDC_to_dict (self : UserDC.t) : value :=
  PDict (filter (fun kv => is_None kv.2 = false) (asdict self)).

Definition to_dict (u : user) : value :=
  match u with
  | AUser u => User_to_dict u
  | AUserDC d => UserDC_to_dict d
  end.

Definition set_fingerprint (self : UserDC.t) (fp : option pystr) : UserDC.t :=
  UserDC.mk (UserDC.id self) (UserDC.name self) (UserDC.email self)
    (UserDC.active self) fp.

(** [f"{self.id}:{self.email}"] *)
Definition fingerprint_text (self : UserDC.t) : pystr :=
  int_repr (UserDC.id self) ++ str ":" ++ UserDC.email self.

Section Fingerprint.
(** [sha256(data).hexdigest()]: the digest is a function of the bytes; no
    more of it is used. *)
Variable sha256_hexdigest : list byte -> pystr.

(** [compute_fingerprint]: the value returned or the exception, and the
    record as the call leaves it. *)
Definition compute_fingerprint (self : UserDC.t) : result pystr * UserDC.t :=
  match utf8_encode (fingerprint_text self) with
  | None => (Raise UnicodeEncodeError, self)
  | Some data =>
      let fp := sha256_hexdigest data in
      (Return fp, set_fingerprint self (Some fp))
  end.
End Fingerprint.

(** The items of a dictionary. *)
Definition items_of (v : value) : list (key * value) :=
  match v with
  | PDict d => d
  | _ => []
  end.


End ModelsMore.

(** ** src/data_handling/json_api.py *)

Module JsonMore.
Import Json.

(** [bool(v)]: the truth value of an object is decided by its class, so it
    is a parameter, with what holds of it on the built-in values used
    below. *)
Class Truth : Type := {
  truthy : value -> bool;
  truthy_None : truthy PNone = false;
  truthy_bool : forall b, truthy (PBool b) = b;
  truthy_int : forall z, truthy (PInt z) = negb (z =? 0);
  truthy_str : forall s, truthy (PStr s) = negb (bool_decide (s = []))
}.

(** The number a float token denotes. *)
Definition token_value (l : float_literal) : Q :=
  let digits :=
    (inject_Z (Z.of_N (fl_int l))
     + inject_Z (Z.of_N (N.of_uint (fl_frac l)))
       / inject_Z (10 ^ Z.of_nat (Decimal.nb_digits (fl_frac l))))%Q in
  let exponent :=
    match fl_exp l with
    | None => 0
    | Some (MinusSign, d) => - Z.of_N (N.of_uint d)
    | Some (_, d) => Z.of_N (N.of_uint d)
    end in
  ((if fl_neg l then - digits else digits) * Qpower (10 # 1) exponent)%Q.

(** [bool] of the built-in values.  A float is false when it is a zero:
    its token denotes a number that rounds to zero, one of at most half
    the least positive float.  Any other object is taken as true, the
    default of [object]. *)
Definition builtin_truthy (v : value) : bool :=
  match v with
  | PNone => false
  | PBool b => b
  | PInt z => negb (z =? 0)
  | PFloat (FLit l) =>
      negb (Qle_bool (Qabs (token_value l)) (Qpower (2 # 1) (-1075)))
  | PFloat _ => true
  | PStr s => negb (bool_decide (s = []))
  | PList l | PTuple l => negb (bool_decide (l = []))
  | PDict d => negb (bool_decide (d = []))
  | PObject => true
  end.

Global Instance builtin_truth : Truth.
Proof. refine {| truthy := builtin_truthy |}; reflexivity. Defined.

(** [u.get(k)] *)
Definition get (u : list (key * value)) (k : key) : value :=
  match dict_get k u with
  | Some v => v
  | None => PNone
  end.

(** [filter_active_users] *)
Definition filter_active_users `{Truth} (users : list (list (key * value)))
    : list (list (key * value)) :=
  filter (fun u => truthy (get u (KStr (str "active"))) = true) users.



Definition DATA_DIR : path := ["data"%string].
Definition ITEMS_PATH : path := DATA_DIR ++ ["items.json"%string].
Definition ACTIVE_USERS_PATH : path := DATA_DIR ++ ["active_users.json"%string].

(** The objects [dumps] accepts: no object it cannot serialize, as a value
    or as a key. *)
Definition serializable_key (k : key) : bool :=
  match k with
  | KOther => false
  | _ => true
  end.

Fixpoint serializable (v : value) : bool :=
  match v with
  | PObject => false
  | PList l | PTuple l => forallb serializable l
  | PDict d => forallb (fun kv => serializable_key kv.1 && serializable kv.2) d
  | _ => true
  end.

(** The values [loads] builds: lists and dictionaries with distinct [str]
    keys around scalars, a finite float being a float token. *)
Fixpoint json_shaped (v : value) : bool :=
  match v with
  | PObject | PTuple _ => false
  | PFloat (FLit l) => float_token l
  | PList l => forallb json_shaped l
  | PDict d =>
      bool_decide (NoDup (d.*1))
      && forallb (fun kv => match kv.1 with KStr _ => true | _ => false end
                            && json_shaped kv.2) d
  | _ => true
  end.

(** No NaN, no infinity, and no surrogate in a string or a [str] key. *)
Definition text_key (k : key) : bool :=
  match k with
  | KStr s => is_text s
  | KFloat (FLit _) => true
  | KFloat _ => false
  | _ => true
  end.

Fixpoint finite_text (v : value) : bool :=
  match v with
  | PFloat (FLit _) => true
  | PFloat _ => false
  | PStr s => is_text s
  | PList l | PTuple l => forallb finite_text l
  | PDict d => forallb (fun kv => text_key kv.1 && finite_text kv.2) d
  | _ => true
  end.

(** Text made of JSON whitespace, and text that is empty or starts with
    it. *)
Definition whitespace (s : pystr) : Prop := Forall (fun c => is_ws c = true) s.

Definition ws_head (x : pystr) : Prop :=
  match x with
  | [] => True
  | c :: _ => is_ws c = true
  end.

End JsonMore.

(** * JSON texts *)

(** The grammar of RFC 8259, with the value that each text denotes in
    Python.  [ext] tells whether the three constants that [json.loads]
    accepts beyond the RFC, [NaN], [Infinity] and [-Infinity], are
    values. *)
Module Grammar.
Import Json.

(** [ws]: space, horizontal tab, line feed, carriage return. *)
Definition ws_char (c : codepoint) : Prop :=
  c = 32%N \/ c = 9%N \/ c = 10%N \/ c = 13%N.

Definition ws (w : pystr) : Prop := Forall ws_char w.

(** A hexadecimal digit and its value. *)
Definition xdigit (c : codepoint) (n : N) : Prop :=
  ((48 <= c <= 57) /\ n = c - 48
   \/ (65 <= c <= 70) /\ n = c - 55
   \/ (97 <= c <= 102) /\ n = c - 87)%N.

(** The four digits of [\uXXXX] and the code unit they denote. *)
Inductive code_unit : pystr -> N -> Prop :=
  | code_unit_intro (h1 h2 h3 h4 : codepoint) (a b c d : N) :
      xdigit h1 a -> xdigit h2 b -> xdigit h3 c -> xdigit h4 d ->
      code_unit [h1; h2; h3; h4] (a * 4096 + b * 256 + c * 16 + d)%N.

Definition high_surrogate (u : N) : Prop := (0xD800 <= u <= 0xDBFF)%N.
Definition low_surrogate (u : N) : Prop := (0xDC00 <= u <= 0xDFFF)%N.

(** The character of a surrogate pair. *)
Definition pair_char (hi lo : N) : codepoint :=
  (0x10000 + (hi - 0xD800) * 0x400 + (lo - 0xDC00))%N.

(** The two-character escapes: the character after the backslash and the
    character denoted. *)
Definition escapes : list (codepoint * codepoint) :=
  [(QUOTE, QUOTE); (BACKSLASH, BACKSLASH); (ord "/", ord "/");
   (ord "b", 8%N); (ord "f", 12%N); (ord "n", 10%N); (ord "r", 13%N);
   (ord "t", 9%N)].

(** The text starts with the escape of a low surrogate. *)
Definition starts_low (body : pystr) : Prop :=
  exists ys lo r,
    body = BACKSLASH :: ord "u" :: ys ++ r
    /\ code_unit ys lo /\ low_surrogate lo.

(** [*char]: the text between the quotes of a string and the [str] it
    denotes.  The escape of a high surrogate followed by that of a low
    one denotes one character; any other [\uXXXX] denotes its code
    unit. *)
Inductive json_chars : pystr -> pystr -> Prop :=
  | chars_nil : json_chars [] []
  | chars_plain (c : codepoint) (body s : pystr) :
      (32 <= c)%N -> c <> QUOTE -> c <> BACKSLASH ->
      json_chars body s -> json_chars (c :: body) (c :: s)
  | chars_escape (e c : codepoint) (body s : pystr) :
      (e, c) ∈ escapes ->
      json_chars body s -> json_chars (BACKSLASH :: e :: body) (c :: s)
  | chars_unit (xs : pystr) (u : N) (body s : pystr) :
      code_unit xs u ->
      ~ (high_surrogate u /\ starts_low body) ->
      json_chars body s ->
      json_chars (BACKSLASH :: ord "u" :: xs ++ body) (u :: s)
  | chars_pair (xs ys : pystr) (hi lo : N) (body s : pystr) :
      code_unit xs hi -> code_unit ys lo ->
      high_surrogate hi -> low_surrogate lo ->
      json_chars body s ->
      json_chars (BACKSLASH :: ord "u" :: xs
                  ++ BACKSLASH :: ord "u" :: ys ++ body)
                 (pair_char hi lo :: s).

(** [exp]: [e] or [E], a sign or none, digits. *)
Definition exponent_text (ex : option (bool * exp_sign * Decimal.uint))
    : pystr :=
  match ex with
  | None => []
  | Some (upper, sg, d) =>
      (if upper then ord "E" else ord "e") :: exp_sign_text sg ++ uint_text d
  end.

Definition exponent (ex : option (bool * exp_sign * Decimal.uint))
    : option (exp_sign * Decimal.uint) :=
  match ex with
  | None => None
  | Some (_, sg, d) => Some (sg, d)
  end.

(** What [json.loads] makes of a number: an [int] when it has neither
    fraction nor exponent, else a [float]. *)
Definition number_value (neg : bool) (n : N) (fr : Decimal.uint)
    (ex : option (exp_sign * Decimal.uint)) : value :=
  match fr, ex with
  | Decimal.Nil, None => PInt (if neg then - Z.of_N n else Z.of_N n)
  | _, _ =>
      PFloat (FLit {| fl_neg := neg; fl_int := n; fl_frac := fr;
                      fl_exp := ex |})
  end.

(** [number = [ minus ] int [ frac ] [ exp ]]: [int] is the decimal
    numeral of a natural number, [frac] a point and digits ([Nil] when
    there is none), and the digits of [exp] are not empty. *)
Inductive json_number : pystr -> value -> Prop :=
  | number_intro (neg : bool) (n : N) (fr : Decimal.uint)
      (ex : option (bool * exp_sign * Decimal.uint)) :
      match ex with Some (_, _, Decimal.Nil) => False | _ => True end ->
      json_number
        (sign_text neg ++ uint_text (N.to_uint n) ++ frac_text fr
         ++ exponent_text ex)
        (number_value neg n fr (exponent ex)).

Section Values.
Variable ext : bool.

(** [value], the [value]s of an array between its brackets, and the
    [member]s of an object between its braces.  An object denotes the
    [dict] of its members, in which a name that occurs again replaces
    the value of the first. *)
Inductive json_value : pystr -> value -> Prop :=
  | value_null : json_value (str "null") PNone
  | value_true : json_value (str "true") (PBool true)
  | value_false : json_value (str "false") (PBool false)
  | value_number (t : pystr) (v : value) :
      json_number t v -> json_value t v
  | value_string (body s : pystr) :
      json_chars body s -> json_value (QUOTE :: body ++ [QUOTE]) (PStr s)
  | value_empty_array (w : pystr) :
      ws w -> json_value (ord "[" :: w ++ [ord "]"]) (PList [])
  | value_array (w t : pystr) (vs : list value) :
      ws w -> json_elements t vs ->
      json_value (ord "[" :: w ++ t ++ [ord "]"]) (PList vs)
  | value_empty_object (w : pystr) :
      ws w -> json_value (ord "{" :: w ++ [ord "}"]) (PDict [])
  | value_object (w t : pystr) (ps : list (pystr * value)) :
      ws w -> json_members t ps ->
      json_value (ord "{" :: w ++ t ++ [ord "}"])
                 (PDict (str_keys (dict ps)))
  | value_NaN : ext = true -> json_value (str "NaN") (PFloat FNaN)
  | value_Infinity :
      ext = true -> json_value (str "Infinity") (PFloat (FInfinity false))
  | value_minus_Infinity :
      ext = true -> json_value (str "-Infinity") (PFloat (FInfinity true))
with json_elements : pystr -> list value -> Prop :=
  | elements_last (t : pystr) (v : value) (w : pystr) :
      json_value t v -> ws w -> json_elements (t ++ w) [v]
  | elements_more (t : pystr) (v : value) (w1 w2 r : pystr)
      (vs : list value) :
      json_value t v -> ws w1 -> ws w2 -> json_elements r vs ->
      json_elements (t ++ w1 ++ ord "," :: w2 ++ r) (v :: vs)
with json_members : pystr -> list (pystr * value) -> Prop :=
  | members_last (body k w1 w2 t : pystr) (v : value) (w3 : pystr) :
      json_chars body k -> ws w1 -> ws w2 -> json_value t v -> ws w3 ->
      json_members
        (QUOTE :: body ++ QUOTE :: w1 ++ ord ":" :: w2 ++ t ++ w3)
        [(k, v)]
  | members_more (body k w1 w2 t : pystr) (v : value) (w3 w4 r : pystr)
      (ps : list (pystr * value)) :
      json_chars body k -> ws w1 -> ws w2 -> json_value t v -> ws w3 ->
      ws w4 -> json_members r ps ->
      json_members
        (QUOTE :: body ++ QUOTE :: w1 ++ ord ":" :: w2 ++ t ++ w3
         ++ ord "," :: w4 ++ r)
        ((k, v) :: ps).

End Values.



End Grammar.

(** * Properties *)

(** ** solutions/01_basics_solutions.py *)

Module BasicsSpec.
Import Basics.

(** C9. [grade] maps a score to its letter by the descending bands 90, 80,
    70, 60, with no bound on the score; a lower score never gets a better
    letter; [grade(90)] is A, [grade(89)] is B and [grade(59)] is F. *)
Theorem grade_bands (s : Z) :
  (grade s = "A"%string <-> 90 <= s)
  /\ (grade s = "B"%string <-> 80 <= s < 90)
  /\ (grade s = "C"%string <-> 70 <= s < 80)
  /\ (grade s = "D"%string <-> 60 <= s < 70)
  /\ (grade s = "F"%string <-> s < 60)
  /\ (forall t, t <= s -> (rank (grade t) <= rank (grade s))%nat)
  /\ grade 90 = "A"%string /\ grade 89 = "B"%string /\ grade 59 = "F"%string
  /\ grade 1000 = "A"%string /\ grade (-1) = "F"%string.
Proof.
  assert (bands : forall x,
    (90 <= x /\ grade x = "A"%string) \/ (80 <= x < 90 /\ grade x = "B"%string)
    \/ (70 <= x < 80 /\ grade x = "C"%string)
    \/ (60 <= x < 70 /\ grade x = "D"%string)
    \/ (x < 60 /\ grade x = "F"%string)).
  { intros x. unfold grade.
    destruct (Z.leb_spec 90 x); [left; split; [lia | reflexivity] |].
    destruct (Z.leb_spec 80 x); [right; left; split; [lia | reflexivity] |].
    destruct (Z.leb_spec 70 x);
      [right; right; left; split; [lia | reflexivity] |].
    destruct (Z.leb_spec 60 x);
      [right; right; right; left; split; [lia | reflexivity] |].
    right; right; right; right; split; [lia | reflexivity]. }
  assert (mono : forall t, t <= s -> (rank (grade t) <= rank (grade s))%nat).
  { intros t Hts.
    destruct (bands s) as [[? G]|[[? G]|[[? G]|[[? G]|[? G]]]]];
      destruct (bands t) as [[? G']|[[? G']|[[? G']|[[? G']|[? G']]]]];
      rewrite G, G'; unfold rank; simpl; lia. }
  destruct (bands s) as [[? G]|[[? G]|[[? G]|[[? G]|[? G]]]]];
    (split; [| split; [| split; [| split; [| split; [| split]]]]]);
    solve [ exact mono | repeat split; reflexivity
          | split; [ intros E; rewrite G in E; (lia || discriminate E)
                   | intros ?; (exact G || lia) ] ].
Qed.

Lemma grade_bands_witness : (rank (grade 59) <= rank (grade 90))%nat.
Proof.
  destruct (grade_bands 90) as (_ & _ & _ & _ & _ & mono & _).
  apply mono. lia.
Defined.

Lemma Qeq_bool_inject_Z (z : Z) : Qeq_bool (inject_Z z) 0 = (z =? 0).
Proof. unfold Qeq_bool. simpl. f_equal; lia. Qed.

Lemma long_true_divide_zero (x y : Z) :
  long_true_divide x y = Raise ZeroDivisionError <-> y = 0.
Proof.
  unfold long_true_divide. destruct (Z.eqb_spec y 0) as [E|E].
  - tauto.
  - destruct (too_large _); split; (discriminate || contradiction).
Qed.

Lemma long_true_divide_no_TypeError (x y : Z) :
  long_true_divide x y <> Raise TypeError.
Proof.
  unfold long_true_divide.
  destruct (y =? 0); [discriminate |]. destruct (too_large _); discriminate.
Qed.

(** What [a / b] does with two numbers of which one is a float. *)
Lemma float_div_outcome (a b : pyobj) :
  is_number a = true -> is_number b = true ->
  float_div a b <> Raise TypeError
  /\ (float_div a b = Raise ZeroDivisionError
      <-> is_zero b = true /\ overflows a = false).
Proof.
  intros Ha Hb. unfold float_div, bind.
  assert (Ca : (overflows a = true /\ to_double a = Raise OverflowError)
               \/ (overflows a = false /\ exists x, to_double a = Return x)).
  { destruct a as [z|c|f| |]; try discriminate Ha; unfold overflows; simpl.
    - destruct (too_large (inject_Z z)); eauto.
    - destruct (too_large _); eauto.
    - eauto. }
  assert (Cb : (is_zero b = false /\ to_double b = Raise OverflowError)
               \/ (exists y, to_double b = Return y
                              /\ float_is_zero y = is_zero b)).
  { destruct b as [z|c|f| |]; try discriminate Hb; simpl.
    - destruct (too_large (inject_Z z)) eqn:L.
      + left. split; [| reflexivity].
        destruct (Z.eqb_spec z 0) as [->|]; [discriminate L | reflexivity].
      + right. eexists. split; [reflexivity |]. simpl.
        apply Qeq_bool_inject_Z.
    - destruct (too_large _) eqn:L.
      + left. split; [| reflexivity]. destruct c; [reflexivity | discriminate L].
      + right. eexists. split; [reflexivity |]. simpl.
        apply Qeq_bool_inject_Z.
    - right. eauto. }
  destruct Ca as [[Oa ->]|[Oa [x ->]]].
  - split; [discriminate |]. split; [discriminate |].
    intros [_ E]. congruence.
  - destruct Cb as [[Zb ->]|[y [-> Zb]]].
    + split; [discriminate |]. split; [discriminate |].
      intros [E _]. congruence.
    + rewrite Zb. destruct (is_zero b).
      * split; [discriminate |]. tauto.
      * split; [discriminate |]. split; [discriminate |].
        intros [E _]. discriminate E.
Qed.

(** The outcomes of [a / b] that [safe_div] turns into [None]. *)
Lemma truediv_caught (a b : pyobj) :
  (truediv a b = Raise ZeroDivisionError \/ truediv a b = Raise TypeError)
  <-> (is_number a && is_number b = false)
      \/ (is_number a = true /\ is_zero b = true
          /\ is_float b && overflows a = false).
Proof.
  unfold truediv. destruct (is_number a) eqn:Ha; simpl.
  2:{ split; [intros _; left; reflexivity | intros _; right; reflexivity]. }
  destruct (is_number b) eqn:Hb.
  2:{ split; [intros _; left; reflexivity | intros _; right; reflexivity]. }
  destruct (as_int a) as [x|] eqn:Ia; [destruct (as_int b) as [y|] eqn:Ib |].
  - assert (Fb : is_float b = false) by (destruct b; simpl in *; congruence).
    assert (Zb : is_zero b = (y =? 0))
      by (destruct b; simpl in *; congruence).
    rewrite Fb, Zb. simpl. split.
    + intros [E|E]; [| destruct (long_true_divide_no_TypeError _ _ E)].
      apply long_true_divide_zero in E. subst y. right. auto.
    + intros [E|(_ & E & _)]; [discriminate E |].
      left. apply long_true_divide_zero. lia.
  - assert (Fb : is_float b = true)
      by (destruct b; simpl in *; congruence).
    rewrite Fb. simpl.
    destruct (float_div_outcome a b Ha Hb) as [NT ZD]. split.
    + intros [E|E]; [| contradiction]. right. apply ZD in E. tauto.
    + intros [E|(_ & Z0 & O)]; [discriminate E |]. left. apply ZD. auto.
  - assert (Oa : overflows a = false) by (unfold overflows; rewrite Ia; auto).
    rewrite Oa, andb_false_r.
    destruct (float_div_outcome a b Ha Hb) as [NT ZD]. split.
    + intros [E|E]; [| contradiction]. right. apply ZD in E. tauto.
    + intros [E|(_ & Z0 & _)]; [discriminate E |]. left. apply ZD. auto.
Qed.

(** C5, as amended. [safe_div(a, b)] returns [None] exactly when [a / b]
    raises [ZeroDivisionError] or [TypeError]: when an operand is not a
    number, or when both are numbers and [b] is zero, unless [b] is a float
    and [a] an [int] too large for a float, which raises [OverflowError]
    before the zero test.  Neither [ZeroDivisionError] nor [TypeError]
    reaches the caller.  [safe_div(10, 2)] is 5.0, [safe_div(10, 0)] and
    [safe_div("x", 2)] are [None]. *)
Theorem safe_div_none (a b : pyobj) :
  (safe_div a b = Return None
   <-> (is_number a && is_number b = false)
       \/ (is_number a = true /\ is_zero b = true
           /\ is_float b && overflows a = false))
  /\ safe_div a b <> Raise ZeroDivisionError
  /\ safe_div a b <> Raise TypeError
  /\ safe_div (PyInt 10) (PyInt 2) = Return (Some (Finite 5))
  /\ safe_div (PyInt 10) (PyInt 0) = Return None
  /\ safe_div (PyStr (str "x")) (PyInt 2) = Return None.
Proof.
  split; [| split; [| split; [| repeat split]]].
  - rewrite <- truediv_caught. unfold safe_div.
    destruct (truediv a b) as [q|[]]; split;
      solve [ discriminate | intros [E|E]; discriminate E
            | auto | intros _; reflexivity ].
  - unfold safe_div. destruct (truediv a b) as [q|[]]; discriminate.
  - unfold safe_div. destruct (truediv a b) as [q|[]]; discriminate.
Qed.

(** C5, counterexample: with the float zero as divisor and an [int] too
    large for a float as dividend, [safe_div] does not return [None]; it
    raises [OverflowError]. *)
Lemma safe_div_zero_divisor_raises :
  is_zero (PyFloat (Finite 0)) = true
  /\ is_number (PyInt (10 ^ 400)) = true
  /\ safe_div (PyInt (10 ^ 400)) (PyFloat (Finite 0)) = Raise OverflowError.
Proof. repeat split; vm_compute; reflexivity. Qed.

End BasicsSpec.

(** ** src/oop/models.py *)

Module ModelsSpec.
Import Models.

(** *** Equality *)

(** C1, as amended. Two [User] records are equal exactly when their [id]
    fields are equal, whatever their other fields; two [UserDC] records
    are equal exactly when all their fields are: [id], [name], [email],
    [active] and [fingerprint]. *)
Theorem user_equality (u1 u2 : User.t) (d1 d2 : UserDC.t) :
  (py_eq (AUser u1) (AUser u2) = true <-> User.id u1 = User.id u2)
  /\ (py_eq (AUserDC d1) (AUserDC d2) = true
      <-> UserDC.id d1 = UserDC.id d2
          /\ UserDC.name d1 = UserDC.name d2
          /\ UserDC.email d1 = UserDC.email d2
          /\ UserDC.active d1 = UserDC.active d2
          /\ UserDC.fingerprint d1 = UserDC.fingerprint d2).
Proof.
  split.
  - simpl. apply Z.eqb_eq.
  - unfold py_eq, dunder_eq, UserDC_eq, str_eqb, opt_str_eqb.
    rewrite !andb_true_iff, Z.eqb_eq, Bool.eqb_true_iff,
      !bool_decide_eq_true.
    tauto.
Qed.

(** C1, counterexample: two [UserDC] records with the same [id] and
    different names and emails are not equal. *)
Lemma UserDC_same_id_not_equal :
  let d1 := UserDC.init 1 (str "Ann") (str "ann@example.com") true in
  let d2 := UserDC.init 1 (str "X") (str "x@x.com") true in
  UserDC.id d1 = UserDC.id d2 /\ py_eq (AUserDC d1) (AUserDC d2) = false.
Proof. split; reflexivity. Qed.

(** *** domain *)

Lemma split_nonempty (sep : codepoint) (s : pystr) : split sep s <> [].
Proof.
  destruct s as [|c r]; simpl; [discriminate |].
  destruct (N.eqb c sep); [discriminate |].
  destruct (split sep r); discriminate.
Qed.

Lemma getitem_last {A} (l : list A) (x : A) :
  getitem (l ++ [x]) (-1) = Return x.
Proof.
  unfold getitem. rewrite length_app. simpl.
  replace (-1 + Z.of_nat (length l + 1)) with (Z.of_nat (length l)) by lia.
  destruct (Z.ltb_spec (Z.of_nat (length l)) 0); [lia |].
  destruct (Z.leb_spec (Z.of_nat (length l + 1)) (Z.of_nat (length l)));
    [lia |].
  simpl. rewrite Nat2Z.id.
  rewrite lookup_app_r by lia. rewrite Nat.sub_diag. reflexivity.
Qed.

(** A split is a list of pieces and a last piece; none holds the
    separator, and the string is the pieces glued back. *)
Lemma split_spec (sep : codepoint) (s : pystr) :
  exists front d,
    split sep s = front ++ [d] /\ (sep ∉ d) /\ s = glue sep front ++ d.
Proof.
  unfold glue. induction s as [|c r IH]; simpl.
  - exists [], []. repeat split. apply not_elem_of_nil.
  - destruct IH as (front & d & E & Hd & Hr).
    destruct (N.eqb_spec c sep) as [->|Hc].
    + exists ([] :: front), d. rewrite E. repeat split; auto.
      simpl. congruence.
    + rewrite E. destruct front as [|f fs]; simpl in *.
      * exists [], (c :: d). repeat split.
        -- rewrite not_elem_of_cons. auto.
        -- simpl. congruence.
      * exists ((c :: f) :: fs), d. repeat split; auto.
        simpl. congruence.
Qed.

Lemma glue_snoc (sep : codepoint) (front : list pystr) (p : pystr) :
  glue sep (front ++ [p]) = glue sep front ++ p ++ [sep].
Proof. unfold glue. rewrite flat_map_app. simpl. rewrite app_nil_r. auto. Qed.

Lemma split_domain_spec (email : pystr) :
  exists d,
    split_domain email = Return d
    /\ (ord "@" ∉ d)
    /\ (ord "@" ∈ email -> exists pre, email = pre ++ ord "@" :: d)
    /\ (ord "@" ∉ email -> d = email).
Proof.
  destruct (split_spec (ord "@") email) as (front & d & E & Hd & Hs).
  exists d. unfold split_domain. rewrite E. split; [apply getitem_last |].
  split; [exact Hd |].
  induction front as [|p front' _] using rev_ind.
  - simpl in Hs. subst d. split; [contradiction | reflexivity].
  - rewrite glue_snoc in Hs. split.
    + intros _. exists (glue (ord "@") front' ++ p). rewrite Hs.
      rewrite <- !app_assoc. reflexivity.
    + intros Hn. exfalso. apply Hn. rewrite Hs.
      rewrite !elem_of_app. left. right. right. apply list_elem_of_singleton.
      reflexivity.
Qed.

(** C10. [domain()] of a [User] and of a [UserDC] returns for every email
    and never raises: the substring after the last ["@"] when the email
    has one, the whole email when it has none. *)
Theorem domain_total (u : user) :
  exists d,
    domain u = Return d
    /\ (ord "@" ∉ d)
    /\ (ord "@" ∈ get_email u -> exists pre, get_email u = pre ++ ord "@" :: d)
    /\ (ord "@" ∉ get_email u -> d = get_email u).
Proof. destruct u as [u|d]; apply split_domain_spec. Qed.

Lemma domain_total_witness :
  let u := AUser (User.mk 1 (str "Ann") (str "ann@example.com") true) in
  domain u = Return (str "example.com").
Proof.
  intros u. destruct (domain_total u) as (d & E & Hd & Hin & _).
  rewrite E. f_equal.
  assert (A : ord "@" ∈ get_email u) by (vm_compute; set_solver).
  destruct (Hin A) as [pre Hpre].
  vm_compute in E. injection E as <-. reflexivity.
Defined.

(** *** dedupe_users_by_id *)

(** The result list only grows at its end. *)
Lemma dedupe_loop_acc (users : list user) (seen : gset Z) (result : list user) :
  dedupe_loop users seen result = result ++ dedupe_loop users seen [].
Proof.
  revert seen result. induction users as [|u rest IH]; intros seen result.
  - simpl. rewrite app_nil_r. reflexivity.
  - simpl. destruct (decide (get_id u ∈ seen)); [apply IH |].
    rewrite IH, (IH _ ([] ++ [u])). rewrite <- app_assoc. reflexivity.
Qed.

Lemma dedupe_loop_cons (u : user) (rest : list user) (seen : gset Z) :
  dedupe_loop (u :: rest) seen [] =
  if decide (get_id u ∈ seen) then dedupe_loop rest seen []
  else u :: dedupe_loop rest ({[get_id u]} ∪ seen) [].
Proof.
  simpl. destruct (decide (get_id u ∈ seen)); [reflexivity |].
  rewrite dedupe_loop_acc. reflexivity.
Qed.

Section DedupeLoop.
Implicit Types (users : list user) (seen : gset Z).

Lemma dedupe_loop_sublist users seen :
  sublist (dedupe_loop users seen []) users.
Proof.
  revert seen. induction users as [|u rest IH]; intros seen.
  - constructor.
  - rewrite dedupe_loop_cons. destruct (decide _).
    + apply sublist_cons, IH.
    + apply sublist_skip, IH.
Qed.

Lemma dedupe_loop_fresh users seen x :
  x ∈ dedupe_loop users seen [] -> get_id x ∉ seen.
Proof.
  revert seen. induction users as [|u rest IH]; intros seen.
  - simpl. intros H. destruct (not_elem_of_nil _ H).
  - rewrite dedupe_loop_cons. destruct (decide _) as [Hin|Hin].
    + apply IH.
    + rewrite elem_of_cons. intros [->|H]; [exact Hin |].
      apply IH in H. set_solver.
Qed.

Lemma dedupe_loop_NoDup users seen :
  NoDup (get_id <$> dedupe_loop users seen []).
Proof.
  revert seen. induction users as [|u rest IH]; intros seen.
  - constructor.
  - rewrite dedupe_loop_cons. destruct (decide _) as [Hin|Hin]; [apply IH |].
    rewrite fmap_cons. constructor; [| apply IH].
    rewrite list_elem_of_fmap. intros (x & E & Hx).
    apply dedupe_loop_fresh in Hx. set_solver.
Qed.

Lemma dedupe_loop_ids users seen :
  list_to_set (get_id <$> dedupe_loop users seen [])
  = (list_to_set (get_id <$> users) ∖ seen : gset Z).
Proof.
  revert seen. induction users as [|u rest IH]; intros seen.
  - simpl. set_solver.
  - rewrite dedupe_loop_cons. destruct (decide _) as [Hin|Hin].
    + rewrite IH, fmap_cons. simpl. set_solver.
    + rewrite !fmap_cons. simpl. rewrite IH.
      apply set_eq. intros i. destruct (decide (i = get_id u)); set_solver.
Qed.

(** Every record kept is the first of the input with its [id]. *)
Lemma dedupe_loop_first users seen x :
  x ∈ dedupe_loop users seen [] ->
  exists pre post,
    users = pre ++ x :: post /\ (get_id x ∉ get_id <$> pre).
Proof.
  revert seen. induction users as [|u rest IH]; intros seen.
  - simpl. intros H. destruct (not_elem_of_nil _ H).
  - rewrite dedupe_loop_cons. destruct (decide _) as [Hin|Hin].
    + intros H. pose proof (dedupe_loop_fresh _ _ _ H) as Hx.
      destruct (IH _ H) as (pre & post & -> & Hpre).
      exists (u :: pre), post. split; [reflexivity |].
      rewrite fmap_cons, not_elem_of_cons. split; [congruence | exact Hpre].
    + rewrite elem_of_cons. intros [->|H].
      * exists [], rest. split; [reflexivity | apply not_elem_of_nil].
      * pose proof (dedupe_loop_fresh _ _ _ H) as Hx.
        destruct (IH _ H) as (pre & post & -> & Hpre).
        exists (u :: pre), post. split; [reflexivity |].
        rewrite fmap_cons, not_elem_of_cons. split; [set_solver | exact Hpre].
Qed.
End DedupeLoop.

Lemma dedupe_loop_snoc (users : list user) (seen : gset Z) (x : user) :
  dedupe_loop (users ++ [x]) seen [] =
  dedupe_loop users seen []
  ++ (if decide (get_id x ∈ seen ∪ list_to_set (get_id <$> users))
      then [] else [x]).
Proof.
  revert seen. induction users as [|u rest IH]; intros seen.
  - simpl. rewrite union_empty_r_L.
    destruct (decide (get_id x ∈ seen)); reflexivity.
  - change ((u :: rest) ++ [x]) with (u :: (rest ++ [x])).
    rewrite !dedupe_loop_cons, !IH, fmap_cons.
    destruct (decide (get_id u ∈ seen)) as [Hu|Hu].
    + apply f_equal. apply decide_ext. simpl.
      rewrite !elem_of_union, elem_of_singleton.
      split; [tauto |]. intros [H|[H|H]]; auto. left. congruence.
    + simpl. apply f_equal, f_equal. apply decide_ext.
      rewrite !elem_of_union, elem_of_singleton. tauto.
Qed.

Lemma dedupe_users_by_id_snoc (users : list user) (x : user) :
  dedupe_users_by_id (users ++ [x]) =
  dedupe_users_by_id users
  ++ (if decide (get_id x ∈ get_id <$> users) then [] else [x]).
Proof.
  unfold dedupe_users_by_id. rewrite dedupe_loop_snoc.
  f_equal. apply decide_ext.
  rewrite elem_of_union, elem_of_list_to_set, elem_of_empty. tauto.
Qed.

(** The positions of the input that are kept: in increasing order, those
    of the records whose [id] no earlier record has. *)
Lemma dedupe_users_by_id_kept (users : list user) :
  exists kept : list nat,
    StronglySorted lt kept
    /\ (forall i, i ∈ kept <->
          exists x, users !! i = Some x
                    /\ (get_id x ∉ get_id <$> take i users))
    /\ (fun i => users !! i) <$> kept = Some <$> dedupe_users_by_id users.
Proof.
  induction users as [|x pre IH] using rev_ind.
  - exists []. split; [constructor |]. split; [| reflexivity].
    intros i. rewrite elem_of_nil. split; [tauto |].
    intros (x & Hx & _). rewrite lookup_nil in Hx. discriminate.
  - destruct IH as (kept & Hsorted & Hkept & Hout).
    assert (Hlt : forall i, i ∈ kept -> (i < length pre)%nat).
    { intros i Hi. apply Hkept in Hi as (y & Hy & _).
      apply lookup_lt_Some in Hy. exact Hy. }
    exists (kept ++ if decide (get_id x ∈ get_id <$> pre) then []
                    else [length pre]).
    split; [| split].
    + apply StronglySorted_app_2; [| exact Hsorted |].
      * intros i j Hi Hj. apply Hlt in Hi.
        destruct (decide _); [destruct (not_elem_of_nil _ Hj) |].
        apply list_elem_of_singleton in Hj. lia.
      * destruct (decide _); repeat constructor.
    + intros i. rewrite elem_of_app, Hkept.
      destruct (lt_eq_lt_dec i (length pre)) as [[Hi|Hi]|Hi].
      * rewrite lookup_app_l by exact Hi.
        rewrite take_app_le by lia.
        split; [intros [H|H]; [exact H |] | auto].
        destruct (decide _); [destruct (not_elem_of_nil _ H) |].
        apply list_elem_of_singleton in H. lia.
      * subst i. rewrite list_lookup_middle by reflexivity.
        rewrite take_app_length.
        split.
        -- intros [(y & Hy & _)|H].
           ++ apply lookup_lt_Some in Hy. lia.
           ++ destruct (decide _) as [|Hn]; [destruct (not_elem_of_nil _ H) |].
              exists x. auto.
        -- intros (y & [= <-] & Hy). right.
           rewrite decide_False by exact Hy. left.
      * split.
        -- intros [(y & Hy & _)|H].
           ++ apply lookup_lt_Some in Hy. lia.
           ++ destruct (decide _); [destruct (not_elem_of_nil _ H) |].
              apply list_elem_of_singleton in H. lia.
        -- intros (y & Hy & _). apply lookup_lt_Some in Hy.
           rewrite length_app in Hy. simpl in Hy. lia.
    + rewrite dedupe_users_by_id_snoc, !fmap_app, <- Hout. f_equal.
      * apply list_fmap_ext. intros j i Hi.
        apply lookup_app_l, Hlt. eapply list_elem_of_lookup_2, Hi.
      * destruct (decide _); [reflexivity |]. simpl.
        rewrite list_lookup_middle by reflexivity. reflexivity.
Qed.

(** C8. [dedupe_users_by_id] keeps the records in the order of the input,
    one for each [id]: the first of the input with that [id], whatever
    the other fields of the later ones.  The positions it keeps are, in
    increasing order, those of the records whose [id] no earlier record
    has, so that a record appended to the input is appended to the result
    unless its [id] occurred before.  The result has as many records as
    the input has distinct ids; and [[a, b, c]] with [c.id == a.id] and
    [b.id != a.id] gives [[a, b]]. *)
Theorem dedupe_users_by_id_spec (users : list user) :
  let out := dedupe_users_by_id users in
  sublist out users
  /\ NoDup (get_id <$> out)
  /\ (forall u, u ∈ users -> get_id u ∈ get_id <$> out)
  /\ (forall x, x ∈ out ->
        exists pre post,
          users = pre ++ x :: post /\ (get_id x ∉ get_id <$> pre))
  /\ length out = size (list_to_set (get_id <$> users) : gset Z)
  /\ (forall a b c, get_id c = get_id a -> get_id b <> get_id a ->
        dedupe_users_by_id [a; b; c] = [a; b])
  /\ (exists kept : list nat,
        StronglySorted lt kept
        /\ (forall i, i ∈ kept <->
              exists x, users !! i = Some x
                        /\ (get_id x ∉ get_id <$> take i users))
        /\ (fun i => users !! i) <$> kept = Some <$> out)
  /\ (forall x,
        dedupe_users_by_id (users ++ [x])
        = out ++ (if decide (get_id x ∈ get_id <$> users) then [] else [x])).
Proof.
  unfold dedupe_users_by_id. cbv zeta.
  pose proof (dedupe_loop_ids users ∅) as Hids.
  rewrite difference_empty_L in Hids.
  split; [apply dedupe_loop_sublist |].
  split; [apply dedupe_loop_NoDup |].
  split; [| split; [| split; [| split; [| split]]]].
  - intros u Hu.
    apply (elem_of_list_to_set (C := gset Z)). rewrite Hids.
    apply elem_of_list_to_set, list_elem_of_fmap. eauto.
  - intros x. apply dedupe_loop_first.
  - rewrite <- Hids, size_list_to_set by apply dedupe_loop_NoDup.
    rewrite length_fmap. reflexivity.
  - intros a b c Hc Hb. rewrite !dedupe_loop_cons. simpl.
    repeat (destruct (decide _)); set_solver.
  - apply dedupe_users_by_id_kept.
  - apply dedupe_users_by_id_snoc.
Qed.

Lemma dedupe_users_by_id_spec_witness :
  let u1 := AUser (User.mk 1 (str "Ann") (str "ann@example.com") true) in
  let u2 := AUserDC (UserDC.init 2 (str "Bob") (str "bob@example.com") false) in
  let u3 := AUser (User.mk 1 (str "Ann-dup") (str "ann@dup.com") true) in
  dedupe_users_by_id [u1; u2; u3] = [u1; u2].
Proof.
  intros u1 u2 u3.
  destruct (dedupe_users_by_id_spec [u1; u2; u3])
    as (_ & _ & _ & _ & _ & example & _).
  apply example; [reflexivity | discriminate].
Defined.

End ModelsSpec.

(** ** src/data_handling/json_api.py *)

Module JsonSpec.
Import Json.
Import Decimal.

(** *** Numbers *)

Lemma scan_digits_nil (rest : pystr) :
  follows_value rest -> scan_digits rest = (Nil, rest).
Proof.
  destruct rest as [|c r]; [reflexivity |].
  intros [->| ->]; reflexivity.
Qed.

Lemma scan_digits_uint_text (u : uint) (rest : pystr) :
  scan_digits rest = (Nil, rest) ->
  scan_digits (uint_text u ++ rest) = (u, rest).
Proof.
  intros Hrest. induction u; simpl; try rewrite IHu; auto.
Qed.

(** The digits of a natural number: a lone zero, or a run that starts
    with a digit other than zero. *)
Lemma to_uint_head (n : N) :
  N.to_uint n = D0 Nil
  \/ (exists c r, uint_text (N.to_uint n) = c :: r
                  /\ is_digit c = true /\ (c =? 48)%N = false
                  /\ (c =? 45)%N = false).
Proof.
  assert (E : N.to_uint n = unorm (N.to_uint n)).
  { rewrite <- (DecimalN.Unsigned.to_of (N.to_uint n)).
    rewrite DecimalN.Unsigned.of_to. reflexivity. }
  unfold unorm in E.
  pose proof (DecimalFacts.nzhead_nonzero (N.to_uint n)) as NZ.
  destruct (nzhead (N.to_uint n)) eqn:Hd; rewrite E;
    try (left; reflexivity);
    try (right; simpl; do 2 eexists; split; [reflexivity |];
         repeat split; reflexivity).
  destruct (NZ u). reflexivity.
Qed.

Lemma scan_integer_unsigned (n : N) (rest : pystr) :
  scan_digits rest = (Nil, rest) ->
  scan_integer (uint_text (N.to_uint n) ++ rest)
  = Some (false, N.to_uint n, rest).
Proof.
  intros Hrest. unfold scan_integer. literals.
  destruct (to_uint_head n) as [E|(c & r & E & Hd & H0 & Hm)].
  - rewrite E. reflexivity.
  - pose proof (scan_digits_uint_text (N.to_uint n) rest Hrest) as S.
    rewrite E in *. change ((c :: r) ++ rest) with (c :: r ++ rest) in *.
    cbv beta iota. rewrite Hm, H0, Hd, S. reflexivity.
Qed.

Lemma scan_integer_signed (n : N) (rest : pystr) :
  scan_digits rest = (Nil, rest) ->
  scan_integer (ord "-" :: uint_text (N.to_uint n) ++ rest)
  = Some (true, N.to_uint n, rest).
Proof.
  intros Hrest. unfold scan_integer. literals.
  replace (45 =? 45)%N with true by reflexivity.
  destruct (to_uint_head n) as [E|(c & r & E & Hd & H0 & Hm)].
  - rewrite E. reflexivity.
  - pose proof (scan_digits_uint_text (N.to_uint n) rest Hrest) as S.
    rewrite E in *. change ((c :: r) ++ rest) with (c :: r ++ rest) in *.
    cbv beta iota. rewrite H0, Hd, S. reflexivity.
Qed.

Lemma scan_integer_sign (neg : bool) (n : N) (rest : pystr) :
  scan_digits rest = (Nil, rest) ->
  scan_integer (sign_text neg ++ uint_text (N.to_uint n) ++ rest)
  = Some (neg, N.to_uint n, rest).
Proof.
  destruct neg; [apply scan_integer_signed | apply scan_integer_unsigned].
Qed.

Lemma scan_frac_none (rest : pystr) :
  follows_value rest -> scan_frac rest = (Nil, rest).
Proof.
  destruct rest as [|c r]; [reflexivity |]. intros [->| ->]; reflexivity.
Qed.

Lemma scan_exp_none (rest : pystr) :
  follows_value rest -> scan_exp rest = (None, rest).
Proof.
  destruct rest as [|c r]; [reflexivity |]. intros [->| ->]; reflexivity.
Qed.

(** An integer is read back from its [repr]. *)
Lemma match_number_int_repr (z : Z) (rest : pystr) :
  follows_value rest ->
  match_number (int_repr z ++ rest) = Some (PInt z, rest).
Proof.
  intros Hrest. unfold match_number, int_repr. rewrite <- app_assoc.
  rewrite scan_integer_sign by (apply scan_digits_nil, Hrest).
  simpl. rewrite scan_frac_none, scan_exp_none by exact Hrest.
  rewrite DecimalN.Unsigned.of_to. do 2 f_equal.
  destruct (Z.ltb_spec z 0); f_equal; lia.
Qed.

Lemma exp_text_head (ex : option (exp_sign * uint)) (rest : pystr) :
  follows_value rest ->
  scan_digits (exp_text ex ++ rest) = (Nil, exp_text ex ++ rest)
  /\ scan_frac (exp_text ex ++ rest) = (Nil, exp_text ex ++ rest).
Proof.
  intros Hrest. destruct ex as [[sg d]|]; simpl.
  - split; reflexivity.
  - split; [apply scan_digits_nil | apply scan_frac_none]; exact Hrest.
Qed.

Lemma scan_frac_text (frac : uint) (X : pystr) :
  scan_digits X = (Nil, X) -> scan_frac X = (Nil, X) ->
  scan_frac (frac_text frac ++ X) = (frac, X).
Proof.
  intros HX HF.
  pose proof (scan_digits_uint_text frac X HX) as S.
  destruct frac; [exact HF | ..];
    unfold frac_text, scan_frac; literals;
    change ((46%N :: ?t) ++ X) with (46%N :: t ++ X);
    cbv beta iota; replace (46 =? 46)%N with true by reflexivity;
    rewrite S; reflexivity.
Qed.

Lemma scan_exp_text (ex : option (exp_sign * uint)) (rest : pystr) :
  follows_value rest ->
  match ex with Some (_, Nil) => False | _ => True end ->
  scan_exp (exp_text ex ++ rest) = (ex, rest).
Proof.
  intros Hrest Hex. destruct ex as [[sg d]|]; [| apply scan_exp_none, Hrest].
  pose proof (scan_digits_uint_text d rest (scan_digits_nil rest Hrest)) as S.
  unfold exp_text, scan_exp. literals.
  change ((101%N :: ?t) ++ rest) with (101%N :: t ++ rest).
  cbv beta iota. replace ((101 =? 101) || (101 =? 69))%N with true by reflexivity.
  rewrite <- app_assoc.
  destruct sg; unfold exp_sign_text; literals;
    change ([?c] ++ ?t) with (c :: t); change ([] ++ ?t) with t.
  - destruct d; try contradiction; simpl in S |- *; rewrite S; reflexivity.
  - cbv beta iota. replace (43 =? 43)%N with true by reflexivity.
    cbv beta iota. rewrite S. destruct d; try contradiction; reflexivity.
  - cbv beta iota. replace (45 =? 43)%N with false by reflexivity.
    replace (45 =? 45)%N with true by reflexivity.
    cbv beta iota. rewrite S. destruct d; try contradiction; reflexivity.
Qed.

(** A float token is read back from its text. *)
Lemma match_number_float_repr (l : float_literal) (rest : pystr) :
  float_token l = true -> follows_value rest ->
  match_number (float_repr l ++ rest) = Some (PFloat (FLit l), rest).
Proof.
  intros Hl Hrest. destruct l as [neg n frac ex].
  unfold float_token in Hl. simpl in Hl.
  unfold match_number, float_repr. simpl fl_neg. simpl fl_int.
  simpl fl_frac. simpl fl_exp. rewrite <- !app_assoc.
  destruct (exp_text_head ex rest Hrest) as [HD HF].
  assert (HX : scan_digits (frac_text frac ++ exp_text ex ++ rest)
               = (Nil, frac_text frac ++ exp_text ex ++ rest)).
  { destruct frac; [exact HD | ..]; reflexivity. }
  rewrite scan_integer_sign by exact HX.
  simpl. rewrite scan_frac_text by assumption.
  rewrite scan_exp_text;
    [| exact Hrest | destruct ex as [[sg []]|]; destruct frac; easy].
  rewrite DecimalN.Unsigned.of_to.
  destruct frac; destruct ex; try reflexivity. discriminate Hl.
Qed.

(** *** Strings *)

(** Case analysis on the comparisons of code points in the goal. *)
Ltac compare_codepoints :=
  repeat match goal with
    | |- context [(?a <=? ?b)%N] => destruct (N.leb_spec a b); try lia
    | |- context [(?a <? ?b)%N] => destruct (N.ltb_spec a b); try lia
    | |- context [(?a =? ?b)%N] => destruct (N.eqb_spec a b); try lia
    end.

Lemma hexval_hexdigit (d : N) :
  (d < 16)%N -> hexval (hexdigit d) = Some d.
Proof.
  intros Hd. unfold hexval, hexdigit.
  compare_codepoints; simpl; f_equal; lia.
Qed.

Lemma hex4val_hex4 (n : N) :
  (n < 65536)%N ->
  match hex4 n with
  | [a; b; c; d] => hex4val a b c d = Some n
  | _ => False
  end.
Proof.
  intros Hn. unfold hex4, hex4val.
  rewrite !hexval_hexdigit by (apply N.mod_lt; discriminate).
  simpl. f_equal.
  pose proof (N.div_mod n 4096). pose proof (N.mod_lt n 4096).
  pose proof (N.div_mod n 256). pose proof (N.mod_lt n 256).
  pose proof (N.div_mod n 16). pose proof (N.mod_lt n 16).
  pose proof (N.div_mod (n / 4096) 16). pose proof (N.mod_lt (n / 4096) 16).
  pose proof (N.div_mod (n / 256) 16). pose proof (N.mod_lt (n / 256) 16).
  pose proof (N.div_mod (n / 16) 16). pose proof (N.mod_lt (n / 16) 16).
  assert (n / 4096 / 16 = 0)%N
    by (rewrite N.Div0.div_div; apply N.div_small; exact Hn).
  assert (n / 256 / 16 = n / 4096)%N by (rewrite N.Div0.div_div; reflexivity).
  assert (n / 16 / 16 = n / 256)%N by (rewrite N.Div0.div_div; reflexivity).
  lia.
Qed.

(** Disjoint bits: the high part and ten low bits add up. *)
Lemma lor_high_low (h l : N) :
  (l < 1024)%N -> N.lor (h * 1024) l = (h * 1024 + l)%N.
Proof.
  intros Hl. change 1024%N with (2 ^ 10)%N in *.
  rewrite <- N.shiftl_mul_pow2.
  assert (D : N.land (N.shiftl h 10) l = 0%N).
  { apply N.bits_inj_0. intros i. rewrite N.land_spec.
    destruct (N.lt_ge_cases i 10) as [Hi|Hi].
    - rewrite N.shiftl_spec_low by exact Hi. reflexivity.
    - rewrite <- (N.mod_small l (2 ^ 10)) by exact Hl.
      rewrite N.mod_pow2_bits_high by exact Hi. apply andb_false_r. }
  rewrite <- N.lxor_lor by exact D. symmetry. apply N.add_nocarry_lxor, D.
Qed.

Lemma high_surrogate_of (n : N) :
  (n < 0x100000)%N ->
  N.lor 0xd800 (N.land (N.shiftr n 10) 0x3ff) = (0xd800 + n / 1024)%N.
Proof.
  intros Hn. change 0x3ff%N with (N.ones 10).
  rewrite N.land_ones, N.shiftr_div_pow2. change (2 ^ 10)%N with 1024%N.
  assert (n / 1024 < 1024)%N by (apply N.Div0.div_lt_upper_bound; lia).
  rewrite N.mod_small by assumption.
  change 0xd800%N with (54 * 1024)%N. apply lor_high_low. assumption.
Qed.

Lemma low_surrogate_of (n : N) :
  N.lor 0xdc00 (N.land n 0x3ff) = (0xdc00 + n mod 1024)%N.
Proof.
  change 0x3ff%N with (N.ones 10). rewrite N.land_ones.
  change (2 ^ 10)%N with 1024%N.
  change 0xdc00%N with (55 * 1024)%N. apply lor_high_low.
  apply N.mod_lt. discriminate.
Qed.

Lemma join_surrogates_of (n : N) :
  join_surrogates (0xd800 + n / 1024) (0xdc00 + n mod 1024)
  = (0x10000 + n)%N.
Proof.
  unfold join_surrogates.
  rewrite (N.add_comm 0xd800), (N.add_comm 0xdc00), !N.add_sub.
  rewrite N.shiftl_mul_pow2. change (2 ^ 10)%N with 1024%N.
  rewrite lor_high_low by (apply N.mod_lt; discriminate).
  pose proof (N.div_mod n 1024). lia.
Qed.

Lemma scanstring_plain (c : codepoint) (r : pystr) :
  (c =? QUOTE)%N = false -> (c =? BACKSLASH)%N = false ->
  (c <? 32)%N = false ->
  scanstring (c :: r) = cons_char c (scanstring r).
Proof. intros H1 H2 H3. simpl. rewrite H1, H2, H3. reflexivity. Qed.


Lemma scanstring_u (uni h1 h2 h3 h4 : codepoint) (r : pystr) :
  hex4val h1 h2 h3 h4 = Some uni -> is_high_surrogate uni = false ->
  scanstring (BACKSLASH :: ord "u" :: h1 :: h2 :: h3 :: h4 :: r)
  = cons_char uni (scanstring r).
Proof.
  intros H1 H2. cbn [scanstring]. literals. unfold QUOTE, BACKSLASH.
  cbn [N.eqb Pos.eqb]. rewrite H1, H2. reflexivity.
Qed.

Lemma scanstring_pair (uni uni2 h1 h2 h3 h4 g1 g2 g3 g4 : codepoint)
    (r : pystr) :
  hex4val h1 h2 h3 h4 = Some uni -> is_high_surrogate uni = true ->
  hex4val g1 g2 g3 g4 = Some uni2 -> is_low_surrogate uni2 = true ->
  scanstring (BACKSLASH :: ord "u" :: h1 :: h2 :: h3 :: h4
              :: BACKSLASH :: ord "u" :: g1 :: g2 :: g3 :: g4 :: r)
  = cons_char (join_surrogates uni uni2) (scanstring r).
Proof.
  intros H1 H2 H3 H4. cbn [scanstring]. literals. unfold QUOTE, BACKSLASH.
  cbn [N.eqb Pos.eqb andb]. rewrite H1, H2, H3, H4. reflexivity.
Qed.

(** One character is read back from its escape. *)
Lemma scanstring_escape_char (c : codepoint) (tail : pystr) :
  scalar_value c = true ->
  scanstring (escape_char c ++ tail) = cons_char c (scanstring tail).
Proof.
  intros Hc. unfold scalar_value, is_surrogate in Hc.
  apply andb_true_iff in Hc as [Hmax Hsur].
  apply N.ltb_lt in Hmax. apply negb_true_iff in Hsur.
  unfold escape_char.
  destruct (N.eqb_spec c QUOTE) as [->|N1]; [reflexivity |].
  destruct (N.eqb_spec c BACKSLASH) as [->|N2]; [reflexivity |].
  destruct (N.eqb_spec c 10) as [->|N3]; [reflexivity |].
  destruct (N.eqb_spec c 13) as [->|N4]; [reflexivity |].
  destruct (N.eqb_spec c 9) as [->|N5]; [reflexivity |].
  destruct (N.eqb_spec c 8) as [->|N6]; [reflexivity |].
  destruct (N.eqb_spec c 12) as [->|N7]; [reflexivity |].
  destruct ((32 <=? c)%N && (c <=? 126)%N) eqn:Hprint.
  { apply andb_true_iff in Hprint as [Hlo Hhi].
    apply N.leb_le in Hlo. apply scanstring_plain.
    - apply N.eqb_neq, N1.
    - apply N.eqb_neq, N2.
    - apply N.ltb_ge, Hlo. }
  destruct (N.ltb_spec c 0x10000) as [Hbmp|Hsup].
  - pose proof (hex4val_hex4 c Hbmp) as Hx. unfold u_escape.
    unfold hex4 in *. cbn [app]. apply scanstring_u; [exact Hx |].
    unfold is_high_surrogate.
    apply andb_false_iff in Hsur as [H|H]; [rewrite H; reflexivity |].
    apply N.leb_gt in H. apply andb_false_iff. right. apply N.leb_gt. lia.
  - set (n := (c - 0x10000)%N). cbv zeta.
    assert (Hn : (n < 0x100000)%N) by (unfold n; lia).
    rewrite (high_surrogate_of n Hn), (low_surrogate_of n).
    assert (H1 : (0xd800 + n / 1024 < 65536)%N).
    { assert (n / 1024 < 1024)%N
        by (apply N.Div0.div_lt_upper_bound; lia). lia. }
    assert (H2 : (0xdc00 + n mod 1024 < 65536)%N).
    { pose proof (N.mod_lt n 1024). lia. }
    assert (Hh : is_high_surrogate (0xd800 + n / 1024)%N = true).
    { unfold is_high_surrogate.
      assert (n / 1024 < 1024)%N
        by (apply N.Div0.div_lt_upper_bound; lia).
      set (q := (n / 1024)%N) in *. clearbody q.
      apply andb_true_iff. split; [apply N.leb_le | apply N.leb_le]; lia. }
    assert (Hl : is_low_surrogate (0xdc00 + n mod 1024)%N = true).
    { unfold is_low_surrogate.
      assert (n mod 1024 < 1024)%N by (apply N.mod_lt; discriminate).
      set (q := (n mod 1024)%N) in *. clearbody q.
      apply andb_true_iff. split; [apply N.leb_le | apply N.leb_le]; lia. }
    pose proof (hex4val_hex4 _ H1) as Hx1.
    pose proof (hex4val_hex4 _ H2) as Hx2.
    unfold u_escape, hex4 in *. cbv beta iota in Hx1, Hx2.
    etransitivity;
      [exact (scanstring_pair _ _ _ _ _ _ _ _ _ _ tail Hx1 Hh Hx2 Hl) |].
    rewrite join_surrogates_of. unfold n.
    replace (0x10000 + (c - 0x10000))%N with c by lia. reflexivity.
Qed.

(** A string of scalar values is read back from its JSON text. *)
Lemma scanstring_escaped (s : pystr) (rest : pystr) :
  is_text s = true ->
  scanstring (flat_map escape_char s ++ QUOTE :: rest) = Some (s, rest).
Proof.
  unfold is_text. induction s as [|c s IH]; intros Hs; [reflexivity |].
  simpl in Hs. apply andb_true_iff in Hs as [Hc Hs].
  cbn [flat_map]. rewrite <- app_assoc.
  rewrite scanstring_escape_char by exact Hc.
  rewrite IH by exact Hs. reflexivity.
Qed.

Lemma scanstring_basestring (s : pystr) (rest : pystr) :
  is_text s = true ->
  exists body,
    encode_basestring_ascii s ++ rest = QUOTE :: body
    /\ scanstring body = Some (s, rest).
Proof.
  intros Hs. exists (flat_map escape_char s ++ QUOTE :: rest). split.
  - unfold encode_basestring_ascii.
    change ((?a :: ?x) ++ ?y) with (a :: (x ++ y)).
    rewrite <- app_assoc. reflexivity.
  - apply scanstring_escaped, Hs.
Qed.

(** *** Values *)

(** Induction on values, with the elements of the containers. *)
Section ValueInduction.
Variable P : value -> Prop.
Hypothesis HNone : P PNone.
Hypothesis HBool : forall b, P (PBool b).
Hypothesis HInt : forall z, P (PInt z).
Hypothesis HFloat : forall f, P (PFloat f).
Hypothesis HStr : forall s, P (PStr s).
Hypothesis HList : forall l, Forall P l -> P (PList l).
Hypothesis HTuple : forall l, Forall P l -> P (PTuple l).
Hypothesis HDict : forall d, Forall (fun kv => P kv.2) d -> P (PDict d).
Hypothesis HObject : P PObject.

Fixpoint value_nested_ind (v : value) : P v :=
  match v with
  | PNone => HNone
  | PBool b => HBool b
  | PInt z => HInt z
  | PFloat f => HFloat f
  | PStr s => HStr s
  | PList l =>
      HList l ((fix go (l : list value) : Forall P l :=
                  match l with
                  | [] => @List.Forall_nil _ _
                  | x :: r => @List.Forall_cons _ P x r (value_nested_ind x) (go r)
                  end) l)
  | PTuple l =>
      HTuple l ((fix go (l : list value) : Forall P l :=
                   match l with
                   | [] => @List.Forall_nil _ _
                   | x :: r => @List.Forall_cons _ P x r (value_nested_ind x) (go r)
                   end) l)
  | PDict d =>
      HDict d ((fix go (d : list (key * value))
                  : Forall (fun kv => P kv.2) d :=
                  match d with
                  | [] => @List.Forall_nil _ _
                  | kv :: r =>
                      @List.Forall_cons _ (fun kv => P kv.2) kv r
                        (match kv return P kv.2 with
                         | (k, x) => value_nested_ind x
                         end) (go r)
                  end) d)
  | PObject => HObject
  end.
End ValueInduction.

Lemma value_head_cons (c : codepoint) (r : pystr) :
  is_ws c = false -> (c =? 93)%N = false -> (c =? 125)%N = false ->
  value_head (c :: r).
Proof. intros. exists c, r. auto. Qed.

Lemma value_head_app (t rest : pystr) :
  value_head t -> value_head (t ++ rest).
Proof. intros (c & r & -> & H). exists c, (r ++ rest). auto. Qed.

Lemma value_head_length (t : pystr) : value_head t -> (1 <= length t)%nat.
Proof. intros (c & r & -> & _). simpl. lia. Qed.

Lemma value_head_basestring (s : pystr) :
  value_head (encode_basestring_ascii s).
Proof. apply value_head_cons; reflexivity. Qed.

Lemma value_head_uint (n : N) (rest : pystr) :
  value_head (uint_text (N.to_uint n) ++ rest).
Proof.
  destruct (to_uint_head n) as [E|(c & r & E & Hd & H0 & Hm)]; rewrite E.
  - apply value_head_cons; reflexivity.
  - apply value_head_cons; unfold is_digit, is_ws in *;
      apply andb_true_iff in Hd as [L U];
      apply N.leb_le in L; apply N.leb_le in U;
      compare_codepoints; reflexivity.
Qed.

Lemma value_head_signed (neg : bool) (n : N) (rest : pystr) :
  value_head (sign_text neg ++ uint_text (N.to_uint n) ++ rest).
Proof.
  destruct neg; [apply value_head_cons; reflexivity | apply value_head_uint].
Qed.

Lemma value_head_container (indent : nat) (open close : codepoint)
    (level : nat) (items : list pystr) :
  is_ws open = false -> (open =? 93)%N = false -> (open =? 125)%N = false ->
  value_head (container indent open close level items).
Proof.
  intros. unfold container. destruct items; apply value_head_cons; auto.
Qed.

Lemma iterencode_head (indent : nat) (v : value) (level : nat) (t : pystr) :
  iterencode indent level v = Return t -> value_head t.
Proof.
  destruct v as [|[]|z|[l|[]|]|s|l|l|d|]; simpl; intros E;
    try (injection E as <-); try discriminate E;
    try (apply value_head_cons; reflexivity).
  - unfold int_repr. rewrite <- (app_nil_r (uint_text _)).
    apply value_head_signed.
  - unfold float_repr. apply value_head_signed.
  - destruct (traverse _ l); [| discriminate E]. injection E as <-.
    apply value_head_container; reflexivity.
  - destruct (traverse _ l); [| discriminate E]. injection E as <-.
    apply value_head_container; reflexivity.
  - destruct (traverse _ d); [| discriminate E]. injection E as <-.
    apply value_head_container; reflexivity.
Qed.

(** Whitespace before a value is skipped up to the value. *)
Lemma skip_ws_head (t : pystr) : value_head t -> skip_ws t = t.
Proof. intros (c & r & -> & H & _). simpl. rewrite H. reflexivity. Qed.

Lemma skip_ws_newline_indent (indent level : nat) (t : pystr) :
  skip_ws (newline_indent indent level ++ t) = skip_ws t.
Proof.
  unfold newline_indent. simpl.
  induction (indent * level)%nat as [|k IH]; simpl; auto.
Qed.

Lemma traverse_cons {A B} (f : A -> result B) (x : A) (l : list A)
    (items : list B) :
  traverse f (x :: l) = Return items ->
  exists y ys, items = y :: ys /\ f x = Return y /\ traverse f l = Return ys.
Proof.
  simpl. unfold bind. destruct (f x) as [y|]; [| discriminate].
  destruct (traverse f l) as [ys|]; [| discriminate].
  intros E. injection E as <-. eauto.
Qed.

Lemma traverse_nil_inv {A B} (f : A -> result B) (l : list A) :
  traverse f l = Return [] -> l = [].
Proof.
  destruct l as [|x l]; [reflexivity |]. intros E.
  apply traverse_cons in E as (y & ys & E & _). discriminate E.
Qed.

(** The equations of the scanner. *)
Lemma scan_once_string (f : nat) (body : pystr) :
  scan_once (S f) (QUOTE :: body)
  = '(t, r') ← scanstring body; Some (PStr t, r').
Proof. reflexivity. Qed.

Lemma scan_once_array (f : nat) (r : pystr) :
  scan_once (S f) (ord "[" :: r)
  = match skip_ws r with
    | c' :: r' =>
        if (c' =? 93)%N then Some (PList [], r')
        else '(items, r'') ← array_items f (skip_ws r);
             Some (PList items, r'')
    | [] => None
    end.
Proof. reflexivity. Qed.

Lemma scan_once_object (f : nat) (r : pystr) :
  scan_once (S f) (ord "{" :: r)
  = match skip_ws r with
    | c' :: r' =>
        if (c' =? 125)%N then Some (PDict [], r')
        else '(pairs, r'') ← object_items f (skip_ws r);
             Some (PDict (str_keys (dict pairs)), r'')
    | [] => None
    end.
Proof. reflexivity. Qed.

Lemma array_items_eq (f : nat) (s : pystr) :
  array_items (S f) s
  = '(v, r) ← scan_once f s;
    match skip_ws r with
    | c :: r' =>
        if (c =? 93)%N then Some ([v], r')
        else if (c =? 44)%N then
          '(vs, r'') ← array_items f (skip_ws r'); Some (v :: vs, r'')
        else None
    | [] => None
    end.
Proof. reflexivity. Qed.

Lemma object_items_eq (f : nat) (r : pystr) :
  object_items (S f) (QUOTE :: r)
  = '(k, r1) ← scanstring r;
    match skip_ws r1 with
    | c :: r2 =>
        if (c =? 58)%N then
          '(v, r3) ← scan_once f (skip_ws r2);
          match skip_ws r3 with
          | c' :: r4 =>
              if (c' =? 125)%N then Some ([(k, v)], r4)
              else if (c' =? 44)%N then
                '(ps, r5) ← object_items f (skip_ws r4);
                Some ((k, v) :: ps, r5)
              else None
          | [] => None
          end
        else None
    | [] => None
    end.
Proof. reflexivity. Qed.

Lemma number_head_signed (neg : bool) (n : N) (rest : pystr) :
  number_head (sign_text neg ++ uint_text (N.to_uint n) ++ rest).
Proof.
  destruct neg; [exists 45%N; eexists; split; [reflexivity | auto] |].
  destruct (to_uint_head n) as [E|(c & r & E & Hd & _)]; rewrite E.
  - exists 48%N. eexists. split; [reflexivity | auto].
  - exists c. eexists. split; [reflexivity | auto].
Qed.

Lemma scan_once_number (f : nat) (t : pystr) (res : value * pystr) :
  number_head t -> match_number t = Some res ->
  scan_once (S f) t = Some res.
Proof.
  intros (c & r & -> & Hc) Hm.
  assert (H : scan_once (S f) (c :: r)
              = match match_number (c :: r) with
                | Some res => Some res
                | None => scan_constant (c :: r)
                end).
  { destruct Hc as [->|Hd]; [reflexivity |].
    unfold is_digit in Hd. apply andb_true_iff in Hd as [L U].
    apply N.leb_le in L. apply N.leb_le in U.
    cbn [scan_once]. unfold QUOTE. literals.
    unfold scan_literal. literals. cbn [strip_prefix].
    compare_codepoints. reflexivity. }
  rewrite H, Hm. reflexivity.
Qed.

Lemma join_cons_cons (sep t u : pystr) (items : list pystr) :
  join sep (t :: u :: items) = t ++ sep ++ join sep (u :: items).
Proof. reflexivity. Qed.

Lemma join_head (sep t : pystr) (items : list pystr) (Y : pystr) :
  value_head t -> value_head (join sep (t :: items) ++ Y).
Proof.
  intros H. destruct items as [|u items].
  - apply value_head_app, H.
  - rewrite join_cons_cons. apply value_head_app, value_head_app, H.
Qed.

(** [dict(pairs)] of pairs with distinct keys is the list of the pairs. *)
Lemma dict_setitem_fresh `{EqDecision K} {V} (k : K) (v : V)
    (d : list (K * V)) :
  k ∉ d.*1 -> dict_setitem k v d = d ++ [(k, v)].
Proof.
  induction d as [|[k' v'] d IH]; simpl; [reflexivity |].
  rewrite not_elem_of_cons. intros [Hne Hd].
  destruct (decide (k = k')); [contradiction |]. rewrite IH by exact Hd.
  reflexivity.
Qed.

Lemma dict_NoDup `{EqDecision K} {V} (pairs : list (K * V)) :
  NoDup (pairs.*1) -> dict pairs = pairs.
Proof.
  unfold dict. change pairs with ([] ++ pairs) at 1 3.
  generalize (@nil (K * V)) as acc.
  induction pairs as [|[k v] pairs IH]; intros acc Hnd.
  - rewrite app_nil_r. reflexivity.
  - simpl fold_left.
    rewrite fmap_app, fmap_cons in Hnd. simpl in Hnd.
    apply NoDup_app in Hnd as (Hacc & Hdisj & Hrest).
    rewrite dict_setitem_fresh.
    + replace (acc ++ (k, v) :: pairs) with ((acc ++ [(k, v)]) ++ pairs)
        by (rewrite <- app_assoc; reflexivity).
      apply IH. rewrite !fmap_app. simpl.
      apply NoDup_app. split; [| split].
      * apply NoDup_app. split; [exact Hacc | split].
        -- intros x Hx. rewrite list_elem_of_singleton. intros ->.
           apply (Hdisj k Hx). left.
        -- apply NoDup_singleton.
      * intros x Hx. apply elem_of_app in Hx as [Hx|Hx].
        -- intros Hin. apply (Hdisj x Hx). right. exact Hin.
        -- apply list_elem_of_singleton in Hx as ->.
           apply NoDup_cons in Hrest as [Hk _]. exact Hk.
      * apply NoDup_cons in Hrest as [_ Hr]. exact Hr.
    + intros Hin. apply (Hdisj k Hin). left.
Qed.

Lemma str_keys_named (d : list (key * value)) :
  forallb (fun kv => str_key kv.1) d = true -> str_keys (named d) = d.
Proof.
  induction d as [|[k v] d IH]; simpl; [reflexivity |].
  intros H. apply andb_true_iff in H as [Hk Hd].
  unfold str_keys, named in *. simpl. rewrite IH by exact Hd.
  destruct k; try discriminate Hk. reflexivity.
Qed.

Lemma named_NoDup (d : list (key * value)) :
  forallb (fun kv => str_key kv.1) d = true ->
  NoDup (d.*1) -> NoDup ((named d).*1).
Proof.
  intros Hk Hnd.
  replace ((named d).*1) with (key_name <$> d.*1)
    by (unfold named; rewrite <- !list_fmap_compose; reflexivity).
  induction d as [|[k v] d IH]; simpl in *; [constructor |].
  apply andb_true_iff in Hk as [Hk Hd].
  apply NoDup_cons in Hnd as [Hnin Hnd].
  constructor; [| apply IH; assumption].
  intros Hin. apply Hnin.
  apply list_elem_of_fmap in Hin as (k' & E & Hin).
  assert (Hk' : str_key k' = true).
  { apply list_elem_of_fmap in Hin as ([k2 v2] & -> & Hin2).
    rewrite forallb_forall in Hd.
    apply (Hd (k2, v2)). apply list_elem_of_In. exact Hin2. }
  destruct k; try discriminate Hk. destruct k'; try discriminate Hk'.
  simpl in E. subst. exact Hin.
Qed.

Lemma follows_newline_indent (indent level : nat) (t : pystr) :
  follows_value (newline_indent indent level ++ t).
Proof. right. reflexivity. Qed.

Lemma option_bind_Some {A B} (a : A) (k : A -> option B) :
  Some a ≫= k = k a.
Proof. reflexivity. Qed.

Section ReadBack.
Variable indent : nat.

Local Abbreviation reads_back := (Json.reads_back indent).
Local Abbreviation separator := (Json.separator indent).
Local Abbreviation encode_item := (Json.encode_item indent).

Lemma array_items_reads_back (level : nat) (l : list value) :
  Forall reads_back l ->
  forallb json_representable l = true ->
  forall items fuel rest,
    l <> [] ->
    traverse (iterencode indent (S level)) l = Return items ->
    (length (join (separator level) items) < fuel)%nat ->
    array_items fuel
      (join (separator level) items
       ++ newline_indent indent level ++ ord "]" :: rest)
    = Some (l, rest).
Proof.
  induction l as [|x l IH]; intros HP Hrep items fuel rest Hne Htr Hfuel;
    [contradiction |].
  apply traverse_cons in Htr as (t & ts & -> & Ht & Hts).
  apply Forall_cons in HP as [Hx HP].
  simpl in Hrep. apply andb_true_iff in Hrep as [Hxrep Hrep].
  destruct fuel as [|f]; [lia |]. rewrite array_items_eq.
  pose proof (iterencode_head _ _ _ _ Ht) as Hhead.
  pose proof (value_head_length _ Hhead) as Hlen.
  destruct l as [|y l'].
  - simpl in Hts. injection Hts as <-. cbn [join] in *.
    rewrite (Hx (S level) t f _ Hxrep Ht);
      [| lia | apply follows_newline_indent].
    rewrite option_bind_Some. cbv beta iota.
    rewrite skip_ws_newline_indent. reflexivity.
  - pose proof Hts as Hts'.
    apply traverse_cons in Hts' as (u & us & -> & Hu & _).
    rewrite join_cons_cons in *. rewrite <- !app_assoc.
    rewrite length_app in Hfuel.
    rewrite (Hx (S level) t f _ Hxrep Ht); [| lia | left; reflexivity].
    rewrite option_bind_Some. cbv beta iota.
    unfold Json.separator at 1.
    change ((ord "," :: ?a) ++ ?b) with (ord "," :: a ++ b).
    change (skip_ws (ord "," :: ?a)) with (ord "," :: a).
    cbv beta iota. literals.
    replace (44 =? 93)%N with false by reflexivity.
    replace (44 =? 44)%N with true by reflexivity.
    rewrite skip_ws_newline_indent.
    rewrite skip_ws_head
      by (apply join_head, (iterencode_head _ _ _ _ Hu)).
    rewrite (IH HP Hrep (u :: us) f rest); [reflexivity | discriminate | exact Hts |].
    rewrite length_app in Hfuel.
    assert (1 <= length (separator level))%nat by (simpl; lia). lia.
Qed.

Lemma encode_item_inv (level : nat) (k : key) (x : value) (t : pystr) :
  str_key k = true -> encode_item level (k, x) = Return t ->
  exists vt, k = KStr (key_name k)
             /\ iterencode indent (S level) x = Return vt
             /\ t = item_text (key_name k) vt.
Proof.
  intros Hk. destruct k; try discriminate Hk.
  unfold Json.encode_item. simpl. unfold bind.
  destruct (iterencode indent (S level) x) as [vt|]; [| discriminate].
  intros E. injection E as <-. eauto.
Qed.

Lemma item_text_head (k v : pystr) : value_head (item_text k v).
Proof. apply value_head_app, value_head_basestring. Qed.

Lemma object_items_reads_back (level : nat) (d : list (key * value)) :
  Forall (fun kv => reads_back kv.2) d ->
  forallb (fun kv => str_key kv.1 && json_representable kv.2) d = true ->
  forall items fuel rest,
    d <> [] ->
    traverse (encode_item level) d = Return items ->
    (length (join (separator level) items) < fuel)%nat ->
    object_items fuel
      (join (separator level) items
       ++ newline_indent indent level ++ ord "}" :: rest)
    = Some (named d, rest).
Proof.
  induction d as [|[k x] d IH];
    intros HP Hrep items fuel rest Hne Htr Hfuel; [contradiction |].
  apply traverse_cons in Htr as (t & ts & -> & Ht & Hts).
  apply Forall_cons in HP as [Hx HP]. simpl in Hx.
  simpl in Hrep. apply andb_true_iff in Hrep as [Hkx Hrep].
  apply andb_true_iff in Hkx as [Hk Hxrep].
  apply (encode_item_inv _ _ _ _ Hk) in Ht as (vt & Ek & Hvt & ->).
  assert (Hks : is_text (key_name k) = true)
    by (destruct k; try discriminate Hk; exact Hk).
  set (ks := key_name k) in *.
  destruct fuel as [|f]; [lia |].
  pose proof (iterencode_head _ _ _ _ Hvt) as Hhead.
  assert (Hitem : (length vt + 2 <= length (item_text ks vt))%nat).
  { unfold item_text. rewrite !length_app. simpl. lia. }
  assert (Hread : forall Y, follows_value Y ->
            (length (item_text ks vt) <= f)%nat ->
            object_items (S f) (item_text ks vt ++ Y)
            = match skip_ws Y with
              | c' :: r4 =>
                  if (c' =? 125)%N then Some ([(ks, x)], r4)
                  else if (c' =? 44)%N then
                    '(ps, r5) ← object_items f (skip_ws r4);
                    Some ((ks, x) :: ps, r5)
                  else None
              | [] => None
              end).
  { intros Y HY HlenY. unfold item_text. rewrite <- !app_assoc.
    destruct (scanstring_basestring ks (str ": " ++ vt ++ Y) Hks)
      as (body & -> & Hscan).
    rewrite object_items_eq, Hscan, option_bind_Some. cbv beta iota.
    literals.
    change ([58%N; 32%N] ++ ?a) with (58%N :: 32%N :: a).
    change (skip_ws (58%N :: ?a)) with (58%N :: a). cbv beta iota.
    replace (58 =? 58)%N with true by reflexivity.
    change (skip_ws (32%N :: ?a)) with (skip_ws a).
    rewrite skip_ws_head by (apply value_head_app, Hhead).
    rewrite (Hx (S level) vt f Y Hxrep Hvt); [| lia | exact HY].
    rewrite option_bind_Some. reflexivity. }
  change (named ((k, x) :: d)) with ((ks, x) :: named d).
  destruct d as [|kv d'].
  - simpl in Hts. injection Hts as <-. cbn [join] in *.
    rewrite Hread; [| apply follows_newline_indent | lia].
    rewrite skip_ws_newline_indent. reflexivity.
  - pose proof Hts as Hts'.
    apply traverse_cons in Hts' as (u & us & -> & Hu & _).
    assert (Huh : value_head u).
    { destruct kv as [k' x']. simpl in Hrep.
      apply andb_true_iff in Hrep as [Hkx' _].
      apply andb_true_iff in Hkx' as [Hk' _].
      apply (encode_item_inv _ _ _ _ Hk') in Hu as (vt' & _ & _ & ->).
      apply item_text_head. }
    rewrite join_cons_cons in *. rewrite <- !app_assoc.
    rewrite length_app in Hfuel.
    rewrite Hread; [| left; reflexivity | lia].
    unfold Json.separator at 1.
    change ((ord "," :: ?a) ++ ?b) with (ord "," :: a ++ b).
    change (skip_ws (ord "," :: ?a)) with (ord "," :: a).
    cbv beta iota. literals.
    replace (44 =? 125)%N with false by reflexivity.
    replace (44 =? 44)%N with true by reflexivity.
    rewrite skip_ws_newline_indent.
    rewrite skip_ws_head by (apply join_head, Huh).
    rewrite (IH HP Hrep (u :: us) f rest);
      [reflexivity | discriminate | exact Hts |].
    rewrite length_app in Hfuel.
    assert (1 <= length (separator level))%nat by (simpl; lia). lia.
Qed.

Lemma container_app (open close : codepoint) (level : nat)
    (items : list pystr) (rest : pystr) :
  items <> [] ->
  container indent open close level items ++ rest
  = open :: newline_indent indent (S level)
         ++ join (separator level) items
         ++ newline_indent indent level ++ close :: rest.
Proof.
  intros Hne. unfold container. destruct items as [|t ts]; [contradiction |].
  change ((open :: ?a) ++ rest) with (open :: a ++ rest).
  rewrite <- !app_assoc. reflexivity.
Qed.

Lemma container_length (open close : codepoint) (level : nat)
    (items : list pystr) :
  items <> [] ->
  (length (join (separator level) items) + 4
   <= length (container indent open close level items))%nat.
Proof.
  intros Hne. unfold container. destruct items as [|t ts]; [contradiction |].
  assert (N1 : forall lv, (1 <= length (newline_indent indent lv))%nat)
    by (intros; simpl; lia).
  pose proof (N1 level). pose proof (N1 (S level)).
  set (J := join (separator level) (t :: ts)).
  change (ord "," :: newline_indent indent (S level))
    with (separator level).
  fold J. change (length (open :: ?a)) with (S (length a)).
  rewrite !length_app.
  change (length [close]) with 1%nat. lia.
Qed.

(** Every value of JSON's data model is read back from its text. *)
Lemma iterencode_reads_back (v : value) : reads_back v.
Proof.
  induction v as [|b|z|fl|s|l IH|l IH|d IH|] using value_nested_ind;
    intros level t fuel rest Hrep Henc Hfuel Hrest;
    pose proof (value_head_length _ (iterencode_head _ _ _ _ Henc)) as Hlen;
    (destruct fuel as [|f]; [lia |]).
  - injection Henc as <-. reflexivity.
  - destruct b; injection Henc as <-; reflexivity.
  - injection Henc as <-. apply scan_once_number.
    + unfold int_repr. rewrite <- app_assoc. apply number_head_signed.
    + apply match_number_int_repr, Hrest.
  - destruct fl as [lit| |]; try discriminate Hrep.
    injection Henc as <-. apply scan_once_number.
    + unfold floatstr, float_repr. rewrite <- !app_assoc.
      apply number_head_signed.
    + apply match_number_float_repr; assumption.
  - injection Henc as <-.
    destruct (scanstring_basestring s rest Hrep) as (body & -> & Hscan).
    rewrite scan_once_string, Hscan. reflexivity.
  - cbn [iterencode] in Henc. unfold bind in Henc.
    destruct (traverse (iterencode indent (S level)) l) as [items|] eqn:Htr;
      [| discriminate Henc].
    injection Henc as <-. cbn [json_representable] in Hrep.
    destruct l as [|x l'].
    { simpl in Htr. injection Htr as <-. reflexivity. }
    pose proof Htr as Htr'.
    apply traverse_cons in Htr' as (u & us & -> & Hu & _).
    rewrite container_app by discriminate.
    rewrite scan_once_array, skip_ws_newline_indent.
    pose proof (join_head (separator level) u us
                  (newline_indent indent level ++ ord "]" :: rest)
                  (iterencode_head _ _ _ _ Hu)) as Hhead.
    rewrite skip_ws_head by exact Hhead.
    rewrite (array_items_reads_back level (x :: l') IH Hrep (u :: us) f rest);
      [| discriminate | exact Htr |].
    + destruct Hhead as (c & r & -> & _ & H93 & _). rewrite H93.
      reflexivity.
    + pose proof (container_length (ord "[") (ord "]") level (u :: us)
                    ltac:(discriminate)).
      lia.
  - discriminate Hrep.
  - cbn [iterencode] in Henc. unfold bind in Henc.
    change (traverse _ d) with (traverse (encode_item level) d) in Henc.
    destruct (traverse (encode_item level) d) as [items|] eqn:Htr;
      [| discriminate Henc].
    injection Henc as <-. cbn [json_representable] in Hrep.
    apply andb_true_iff in Hrep as [Hnd Hrep].
    apply bool_decide_eq_true in Hnd.
    destruct d as [|kv d'].
    { simpl in Htr. injection Htr as <-. reflexivity. }
    pose proof Htr as Htr'.
    apply traverse_cons in Htr' as (u & us & -> & Hu & _).
    assert (Huh : value_head u).
    { destruct kv as [k' x']. simpl in Hrep.
      apply andb_true_iff in Hrep as [Hkx' _].
      apply andb_true_iff in Hkx' as [Hk' _].
      apply (encode_item_inv _ _ _ _ Hk') in Hu as (vt' & _ & _ & ->).
      apply item_text_head. }
    rewrite container_app by discriminate.
    rewrite scan_once_object, skip_ws_newline_indent.
    pose proof (join_head (separator level) u us
                  (newline_indent indent level ++ ord "}" :: rest)
                  Huh) as Hhead.
    rewrite skip_ws_head by exact Hhead.
    rewrite (object_items_reads_back level (kv :: d') IH Hrep
               (u :: us) f rest);
      [| discriminate | exact Htr |].
    + destruct Hhead as (c & r & -> & _ & _ & H125). rewrite H125.
      rewrite option_bind_Some. cbv beta iota.
      assert (Hkeys : forallb (fun kv => str_key kv.1) (kv :: d') = true).
      { apply forallb_forall. intros kv' Hin.
        rewrite forallb_forall in Hrep. specialize (Hrep kv' Hin).
        apply andb_true_iff in Hrep as [Hk _]. exact Hk. }
      rewrite dict_NoDup by (apply named_NoDup; assumption).
      rewrite str_keys_named by exact Hkeys. reflexivity.
    + pose proof (container_length (ord "{") (ord "}") level (u :: us)
                    ltac:(discriminate)).
      lia.
  - discriminate Hrep.
Qed.

(** [dumps] accepts every value of JSON's data model. *)
Lemma traverse_total {A B} (f : A -> result B) (l : list A) :
  Forall (fun x => exists y, f x = Return y) l ->
  exists ys, traverse f l = Return ys.
Proof.
  induction 1 as [|x l [y Hy] _ [ys Hys]]; simpl.
  - eauto.
  - rewrite Hy, Hys. simpl. eauto.
Qed.

Lemma iterencode_total (v : value) :
  forall level, json_representable v = true ->
  exists t, iterencode indent level v = Return t.
Proof.
  induction v as [|b|z|fl|s|l IH|l IH|d IH|] using value_nested_ind;
    intros level Hrep; try discriminate Hrep;
    try (destruct b); try (simpl; eauto; fail).
  - cbn [json_representable] in Hrep. cbn [iterencode].
    destruct (traverse_total (iterencode indent (S level)) l) as [ys ->].
    + rewrite Forall_forall in IH. apply Forall_forall. intros x Hx.
      apply IH; [exact Hx |].
      rewrite forallb_forall in Hrep. apply Hrep, list_elem_of_In, Hx.
    + simpl. eauto.
  - cbn [json_representable] in Hrep. cbn [iterencode].
    apply andb_true_iff in Hrep as [_ Hrep].
    destruct (traverse_total (encode_item level) d) as [ys Hys].
    + rewrite Forall_forall in IH. apply Forall_forall. intros [k x] Hx.
      rewrite forallb_forall in Hrep.
      specialize (Hrep (k, x) (proj1 (list_elem_of_In _ _) Hx)).
      apply andb_true_iff in Hrep as [Hk Hxrep].
      destruct (IH (k, x) Hx (S level) Hxrep) as [vt Hvt].
      destruct k; try discriminate Hk.
      unfold Json.encode_item. simpl in *. rewrite Hvt. simpl. eauto.
    + change (traverse _ d) with (traverse (encode_item level) d).
      rewrite Hys. simpl. eauto.
Qed.

Lemma plain_text_literal (t : pystr) : forallb plain t = true -> plain_text t.
Proof.
  intros H. apply Forall_forall. intros c Hc.
  rewrite forallb_forall in H. apply H, list_elem_of_In, Hc.
Qed.

Lemma plain_hexdigit (d : N) : (d < 16)%N -> plain (hexdigit d) = true.
Proof.
  intros Hd. unfold plain, hexdigit, in_range.
  compare_codepoints; reflexivity.
Qed.

Lemma plain_u_escape (n : N) : plain_text (u_escape n).
Proof.
  unfold u_escape, hex4.
  repeat (apply List.Forall_cons;
          [first [reflexivity
                 | apply plain_hexdigit, N.mod_lt; discriminate] |]).
  constructor.
Qed.

Lemma plain_escape_char (c : codepoint) : plain_text (escape_char c).
Proof.
  unfold escape_char.
  repeat match goal with
    | |- context [(c =? ?k)%N] =>
        destruct (N.eqb_spec c k);
        [apply plain_text_literal; reflexivity |]
    end.
  destruct ((32 <=? c)%N && (c <=? 126)%N) eqn:Hp.
  - apply List.Forall_cons; [| constructor].
    unfold plain, in_range. rewrite Hp. apply orb_true_r.
  - destruct (c <? 0x10000)%N; [apply plain_u_escape |].
    cbv zeta. apply Forall_app. split; apply plain_u_escape.
Qed.

Lemma plain_basestring (s : pystr) : plain_text (encode_basestring_ascii s).
Proof.
  unfold encode_basestring_ascii. apply List.Forall_cons; [reflexivity |].
  apply Forall_app. split; [| apply plain_text_literal; reflexivity].
  induction s as [|c s IH]; simpl; [constructor |].
  apply Forall_app. split; [apply plain_escape_char | exact IH].
Qed.

Lemma plain_uint_text (u : Decimal.uint) : plain_text (uint_text u).
Proof.
  induction u; simpl; try constructor; try reflexivity; assumption.
Qed.

Lemma plain_sign_text (neg : bool) : plain_text (sign_text neg).
Proof. destruct neg; apply plain_text_literal; reflexivity. Qed.

Lemma plain_int_repr (z : Z) : plain_text (int_repr z).
Proof.
  unfold int_repr. apply Forall_app.
  split; [apply plain_sign_text | apply plain_uint_text].
Qed.

Lemma plain_floatstr (f : jfloat) : plain_text (floatstr f).
Proof.
  destruct f as [[neg n frac ex]|[]|];
    try (apply plain_text_literal; reflexivity).
  unfold floatstr, float_repr. cbn [fl_neg fl_int fl_frac fl_exp].
  repeat (apply Forall_app; split);
    try apply plain_sign_text; try apply plain_uint_text.
  - unfold frac_text.
    destruct frac; [constructor | ..];
      (apply List.Forall_cons; [reflexivity | apply plain_uint_text]).
  - destruct ex as [[sg d]|]; unfold exp_text; [| constructor].
    apply List.Forall_cons; [reflexivity |].
    apply Forall_app. split; [| apply plain_uint_text].
    destruct sg; apply plain_text_literal; reflexivity.
Qed.

Lemma plain_key_text (k : key) (t : pystr) :
  key_text k = Return t -> plain_text (encode_basestring_ascii t).
Proof. intros _. apply plain_basestring. Qed.

Lemma plain_newline_indent (level : nat) :
  plain_text (newline_indent indent level).
Proof.
  unfold newline_indent. apply List.Forall_cons; [reflexivity |].
  induction (indent * level)%nat; simpl; constructor; auto.
Qed.

Lemma plain_join (sep : pystr) (items : list pystr) :
  plain_text sep -> Forall plain_text items -> plain_text (join sep items).
Proof.
  intros Hsep. induction 1 as [|t ts Ht Hts IH]; [constructor |].
  destruct ts as [|u us]; [exact Ht |].
  rewrite join_cons_cons. repeat (apply Forall_app; split); assumption.
Qed.

Lemma plain_container (open close : codepoint) (level : nat)
    (items : list pystr) :
  plain open = true -> plain close = true -> Forall plain_text items ->
  plain_text (container indent open close level items).
Proof.
  intros Ho Hc Hitems. unfold container.
  destruct items as [|t ts]; [repeat constructor; assumption |].
  apply List.Forall_cons; [exact Ho |].
  repeat (apply Forall_app; split); try apply plain_newline_indent.
  - apply plain_join; [| exact Hitems].
    apply List.Forall_cons; [reflexivity | apply plain_newline_indent].
  - repeat constructor. exact Hc.
Qed.

Lemma traverse_Forall {A B} (f : A -> result B) (Q : B -> Prop)
    (l : list A) (ys : list B) :
  Forall (fun x => forall y, f x = Return y -> Q y) l ->
  traverse f l = Return ys -> Forall Q ys.
Proof.
  intros H. revert ys. induction H as [|x l Hx _ IH]; intros ys E.
  - simpl in E. injection E as <-. constructor.
  - apply traverse_cons in E as (y & ys' & -> & Hy & Hys).
    constructor; [apply Hx, Hy | apply IH, Hys].
Qed.

Lemma iterencode_plain (v : value) :
  forall level t, iterencode indent level v = Return t -> plain_text t.
Proof.
  induction v as [|b|z|fl|s|l IH|l IH|d IH|] using value_nested_ind;
    intros level t E; try discriminate E.
  - injection E as <-. apply plain_text_literal. reflexivity.
  - destruct b; injection E as <-; apply plain_text_literal; reflexivity.
  - injection E as <-. apply plain_int_repr.
  - injection E as <-. apply plain_floatstr.
  - injection E as <-. apply plain_basestring.
  - cbn [iterencode] in E. unfold bind in E.
    destruct (traverse _ l) as [items|] eqn:Htr; [| discriminate E].
    injection E as <-. apply plain_container; try reflexivity.
    apply (traverse_Forall _ _ _ _ (Forall_impl _ _ _ IH (fun x H => H (S level))) Htr).
  - cbn [iterencode] in E. unfold bind in E.
    destruct (traverse _ l) as [items|] eqn:Htr; [| discriminate E].
    injection E as <-. apply plain_container; try reflexivity.
    apply (traverse_Forall _ _ _ _ (Forall_impl _ _ _ IH (fun x H => H (S level))) Htr).
  - cbn [iterencode] in E. unfold bind in E.
    destruct (traverse _ d) as [items|] eqn:Htr; [| discriminate E].
    injection E as <-. apply plain_container; try reflexivity.
    refine (traverse_Forall _ _ _ _ _ Htr).
    apply (Forall_impl _ _ _ IH). intros [k x] Hx y Hy. simpl in *.
    unfold bind in Hy.
    destruct (key_text k) as [kt|]; [| discriminate Hy].
    destruct (iterencode indent (S level) x) as [vt|] eqn:Hvt;
      [| discriminate Hy].
    injection Hy as <-. unfold item_text.
    repeat (apply Forall_app; split).
    + apply plain_basestring.
    + apply plain_text_literal. reflexivity.
    + apply (Hx _ _ Hvt).
Qed.

End ReadBack.

(** *** dumps, then loads *)

Lemma plain_not_bom (c : codepoint) : plain c = true -> (c =? 0xfeff)%N = false.
Proof.
  unfold plain, in_range. intros H. apply N.eqb_neq. intros ->.
  discriminate H.
Qed.

Lemma loads_dumps (v : value) (indent : nat) (t : pystr) :
  json_representable v = true ->
  dumps v indent = Return t ->
  loads t = Return v.
Proof.
  intros Hrep Henc. unfold dumps in Henc. unfold loads.
  pose proof (iterencode_head _ _ _ _ Henc) as Hhead.
  pose proof (iterencode_plain _ _ _ _ Henc) as Hplain.
  assert (Hbom : startswith_bom t = false).
  { destruct Hhead as (c & r & -> & _). apply Forall_cons in Hplain as [Hc _].
    apply plain_not_bom, Hc. }
  rewrite Hbom, skip_ws_head by exact Hhead.
  rewrite <- (app_nil_r t) at 2.
  rewrite (iterencode_reads_back indent v 0%nat t (S (length t)) [] Hrep Henc);
    [reflexivity | lia | exact I].
Qed.

(** *** Files *)

Lemma to_N_byte_of_N (c : N) : (c < 256)%N -> Byte.to_N (byte_of_N c) = c.
Proof.
  intros Hc. unfold byte_of_N. destruct (Byte.of_N c) as [b|] eqn:E.
  - apply Byte.to_of_N, E.
  - apply Byte.of_N_None_iff in E. lia.
Qed.

Lemma utf8_encode_ascii (t : pystr) :
  ascii_text t -> utf8_encode t = Some (byte_of_N <$> t).
Proof.
  induction 1 as [|c t Hc _ IH]; [reflexivity |].
  cbn [utf8_encode]. unfold utf8_encode_char.
  replace (c <? 128)%N with true by (symmetry; apply N.ltb_lt, Hc).
  rewrite IH. reflexivity.
Qed.

Lemma utf8_decode_ascii (t : pystr) :
  ascii_text t -> utf8_decode (byte_of_N <$> t) = Some t.
Proof.
  induction 1 as [|c t Hc _ IH]; [reflexivity |].
  rewrite fmap_cons. cbn [utf8_decode]. cbv zeta.
  rewrite to_N_byte_of_N by lia.
  replace (c <? 128)%N with true by (symmetry; apply N.ltb_lt, Hc).
  rewrite IH. reflexivity.
Qed.

Lemma plain_ascii (c : codepoint) : plain c = true -> (c < 128)%N.
Proof.
  unfold plain, in_range. intros H. apply orb_true_iff in H as [H|H].
  - apply N.eqb_eq in H. lia.
  - apply andb_true_iff in H as [_ H]. apply N.leb_le in H. lia.
Qed.

Lemma plain_not_cr (c : codepoint) : plain c = true -> (c =? 13)%N = false.
Proof.
  unfold plain, in_range. intros H. apply N.eqb_neq. intros ->.
  discriminate H.
Qed.

Lemma translate_out_ascii (w : bool) (t : pystr) :
  plain_text t -> ascii_text (translate_out w t).
Proof.
  intros H. unfold translate_out. destruct w.
  - induction H as [|c t Hc _ IH]; simpl; [constructor |].
    destruct (c =? 10)%N; simpl; repeat constructor;
      try exact IH; try lia. apply plain_ascii, Hc.
  - apply (Forall_impl _ _ _ H). intros c. apply plain_ascii.
Qed.

(** What is written is read: the line feeds come back as they were. *)
Lemma universal_newlines_translate_out (w : bool) (t : pystr) :
  plain_text t -> universal_newlines (translate_out w t) = t.
Proof.
  intros H. unfold translate_out. destruct w.
  - induction H as [|c t Hc _ IH]; [reflexivity |].
    cbn [flat_map]. destruct (N.eqb_spec c 10) as [->|Hn].
    + simpl. rewrite IH. reflexivity.
    + simpl. rewrite (plain_not_cr c Hc), IH. reflexivity.
  - induction H as [|c t Hc _ IH]; [reflexivity |].
    simpl. rewrite (plain_not_cr c Hc), IH. reflexivity.
Qed.

Lemma with_file_with_file (fs : filesystem) (p : path) (a b : list byte) :
  with_file (with_file fs p a) p b = with_file fs p b.
Proof. unfold with_file. simpl. rewrite insert_insert_eq. reflexivity. Qed.

Lemma write_text_written (fs : filesystem) (p : path) (data : pystr)
    (bs : list byte) :
  p ∉ dirs fs -> parent p ∈ dirs fs ->
  utf8_encode (translate_out (crlf fs) data) = Some bs ->
  write_text p data fs = (Return (length data), with_file fs p bs).
Proof.
  intros Hp Hparent Henc. unfold write_text, io_bind, open_w.
  destruct (decide (p ∈ dirs fs)); [contradiction |].
  destruct (decide (parent p ∈ dirs fs)); [| contradiction].
  simpl. rewrite Henc, with_file_with_file. reflexivity.
Qed.

Lemma write_text_refused (fs : filesystem) (p : path) (data : pystr) :
  (p ∈ dirs fs -> write_text p data fs = (Raise IsADirectoryError, fs))
  /\ (p ∉ dirs fs -> parent p ∉ dirs fs ->
      write_text p data fs = (Raise (missing fs p), fs)).
Proof.
  unfold write_text, io_bind, open_w. split.
  - intros Hp. destruct (decide (p ∈ dirs fs)); [reflexivity | contradiction].
  - intros Hp Hparent. destruct (decide (p ∈ dirs fs)); [contradiction |].
    destruct (decide (parent p ∈ dirs fs)); [contradiction | reflexivity].
Qed.

Lemma write_text_dirs (fs : filesystem) (p : path) (data : pystr) :
  dirs (write_text p data fs).2 = dirs fs.
Proof.
  unfold write_text, io_bind, open_w.
  destruct (decide (p ∈ dirs fs)); [reflexivity |].
  destruct (decide (parent p ∈ dirs fs)); [| reflexivity].
  simpl. destruct (utf8_encode _); reflexivity.
Qed.


Lemma write_json_written (fs : filesystem) (p : path) (v : value)
    (indent : nat) (text : pystr) :
  dumps v indent = Return text ->
  p ∉ dirs fs -> parent p ∈ dirs fs ->
  write_json p v indent fs
  = (Return tt, with_file fs p (byte_of_N <$> translate_out (crlf fs) text)).
Proof.
  intros Hd Hp Hparent. unfold write_json, io_bind, io_lift. rewrite Hd.
  rewrite (write_text_written fs p text
             (byte_of_N <$> translate_out (crlf fs) text) Hp Hparent);
    [reflexivity |].
  apply utf8_encode_ascii, translate_out_ascii.
  exact (iterencode_plain _ _ _ _ Hd).
Qed.




(** C3, as amended. [write_json] serializes its argument to indented JSON
    text and writes it, UTF-8 encoded, at the given path when the path is
    not a directory and its parent directory exists.  It never creates a
    directory: when the parent directory does not exist it raises and
    leaves the file system as it was. *)
Theorem write_json_spec (fs : filesystem) (p : path) (v : value)
    (indent : nat) (text : pystr) :
  dumps v indent = Return text ->
  let bytes := byte_of_N <$> translate_out (crlf fs) text in
  utf8_encode (translate_out (crlf fs) text) = Some bytes
  /\ (p ∉ dirs fs -> parent p ∈ dirs fs ->
      write_json p v indent fs = (Return tt, with_file fs p bytes))
  /\ (p ∉ dirs fs -> parent p ∉ dirs fs ->
      write_json p v indent fs = (Raise (missing fs p), fs))
  /\ (p ∈ dirs fs ->
      write_json p v indent fs = (Raise IsADirectoryError, fs))
  /\ dirs (write_json p v indent fs).2 = dirs fs
  /\ dumps (PDict [(KStr (str "a"), PList [PInt 1; PInt 2])]) DEFAULT_INDENT
     = Return (dq "{
  'a': [
    1,
    2
  ]
}").
Proof.
  intros Hd bytes.
  split; [apply utf8_encode_ascii, translate_out_ascii,
            (iterencode_plain _ _ _ _ Hd) |].
  split; [apply write_json_written, Hd |].
  destruct (write_text_refused fs p text) as [Hdir Hmiss].
  unfold write_json, io_bind, io_lift. rewrite Hd.
  split; [intros H1 H2; rewrite (Hmiss H1 H2); reflexivity |].
  split; [intros H1; rewrite (Hdir H1); reflexivity |].
  split; [| vm_compute; reflexivity].
  pose proof (write_text_dirs fs p text) as Hdirs.
  destruct (write_text p text fs) as [[n|e] fs']; exact Hdirs.
Qed.

Lemma write_json_spec_witness :
  write_json ["data"; "items.json"]%string (PList []) DEFAULT_INDENT demo_fs
  = (Return tt,
     with_file demo_fs ["data"; "items.json"]%string
       (byte_of_N <$> str "[]")).
Proof.
  destruct (write_json_spec demo_fs ["data"; "items.json"]%string (PList [])
              DEFAULT_INDENT (str "[]") eq_refl) as (_ & written & _).
  apply written; unfold demo_fs; simpl; set_solver.
Defined.

(** C3, counterexample: in a file system that has only its root
    directory, [write_json] to ["data/items.json"] creates no directory:
    it raises [FileNotFoundError] and changes nothing. *)
Lemma write_json_creates_no_directory :
  let fs := {| dirs := {[ [] ]}; files := ∅; crlf := false |} in
  let p := ["data"; "items.json"]%string in
  (parent p ∉ dirs fs)
  /\ write_json p (PList []) DEFAULT_INDENT fs = (Raise FileNotFoundError, fs).
Proof.
  intros fs p.
  assert (Hparent : parent p ∉ dirs fs) by (unfold fs, p; simpl; set_solver).
  assert (Hp : p ∉ dirs fs) by (unfold fs, p; simpl; set_solver).
  split; [exact Hparent |].
  destruct (write_text_refused fs p (str "[]")) as [_ Hmiss].
  unfold write_json, io_bind, io_lift. simpl dumps.
  change (dumps (PList []) DEFAULT_INDENT) with (Return (A := pystr) (str "[]")).
  cbv beta iota. rewrite (Hmiss Hp Hparent). reflexivity.
Qed.

(** *** What json.loads raises *)


(** *** normalize_emails *)

(** The order of [str] is a total order. *)
Lemma str_leb_refl (a : pystr) : str_leb a a = true.
Proof.
  induction a as [|x a IH]; [reflexivity |]. simpl.
  rewrite N.ltb_irrefl. exact IH.
Qed.

Lemma str_leb_total (a b : pystr) : str_leb a b = true \/ str_leb b a = true.
Proof.
  revert b. induction a as [|x a IH]; intros [|y b]; simpl; auto.
  destruct (N.ltb_spec x y), (N.ltb_spec y x); auto; lia.
Qed.

Lemma str_leb_antisym (a b : pystr) :
  str_leb a b = true -> str_leb b a = true -> a = b.
Proof.
  revert b. induction a as [|x a IH]; intros [|y b]; simpl;
    try discriminate; [reflexivity |].
  destruct (N.ltb_spec x y), (N.ltb_spec y x); try discriminate; try lia.
  intros H1 H2. f_equal; [lia | apply IH; assumption].
Qed.

Lemma str_leb_trans (a b c : pystr) :
  str_leb a b = true -> str_leb b c = true -> str_leb a c = true.
Proof.
  revert b c. induction a as [|x a IH]; intros [|y b] [|z c]; simpl;
    try discriminate; auto.
  destruct (N.ltb_spec x y), (N.ltb_spec y z), (N.ltb_spec x z),
    (N.ltb_spec y x), (N.ltb_spec z y), (N.ltb_spec z x);
    try discriminate; try lia; auto.
  apply IH.
Qed.

Global Instance str_le_total : Total str_le.
Proof. intros a b. apply str_leb_total. Qed.
Global Instance str_le_trans : Transitive str_le.
Proof. intros a b c. apply str_leb_trans. Qed.
Global Instance str_le_antisym : AntiSymm (=) str_le.
Proof. intros a b. apply str_leb_antisym. Qed.

Lemma sorted_Sorted (X : gset pystr) : Sorted str_le (sorted X).
Proof. apply Sorted_merge_sort. apply _. Qed.

Lemma sorted_elem_of (X : gset pystr) (s : pystr) : s ∈ sorted X <-> s ∈ X.
Proof.
  unfold sorted. rewrite merge_sort_Permutation. apply elem_of_elements.
Qed.

Lemma sorted_NoDup (X : gset pystr) : NoDup (sorted X).
Proof.
  unfold sorted. rewrite merge_sort_Permutation. apply NoDup_elements.
Qed.

(** A sorted list without duplicates is determined by its elements. *)
Lemma Sorted_NoDup_unique (l k : list pystr) :
  Sorted str_le l -> Sorted str_le k -> NoDup l -> NoDup k ->
  (forall s, s ∈ l <-> s ∈ k) -> l = k.
Proof.
  intros Hl Hk Nl Nk Hmem.
  apply (Sorted_unique str_le); auto. apply NoDup_Permutation; auto.
Qed.

Lemma Sorted_filter (P : pystr -> Prop) `{forall s, Decision (P s)}
    (l : list pystr) :
  Sorted str_le l -> Sorted str_le (filter P l).
Proof.
  intros Hl. apply Sorted_StronglySorted in Hl; [| apply _].
  apply StronglySorted_Sorted.
  induction Hl as [|x l Hl IH Hx]; [constructor |].
  rewrite filter_cons. destruct (decide (P x)); [| exact IH].
  constructor; [exact IH |].
  apply Forall_forall. intros y Hy. apply list_elem_of_filter in Hy as [_ Hy].
  rewrite Forall_forall in Hx. apply Hx, Hy.
Qed.

Section EmailsSpec.
Context `{CaseTable}.

Lemma lower_empty : lower [] = [].
Proof. rewrite lower_ascii; [reflexivity | constructor]. Qed.

Lemma elem_of_normalized (emails : list entry) (s : pystr) :
  s ∈ normalized emails
  <-> exists e, Text e ∈ emails /\ e <> [] /\ s = lower (strip e).
Proof.
  unfold normalized. rewrite elem_of_list_to_set.
  rewrite list_elem_of_In, in_flat_map. split.
  - intros ([e|b] & Hin & Hs).
    + simpl in Hs. destruct (decide (e = [])) as [->|Hne].
      * destruct Hs.
      * rewrite bool_decide_eq_false_2 in Hs by exact Hne. simpl in Hs.
        destruct Hs as [<-|[]]. exists e.
        rewrite list_elem_of_In. auto.
    + simpl in Hs. rewrite andb_false_r in Hs. destruct Hs.
  - intros (e & Hin & Hne & ->). exists (Text e).
    rewrite <- list_elem_of_In. split; [exact Hin |].
    simpl. rewrite bool_decide_eq_false_2 by exact Hne. left. reflexivity.
Qed.

Lemma elem_of_normalize_emails (emails : list entry) (s : pystr) :
  s ∈ normalize_emails emails
  <-> exists e, Text e ∈ emails /\ e <> [] /\ s = lower (strip e).
Proof.
  unfold normalize_emails. rewrite sorted_elem_of.
  apply elem_of_normalized.
Qed.

Lemma empty_elem_of_normalize_emails (emails : list entry) :
  [] ∈ normalize_emails emails
  <-> exists e, Text e ∈ emails /\ e <> [] /\ strip e = [].
Proof.
  rewrite elem_of_normalize_emails. split.
  - intros (e & Hin & Hne & E). exists e. repeat split; auto.
    apply lower_nil. symmetry. exact E.
  - intros (e & Hin & Hne & E). exists e. repeat split; auto.
    rewrite E. symmetry. apply lower_empty.
Qed.

(** An output string is left as it is by a second pass. *)
Lemma normalized_fixed (emails : list entry) (s : pystr) :
  s ∈ normalize_emails emails -> lower (strip s) = s.
Proof.
  intros Hs. apply elem_of_normalize_emails in Hs as (e & _ & _ & ->).
  rewrite lower_stripped. apply lower_lower.
Qed.

End EmailsSpec.

(** The case table of ASCII text satisfies what is asked of [str.lower]. *)
Lemma ascii_lower_char_idem (c : codepoint) :
  ascii_lower_char (ascii_lower_char c) = ascii_lower_char c.
Proof.
  unfold ascii_lower_char, in_range.
  destruct ((65 <=? c)%N && (c <=? 90)%N) eqn:E.
  - apply andb_true_iff in E as [L U].
    apply N.leb_le in L. apply N.leb_le in U.
    compare_codepoints; reflexivity.
  - rewrite E. reflexivity.
Qed.

Lemma isspace_ascii_lower_char (c : codepoint) :
  isspace (ascii_lower_char c) = isspace c.
Proof.
  unfold ascii_lower_char, in_range.
  destruct ((65 <=? c)%N && (c <=? 90)%N) eqn:E; [| reflexivity].
  apply andb_true_iff in E as [L U].
  apply N.leb_le in L. apply N.leb_le in U.
  unfold isspace, in_range. compare_codepoints; reflexivity.
Qed.

Section Strip.
Variable f : codepoint -> codepoint.
Hypothesis isspace_f : forall c, isspace (f c) = isspace c.

Lemma lstrip_map (s : pystr) : lstrip (map f s) = map f (lstrip s).
Proof.
  induction s as [|c s IH]; [reflexivity |]. simpl.
  rewrite isspace_f. destruct (isspace c); [exact IH | reflexivity].
Qed.

Lemma rstrip_map (s : pystr) : rstrip (map f s) = map f (rstrip s).
Proof.
  induction s as [|c s IH]; [reflexivity |]. simpl. rewrite IH.
  destruct (rstrip s); simpl; [| reflexivity].
  rewrite isspace_f. destruct (isspace c); reflexivity.
Qed.

Lemma strip_map (s : pystr) : strip (map f s) = map f (strip s).
Proof. unfold strip. rewrite lstrip_map, rstrip_map. reflexivity. Qed.
End Strip.

Lemma lstrip_head (s : pystr) :
  lstrip s = [] \/ exists c r, lstrip s = c :: r /\ isspace c = false.
Proof.
  induction s as [|c s IH]; [left; reflexivity |]. simpl.
  destruct (isspace c) eqn:E; [exact IH |]. right. eauto.
Qed.

Lemma rstrip_head (c : codepoint) (r : pystr) :
  isspace c = false -> exists r', rstrip (c :: r) = c :: r'.
Proof.
  intros E. simpl. rewrite E. destruct (rstrip r); eauto.
Qed.

Lemma lstrip_fixed (c : codepoint) (r : pystr) :
  isspace c = false -> lstrip (c :: r) = c :: r.
Proof. intros E. simpl. rewrite E. reflexivity. Qed.

Lemma rstrip_idem (s : pystr) : rstrip (rstrip s) = rstrip s.
Proof.
  induction s as [|c s IH]; [reflexivity |]. simpl.
  destruct (rstrip s) as [|d r'] eqn:E.
  - destruct (isspace c) eqn:Ec; [reflexivity |]. simpl. rewrite Ec.
    reflexivity.
  - change (rstrip (c :: d :: r'))
      with (match rstrip (d :: r') with
            | [] => if isspace c then [] else [c]
            | r'' => c :: r''
            end).
    rewrite IH. reflexivity.
Qed.

Lemma strip_idem (s : pystr) : strip (strip s) = strip s.
Proof.
  unfold strip. destruct (lstrip_head s) as [->|(c & r & -> & Hc)];
    [reflexivity |].
  destruct (rstrip_head c r Hc) as [r' E]. rewrite E.
  rewrite (lstrip_fixed c r' Hc), <- E. apply rstrip_idem.
Qed.

Global Program Instance ascii_case_table : CaseTable :=
  {| lower := map ascii_lower_char |}.
Next Obligation. reflexivity. Qed.
Next Obligation.
  intros s. rewrite map_map. apply map_ext. apply ascii_lower_char_idem.
Qed.
Next Obligation.
  intros s. rewrite (strip_map _ isspace_ascii_lower_char), strip_idem.
  reflexivity.
Qed.
Next Obligation. intros [|c s]; [reflexivity | discriminate]. Qed.

(** C6, as amended. [normalize_emails] returns, sorted and without
    duplicates, the stripped and lowercased strings of the entries that
    are text and not empty; the other entries are dropped.  An output
    string is empty exactly when some entry is a non-empty string of
    whitespace only. *)
Theorem normalize_emails_spec `{CaseTable} (emails : list entry) :
  let out := normalize_emails emails in
  Sorted str_le out
  /\ NoDup out
  /\ (forall s, s ∈ out
        <-> exists e, Text e ∈ emails /\ e <> [] /\ s = lower (strip e))
  /\ ([] ∈ out <-> exists e, Text e ∈ emails /\ e <> [] /\ strip e = []).
Proof.
  cbv zeta. split; [apply sorted_Sorted |]. split; [apply sorted_NoDup |].
  split; [apply elem_of_normalize_emails |].
  apply empty_elem_of_normalize_emails.
Qed.

Lemma normalize_emails_spec_witness :
  let emails := [Text (str "  CARA@example.com  "); NonText true; Text []] in
  str "cara@example.com" ∈ normalize_emails (H := ascii_case_table) emails.
Proof.
  intros emails.
  destruct (normalize_emails_spec (H := ascii_case_table) emails)
    as (_ & _ & members & _).
  apply members. exists (str "  CARA@example.com  ").
  split; [left | split; [discriminate | reflexivity]].
Defined.

(** C6, counterexample: an entry of three spaces is kept, as the empty
    string. *)
Lemma normalize_emails_keeps_blank :
  normalize_emails (H := ascii_case_table) [Text (str "   ")] = [[]].
Proof. vm_compute. reflexivity. Qed.

(** C7, as amended. A second pass of [normalize_emails] gives the result
    of the first without the empty string; so the two passes agree
    whenever no entry is a non-empty string of whitespace only.
    [[" A@X.com", "a@x.com"]] gives [["a@x.com"]]. *)
Theorem normalize_emails_twice `{CaseTable} (emails : list entry) :
  normalize_emails (Text <$> normalize_emails emails)
  = filter (fun s => s <> []) (normalize_emails emails)
  /\ ((forall e, Text e ∈ emails -> e <> [] -> strip e <> []) ->
      normalize_emails (Text <$> normalize_emails emails)
      = normalize_emails emails)
  /\ normalize_emails [Text (str " A@X.com"); Text (str "a@x.com")]
     = [str "a@x.com"].
Proof.
  assert (Hmem : forall s,
    s ∈ normalize_emails (Text <$> normalize_emails emails)
    <-> s ∈ normalize_emails emails /\ s <> []).
  { intros s. rewrite elem_of_normalize_emails. split.
    - intros (t & Hin & Hne & ->).
      apply list_elem_of_fmap in Hin as (t' & E & Hin). injection E as ->.
      rewrite (normalized_fixed emails t' Hin). auto.
    - intros [Hin Hne]. exists s. split; [| split; [exact Hne |]].
      + apply list_elem_of_fmap. eauto.
      + symmetry. apply (normalized_fixed emails s Hin). }
  assert (Hfilter :
    normalize_emails (Text <$> normalize_emails emails)
    = filter (fun s => s <> []) (normalize_emails emails)).
  { apply Sorted_NoDup_unique.
    - apply sorted_Sorted.
    - apply Sorted_filter, sorted_Sorted.
    - apply sorted_NoDup.
    - apply NoDup_filter, sorted_NoDup.
    - intros s. rewrite Hmem, list_elem_of_filter. tauto. }
  split; [exact Hfilter |]. split.
  - intros Hblank. rewrite Hfilter.
    apply Sorted_NoDup_unique.
    + apply Sorted_filter, sorted_Sorted.
    + apply sorted_Sorted.
    + apply NoDup_filter, sorted_NoDup.
    + apply sorted_NoDup.
    + intros s. rewrite list_elem_of_filter. split; [tauto |].
      intros Hs. split; [| exact Hs]. intros ->.
      apply empty_elem_of_normalize_emails in Hs as (e & Hin & Hne & E).
      exact (Hblank e Hin Hne E).
  - apply Sorted_NoDup_unique.
    + apply sorted_Sorted.
    + repeat constructor.
    + apply sorted_NoDup.
    + repeat constructor. apply not_elem_of_nil.
    + intros s. rewrite elem_of_normalize_emails, list_elem_of_singleton.
      assert (E1 : lower (strip (str " A@X.com")) = str "a@x.com").
      { rewrite lower_ascii; [reflexivity |].
        apply Forall_forall. intros c Hc. vm_compute in Hc.
        repeat (apply elem_of_cons in Hc as [->|Hc]; [reflexivity |]).
        destruct (not_elem_of_nil _ Hc). }
      assert (E2 : lower (strip (str "a@x.com")) = str "a@x.com").
      { rewrite lower_ascii; [reflexivity |].
        apply Forall_forall. intros c Hc. vm_compute in Hc.
        repeat (apply elem_of_cons in Hc as [->|Hc]; [reflexivity |]).
        destruct (not_elem_of_nil _ Hc). }
      split.
      * intros (e & Hin & _ & ->).
        apply elem_of_cons in Hin as [Hin|Hin]; [injection Hin as ->; exact E1 |].
        apply list_elem_of_singleton in Hin. injection Hin as ->. exact E2.
      * intros ->. exists (str "a@x.com"). split; [| split].
        -- right. left.
        -- discriminate.
        -- symmetry. exact E2.
Qed.

Lemma normalize_emails_twice_witness :
  let emails := [Text (str " A@X.com"); Text (str "a@x.com")] in
  normalize_emails (Text <$> normalize_emails emails)
  = normalize_emails emails.
Proof.
  intros emails.
  destruct (normalize_emails_twice (H := ascii_case_table) emails)
    as (_ & idem & _).
  apply idem. intros e Hin Hne.
  apply elem_of_cons in Hin as [Hin|Hin]; [injection Hin as ->; discriminate |].
  apply list_elem_of_singleton in Hin. injection Hin as ->. discriminate.
Defined.

(** C7, counterexample: for an entry of two spaces the first pass gives
    the empty string and the second pass drops it. *)
Lemma normalize_emails_not_idempotent :
  let emails := [Text (str "  ")] in
  normalize_emails (H := ascii_case_table) emails = [[]]
  /\ normalize_emails (H := ascii_case_table)
       (Text <$> normalize_emails (H := ascii_case_table) emails) = [].
Proof. split; vm_compute; reflexivity. Qed.

(** *** Outside JSON's data model *)

(** What [dumps] accepts beyond the representable values comes back
    changed: a tuple as a list, a key that is not a [str] as its text, two
    lone surrogates as one character. *)
Remark tuple_comes_back_a_list :
  (data <- dumps (PTuple [PInt 1; PInt 2]) DEFAULT_INDENT ;; loads data)
  = Return (PList [PInt 1; PInt 2]).
Proof. vm_compute. reflexivity. Qed.

Remark int_key_comes_back_a_str :
  (data <- dumps (PDict [(KInt 1, PStr (str "a"))]) DEFAULT_INDENT ;;
   loads data)
  = Return (PDict [(KStr (str "1"), PStr (str "a"))]).
Proof. vm_compute. reflexivity. Qed.

Remark lone_surrogates_come_back_joined :
  (data <- dumps (PStr [0xd83d%N; 0xde00%N]) DEFAULT_INDENT ;; loads data)
  = Return (PStr [0x1f600%N]).
Proof. vm_compute. reflexivity. Qed.

End JsonSpec.

(** ** solutions/01_basics_solutions.py, the other functions *)

Module BasicsMoreSpec.
Import Json BasicsMore.

Lemma fizzbuzz_fold (l : list Z) (stdout : list pystr) :
  fold_left (fun out i => fizzbuzz_body i out) l stdout
  = stdout ++ (out_or_i <$> l).
Proof.
  revert stdout. induction l as [|i l IH]; intros stdout; simpl.
  - rewrite app_nil_r. reflexivity.
  - rewrite IH. unfold fizzbuzz_body. rewrite <- app_assoc. reflexivity.
Qed.

(** The decimal text of an integer is no word of letters. *)
Lemma int_repr_head (z : Z) :
  exists c r, int_repr z = c :: r /\ (c = 45%N \/ is_digit c = true).
Proof.
  pose proof (JsonSpec.number_head_signed (z <? 0) (Z.abs_N z) []) as H.
  unfold int_repr. rewrite app_nil_r in H. exact H.
Qed.

Lemma int_repr_not_word (z : Z) (c : codepoint) (r : pystr) :
  is_digit c = false -> c <> 45%N -> int_repr z <> c :: r.
Proof.
  intros Hd Hm E. destruct (int_repr_head z) as (c' & r' & E' & [->|Hc]);
    rewrite E in E'; injection E' as -> _; congruence.
Qed.

Lemma out_or_i_cases (i : Z) :
  (i mod 3 = 0 /\ i mod 5 = 0 /\ out_or_i i = str "FizzBuzz")
  \/ (i mod 3 = 0 /\ i mod 5 <> 0 /\ out_or_i i = str "Fizz")
  \/ (i mod 3 <> 0 /\ i mod 5 = 0 /\ out_or_i i = str "Buzz")
  \/ (i mod 3 <> 0 /\ i mod 5 <> 0 /\ out_or_i i = int_repr i).
Proof.
  unfold out_or_i.
  destruct (Z.eqb_spec (i mod 3) 0), (Z.eqb_spec (i mod 5) 0); cbv zeta.
  - left. auto.
  - right. left. auto.
  - right. right. left. auto.
  - right. right. right. auto.
Qed.

(** X1. [fizzbuzz(n)] prints [n] lines (none when [n] is not positive); the
    line of [i] is [FizzBuzz] exactly when 15 divides [i], [Fizz] exactly
    when 3 but not 5 does, [Buzz] exactly when 5 but not 3 does, and the
    decimal text of [i] exactly when neither does. *)
Theorem fizzbuzz_lines (n : Z) (stdout : list pystr) :
  exists lines,
    fizzbuzz n stdout = stdout ++ lines
    /\ length lines = Z.to_nat n
    /\ forall i, 1 <= i <= n ->
         exists line,
           lines !! Z.to_nat (i - 1) = Some line
           /\ (line = str "FizzBuzz" <-> i mod 15 = 0)
           /\ (line = str "Fizz" <-> i mod 3 = 0 /\ i mod 5 <> 0)
           /\ (line = str "Buzz" <-> i mod 5 = 0 /\ i mod 3 <> 0)
           /\ (line = int_repr i <-> i mod 3 <> 0 /\ i mod 5 <> 0).
Proof.
  exists (out_or_i <$> range 1 (n + 1)). unfold fizzbuzz, range.
  replace (n + 1 - 1) with n by lia.
  split; [apply fizzbuzz_fold |].
  split; [rewrite length_fmap; apply length_seqZ |].
  intros i Hi. exists (out_or_i i). split.
  - rewrite list_lookup_fmap, lookup_seqZ_lt by lia. simpl. f_equal. f_equal. lia.
  - assert (H15 : i mod 15 = 0 <-> i mod 3 = 0 /\ i mod 5 = 0)
      by (Z.to_euclidean_division_equations; lia).
    assert (N1 : int_repr i <> str "FizzBuzz")
      by (apply (int_repr_not_word i 70%N); [reflexivity | discriminate]).
    assert (N2 : int_repr i <> str "Fizz")
      by (apply (int_repr_not_word i 70%N); [reflexivity | discriminate]).
    assert (N3 : int_repr i <> str "Buzz")
      by (apply (int_repr_not_word i 66%N); [reflexivity | discriminate]).
    assert (W1 : str "FizzBuzz" <> str "Fizz") by (vm_compute; discriminate).
    assert (W2 : str "FizzBuzz" <> str "Buzz") by (vm_compute; discriminate).
    assert (W3 : str "Fizz" <> str "Buzz") by (vm_compute; discriminate).
    rewrite H15.
    destruct (out_or_i_cases i)
      as [(H3 & H5 & ->)|[(H3 & H5 & ->)|[(H3 & H5 & ->)|(H3 & H5 & ->)]]];
      intuition congruence.
Qed.

Lemma fizzbuzz_lines_witness :
  fizzbuzz 16 [] !! 14%nat = Some (str "FizzBuzz").
Proof.
  destruct (fizzbuzz_lines 16 []) as (lines & E & _ & H).
  destruct (H 15 ltac:(lia)) as (line & Hl & H15 & _).
  rewrite E. simpl. change (Z.to_nat (15 - 1)) with 14%nat in Hl.
  rewrite Hl. f_equal. apply H15. reflexivity.
Defined.








End BasicsMoreSpec.

(** ** src/oop/models.py, the other functions *)

Module ModelsMoreSpec.
Import Models Json ModelsMore.

(** *** dedupe_users_by_id and active_users together *)

Lemma dedupe_loop_fixed (users : list user) (seen : gset Z) :
  NoDup (get_id <$> users) ->
  (forall u, u ∈ users -> get_id u ∉ seen) ->
  dedupe_loop users seen [] = users.
Proof.
  revert seen. induction users as [|u rest IH]; intros seen Hnd Hseen.
  - reflexivity.
  - rewrite ModelsSpec.dedupe_loop_cons.
    destruct (decide _) as [Hin|Hin].
    + destruct (Hseen u); [left | exact Hin].
    + f_equal. rewrite fmap_cons in Hnd. apply NoDup_cons in Hnd as [Hu Hnd].
      apply IH; [exact Hnd |].
      intros x Hx. rewrite elem_of_union, elem_of_singleton.
      intros [E|Hs].
      * apply Hu. rewrite list_elem_of_fmap. exists x. auto.
      * apply (Hseen x); [right; exact Hx | exact Hs].
Qed.

(** X4. Deduplicating twice changes nothing more, and
    [dedupe_users_by_id] returns its input as it is exactly when no two
    records of the input share an [id]. *)
Theorem dedupe_users_by_id_fixed (users : list user) :
  dedupe_users_by_id (dedupe_users_by_id users) = dedupe_users_by_id users
  /\ (dedupe_users_by_id users = users <-> NoDup (get_id <$> users)).
Proof.
  unfold dedupe_users_by_id.
  assert (Hfix : forall l, NoDup (get_id <$> l) -> dedupe_loop l ∅ [] = l).
  { intros l Hl. apply dedupe_loop_fixed; [exact Hl |]. set_solver. }
  split; [| split].
  - apply Hfix, ModelsSpec.dedupe_loop_NoDup.
  - intros E. rewrite <- E. apply ModelsSpec.dedupe_loop_NoDup.
  - apply Hfix.
Qed.

(** X5. No two records that [dedupe_users_by_id] keeps are equal under
    [==], whatever their classes. *)
Theorem dedupe_users_by_id_no_equal_pair (users : list user)
    (i j : nat) (x y : user) :
  i <> j ->
  dedupe_users_by_id users !! i = Some x ->
  dedupe_users_by_id users !! j = Some y ->
  py_eq x y = false.
Proof.
  intros Hij Hx Hy.
  assert (Hid : get_id x <> get_id y).
  { intros E. apply Hij.
    pose proof (ModelsSpec.dedupe_loop_NoDup users ∅) as Hnd.
    apply (NoDup_lookup _ i j (get_id x) Hnd).
    - unfold dedupe_users_by_id in Hx. rewrite list_lookup_fmap, Hx. reflexivity.
    - unfold dedupe_users_by_id in Hy. rewrite list_lookup_fmap, Hy.
      simpl. congruence. }
  destruct x as [u1|d1], y as [u2|d2]; unfold py_eq; simpl in *.
  - apply Z.eqb_neq, Hid.
  - reflexivity.
  - reflexivity.
  - apply Z.eqb_neq in Hid. rewrite Hid. reflexivity.
Qed.

Lemma dedupe_users_by_id_no_equal_pair_witness :
  let ann := AUser (User.mk 1 (str "Ann") (str "ann@example.com") true) in
  let bob := AUserDC (UserDC.init 2 (str "Bob") (str "bob@example.com") true) in
  let dup := AUser (User.mk 1 (str "Ann-dup") (str "ann@example.com") true) in
  py_eq ann bob = false.
Proof.
  intros ann bob dup.
  apply (dedupe_users_by_id_no_equal_pair [ann; bob; dup] 0 1);
    [discriminate | reflexivity | reflexivity].
Defined.

Lemma active_dedupe_loop_sublist (users : list user) (seen seen' : gset Z) :
  seen' ⊆ seen ->
  sublist (active_users (dedupe_loop users seen []))
          (dedupe_loop (active_users users) seen' []).
Proof.
  unfold active_users.
  revert seen seen'. induction users as [|u rest IH]; intros seen seen' Hsub.
  - constructor.
  - rewrite ModelsSpec.dedupe_loop_cons.
    destruct (decide (get_id u ∈ seen)) as [Hin|Hin].
    + destruct (get_active u) eqn:Ha.
      * rewrite (filter_cons_True _ u rest) by exact Ha.
        rewrite ModelsSpec.dedupe_loop_cons. destruct (decide _).
        -- apply IH, Hsub.
        -- apply sublist_cons, IH. set_solver.
      * rewrite (filter_cons_False _ u rest) by congruence.
        apply IH, Hsub.
    + destruct (get_active u) eqn:Ha.
      * rewrite (filter_cons_True _ u rest) by exact Ha.
        rewrite (filter_cons_True _ u _) by exact Ha.
        rewrite ModelsSpec.dedupe_loop_cons.
        destruct (decide _) as [Hin'|Hin']; [set_solver |].
        apply sublist_skip, IH. set_solver.
      * rewrite (filter_cons_False _ u rest) by congruence.
        rewrite (filter_cons_False _ u _) by congruence.
        apply IH. set_solver.
Qed.

Lemma active_dedupe_loop_eq (users : list user) (seen seen' : gset Z) :
  seen' ⊆ seen ->
  (forall x y, x ∈ users -> y ∈ users -> get_id x = get_id y ->
               get_active x = get_active y) ->
  (forall x, x ∈ users -> get_id x ∈ seen -> get_id x ∉ seen' ->
             get_active x = false) ->
  active_users (dedupe_loop users seen [])
  = dedupe_loop (active_users users) seen' [].
Proof.
  unfold active_users.
  revert seen seen'.
  induction users as [|u rest IH]; intros seen seen' Hsub Hsame Hgap.
  - reflexivity.
  - assert (Hsame' : forall x y, x ∈ rest -> y ∈ rest ->
              get_id x = get_id y -> get_active x = get_active y).
    { intros x y Hx Hy. apply Hsame; right; assumption. }
    rewrite ModelsSpec.dedupe_loop_cons.
    destruct (decide (get_id u ∈ seen)) as [Hin|Hin].
    + destruct (get_active u) eqn:Ha.
      * rewrite (filter_cons_True _ u rest) by exact Ha.
        rewrite ModelsSpec.dedupe_loop_cons.
        destruct (decide _) as [Hin'|Hin'].
        -- apply IH; [exact Hsub | exact Hsame' |].
           intros x Hx. apply Hgap. right. exact Hx.
        -- specialize (Hgap u ltac:(left) Hin Hin'). congruence.
      * rewrite (filter_cons_False _ u rest) by congruence.
        apply IH; [exact Hsub | exact Hsame' |].
        intros x Hx. apply Hgap. right. exact Hx.
    + destruct (get_active u) eqn:Ha.
      * rewrite (filter_cons_True _ u rest) by exact Ha.
        rewrite (filter_cons_True _ u _) by exact Ha.
        rewrite ModelsSpec.dedupe_loop_cons.
        destruct (decide _) as [Hin'|Hin']; [set_solver |].
        f_equal. apply IH; [set_solver | exact Hsame' |].
        intros x Hx H1 H2. apply (Hgap x); [right; exact Hx | |]; set_solver.
      * rewrite (filter_cons_False _ u rest) by congruence.
        rewrite (filter_cons_False _ u _) by congruence.
        apply IH; [set_solver | exact Hsame' |].
        intros x Hx H1 H2.
        destruct (decide (get_id x = get_id u)) as [E|E].
        -- rewrite <- Ha. apply Hsame; [right; exact Hx | left | exact E].
        -- apply (Hgap x); [right; exact Hx | set_solver | exact H2].
Qed.

(** X6. The two utilities do not commute: the active records of a
    deduplicated list are a sublist of the deduplicated active records;
    the two are the same when records that share an [id] agree on
    [active], and they can differ otherwise (an inactive first record
    hides an active later one with its [id]). *)
Theorem active_users_dedupe_users_by_id (users : list user) :
  sublist (active_users (dedupe_users_by_id users))
          (dedupe_users_by_id (active_users users))
  /\ ((forall x y, x ∈ users -> y ∈ users -> get_id x = get_id y ->
                   get_active x = get_active y) ->
      active_users (dedupe_users_by_id users)
      = dedupe_users_by_id (active_users users))
  /\ (forall (i : Z) (n e : pystr),
        let off := AUser (User.mk i n e false) in
        let on := AUser (User.mk i n e true) in
        active_users (dedupe_users_by_id [off; on]) = []
        /\ dedupe_users_by_id (active_users [off; on]) = [on]).
Proof.
  unfold dedupe_users_by_id. split; [| split].
  - apply active_dedupe_loop_sublist. reflexivity.
  - intros Hsame. apply active_dedupe_loop_eq; [reflexivity | exact Hsame |].
    set_solver.
  - intros i n e. cbv zeta. unfold active_users.
    rewrite (filter_cons_False _ (AUser (User.mk i n e false)))
      by (simpl; congruence).
    rewrite (filter_cons_True _ (AUser (User.mk i n e true)) [])
      by reflexivity.
    rewrite filter_nil.
    rewrite !ModelsSpec.dedupe_loop_cons. simpl.
    destruct (decide (i ∈ (∅ : gset Z))) as [H|_]; [set_solver |].
    destruct (decide (i ∈ ({[i]} ∪ ∅ : gset Z))) as [_|H]; [| set_solver].
    split; reflexivity.
Qed.

Lemma active_users_dedupe_users_by_id_witness :
  let ann := AUser (User.mk 1 (str "Ann") (str "ann@example.com") true) in
  let bob := AUser (User.mk 2 (str "Bob") (str "bob@example.com") false) in
  let dup := AUser (User.mk 1 (str "Ann-dup") (str "ann@example.com") true) in
  active_users (dedupe_users_by_id [ann; bob; dup])
  = dedupe_users_by_id (active_users [ann; bob; dup]).
Proof.
  intros ann bob dup.
  destruct (active_users_dedupe_users_by_id [ann; bob; dup]) as (_ & H & _).
  apply H. intros x y Hx Hy.
  rewrite !elem_of_cons in Hx, Hy. rewrite !elem_of_nil in Hx, Hy.
  destruct Hx as [->|[->|[->|[]]]], Hy as [->|[->|[->|[]]]];
    simpl; intros E; first [reflexivity | discriminate E].
Defined.

(** *** compute_fingerprint *)

Lemma uint_text_inj (u v : Decimal.uint) : uint_text u = uint_text v -> u = v.
Proof.
  revert v. induction u; intros v; destruct v; simpl; literals; intros H;
    try discriminate H; try reflexivity;
    injection H as H; f_equal; apply IHu, H.
Qed.

Lemma uint_text_digits (u : Decimal.uint) (c : codepoint) :
  c ∈ uint_text u -> is_digit c = true.
Proof.
  induction u; simpl; literals; rewrite ?elem_of_cons;
    try (intros H; destruct (not_elem_of_nil _ H));
    intros [->|H]; auto.
Qed.

Lemma int_repr_inj (a b : Z) : int_repr a = int_repr b -> a = b.
Proof.
  unfold int_repr, sign_text. intros H.
  assert (Hnd : forall n r, uint_text (N.to_uint n) <> ord "-" :: r).
  { intros n r E.
    assert (Hd : is_digit (ord "-") = true)
      by (apply (uint_text_digits (N.to_uint n)); rewrite E; left).
    discriminate Hd. }
  destruct (Z.ltb_spec a 0), (Z.ltb_spec b 0); simpl in H.
  - injection H as H. apply uint_text_inj, DecimalN.Unsigned.to_uint_inj in H.
    lia.
  - destruct (Hnd _ _ (eq_sym H)).
  - destruct (Hnd _ _ H).
  - apply uint_text_inj, DecimalN.Unsigned.to_uint_inj in H. lia.
Qed.

Lemma int_repr_no_colon (z : Z) : ord ":" ∉ int_repr z.
Proof.
  unfold int_repr, sign_text. rewrite elem_of_app. intros [H|H].
  - destruct (z <? 0).
    + apply list_elem_of_singleton in H. discriminate H.
    + destruct (not_elem_of_nil _ H).
  - apply uint_text_digits in H. discriminate H.
Qed.

Lemma app_sep_inj {A} (c : A) (a a' b b' : list A) :
  c ∉ a -> c ∉ a' -> a ++ c :: b = a' ++ c :: b' -> a = a' /\ b = b'.
Proof.
  revert a'. induction a as [|x a IH]; intros [|y a'] Ha Ha' E; simpl in E.
  - injection E as E. auto.
  - injection E as -> _. destruct Ha'. left.
  - injection E as -> _. destruct Ha. left.
  - injection E as -> E. apply not_elem_of_cons in Ha as [_ Ha].
    apply not_elem_of_cons in Ha' as [_ Ha'].
    destruct (IH a' Ha Ha' E) as [-> ->]. auto.
Qed.

(** X7. The text that [compute_fingerprint] hashes tells the [id] and the
    [email] apart: two records give the same text exactly when they have
    the same [id] and the same [email], so that two fingerprints of
    records that differ there can only agree by a collision of the
    digest, and records that agree there get the same fingerprint
    whatever their other fields. *)
Theorem fingerprint_text_injective (sha256_hexdigest : list byte -> pystr)
    (d1 d2 : UserDC.t) :
  (fingerprint_text d1 = fingerprint_text d2
   <-> UserDC.id d1 = UserDC.id d2 /\ UserDC.email d1 = UserDC.email d2)
  /\ (UserDC.id d1 = UserDC.id d2 -> UserDC.email d1 = UserDC.email d2 ->
      (compute_fingerprint sha256_hexdigest d1).1
      = (compute_fingerprint sha256_hexdigest d2).1).
Proof.
  split; [split |].
  - unfold fingerprint_text. intros E.
    change (str ":" ++ ?e) with (ord ":" :: e) in E.
    apply app_sep_inj in E; try apply int_repr_no_colon.
    destruct E as [E1 E2]. split; [apply int_repr_inj, E1 | exact E2].
  - unfold fingerprint_text. intros [-> ->]. reflexivity.
  - intros E1 E2. unfold compute_fingerprint, fingerprint_text.
    rewrite E1, E2. destruct (utf8_encode _); reflexivity.
Qed.

Lemma fingerprint_text_injective_witness :
  let sha := fun data : list byte => int_repr (Z.of_nat (length data)) in
  let d1 := UserDC.init 1 (str "Ann") (str "ann@example.com") true in
  let d2 := UserDC.init 1 (str "Ann-dup") (str "ann@example.com") false in
  (compute_fingerprint sha d1).1 = (compute_fingerprint sha d2).1.
Proof.
  intros sha d1 d2.
  apply (fingerprint_text_injective sha d1 d2); reflexivity.
Defined.







(** X9. A fingerprint makes a record differ from its copies: two equal
    dataclass records are no longer equal once [compute_fingerprint] has
    changed the field of one of them, and they are equal again once it has
    run on both. *)
Theorem compute_fingerprint_equality (sha256_hexdigest : list byte -> pystr)
    (d1 d2 : UserDC.t) (fp : pystr) :
  py_eq (AUserDC d1) (AUserDC d2) = true ->
  (compute_fingerprint sha256_hexdigest d1).1 = Return fp ->
  let d1' := (compute_fingerprint sha256_hexdigest d1).2 in
  let d2' := (compute_fingerprint sha256_hexdigest d2).2 in
  (UserDC.fingerprint d2 <> Some fp -> py_eq (AUserDC d1') (AUserDC d2) = false)
  /\ py_eq (AUserDC d1') (AUserDC d2') = true.
Proof.
  intros Heq Hfp.
  assert (E : d1 = d2).
  { unfold py_eq in Heq. simpl in Heq.
    unfold str_eqb, opt_str_eqb in Heq.
    repeat (apply andb_true_iff in Heq as [Heq ?]).
    apply Z.eqb_eq in Heq. apply Bool.eqb_prop in H0.
    repeat match goal with
      | H : bool_decide _ = true |- _ => apply bool_decide_eq_true in H
      end.
    destruct d1, d2; simpl in *; congruence. }
  subst d2. cbv zeta. unfold compute_fingerprint in *.
  destruct (utf8_encode (fingerprint_text d1)) as [data|]; [| discriminate].
  injection Hfp as Hfp. simpl. rewrite Hfp. unfold py_eq. simpl.
  unfold str_eqb, opt_str_eqb.
  rewrite Z.eqb_refl, Bool.eqb_reflx.
  rewrite !(bool_decide_eq_true_2 (_ = _)) by reflexivity.
  split.
  - intros Hne. simpl.
    rewrite (bool_decide_eq_false_2 (Some fp = _)) by congruence.
    reflexivity.
  - simpl. rewrite (bool_decide_eq_true_2 (Some fp = _)) by reflexivity.
    reflexivity.
Qed.

Lemma compute_fingerprint_equality_witness :
  let sha := fun data : list byte => int_repr (Z.of_nat (length data)) in
  let d := UserDC.init 1 (str "Ann") (str "ann@example.com") true in
  py_eq (AUserDC (compute_fingerprint sha d).2) (AUserDC d) = false.
Proof.
  intros sha d.
  apply (compute_fingerprint_equality sha d d (str "17"));
    [reflexivity | reflexivity | discriminate].
Defined.

End ModelsMoreSpec.

(** ** src/data_handling/json_api.py, the other functions *)

Module JsonMoreSpec.
Import Json JsonMore.

(** *** What write_json refuses, and what it leaves alone *)

Lemma traverse_cases {A B} (f : A -> result B) (ok : A -> bool) (e : exc)
    (l : list A) :
  Forall (fun x => (ok x = true -> exists y, f x = Return y)
                   /\ (ok x = false -> f x = Raise e)) l ->
  (forallb ok l = true -> exists ys, traverse f l = Return ys)
  /\ (forallb ok l = false -> traverse f l = Raise e).
Proof.
  induction 1 as [|x r [Hok Hbad] _ [IHok IHbad]]; simpl.
  - split; [eexists; reflexivity | discriminate].
  - destruct (ok x) eqn:Hx; simpl.
    + destruct (Hok eq_refl) as [y ->]. simpl. split.
      * intros Hr. destruct (IHok Hr) as [ys ->]. eexists. reflexivity.
      * intros Hr. rewrite (IHbad Hr). reflexivity.
    + rewrite (Hbad eq_refl). split; [discriminate | reflexivity].
Qed.

Lemma key_text_cases (k : key) :
  (serializable_key k = true -> exists t, key_text k = Return t)
  /\ (serializable_key k = false -> key_text k = Raise TypeError).
Proof.
  destruct k as [s|z|f|[]| |]; simpl;
    (split; intros H;
     first [discriminate H | eexists; reflexivity | reflexivity]).
Qed.

Lemma iterencode_cases (indent : nat) (v : value) :
  forall level,
    (serializable v = true -> exists t, iterencode indent level v = Return t)
    /\ (serializable v = false -> iterencode indent level v = Raise TypeError).
Proof.
  induction v as [|b|z|fl|s|l IH|l IH|d IH|] using JsonSpec.value_nested_ind;
    intros level;
    try (split; [intros _; eexists; reflexivity | discriminate]).
  - destruct b; (split; [intros _; eexists; reflexivity | discriminate]).
  - cbn [iterencode serializable].
    destruct (traverse_cases (iterencode indent (S level)) serializable
                TypeError l) as [Hok Hbad].
    { eapply Forall_impl; [exact IH |]. intros x Hx. apply Hx. }
    split; intros Hs.
    + destruct (Hok Hs) as [ys ->]. eexists. reflexivity.
    + rewrite (Hbad Hs). reflexivity.
  - cbn [iterencode serializable].
    destruct (traverse_cases (iterencode indent (S level)) serializable
                TypeError l) as [Hok Hbad].
    { eapply Forall_impl; [exact IH |]. intros x Hx. apply Hx. }
    split; intros Hs.
    + destruct (Hok Hs) as [ys ->]. eexists. reflexivity.
    + rewrite (Hbad Hs). reflexivity.
  - cbn [iterencode serializable].
    destruct (traverse_cases
                (fun kv => bind (key_text kv.1) (fun k =>
                           bind (iterencode indent (S level) kv.2) (fun v =>
                           Return (item_text k v))))
                (fun kv => serializable_key kv.1 && serializable kv.2)
                TypeError d) as [Hok Hbad].
    { eapply Forall_impl; [exact IH |]. intros [k x] Hx. simpl in *.
      destruct (key_text_cases k) as [Hk Hk'].
      destruct (Hx (S level)) as [Hv Hv'].
      destruct (serializable_key k); simpl.
      - destruct (Hk eq_refl) as [t ->]. simpl. split.
        + intros Hs. destruct (Hv Hs) as [t' ->]. eexists. reflexivity.
        + intros Hs. rewrite (Hv' Hs). reflexivity.
      - rewrite (Hk' eq_refl). split; [discriminate | reflexivity]. }
    split; intros Hs.
    + destruct (Hok Hs) as [ys ->]. eexists. reflexivity.
    + rewrite (Hbad Hs). reflexivity.
  - split; [discriminate | reflexivity].
Qed.



Lemma dumps_encodes (v : value) (indent : nat) (t : pystr) (w : bool) :
  dumps v indent = Return t ->
  utf8_encode (translate_out w t) = Some (byte_of_N <$> translate_out w t).
Proof.
  intros Hd. apply JsonSpec.utf8_encode_ascii, JsonSpec.translate_out_ascii.
  exact (JsonSpec.iterencode_plain _ _ _ _ Hd).
Qed.



(** X12. [write_json] touches one file: every other file keeps its
    bytes, and [read_json] changes nothing at all. *)
Theorem write_json_frame (p q : path) (v : value) (indent : nat)
    (fs : filesystem) :
  (q <> p ->
   files (write_json p v indent fs).2 !! q = files fs !! q)
  /\ crlf (write_json p v indent fs).2 = crlf fs
  /\ (read_json q fs).2 = fs.
Proof.
  split; [| split].
  - intros Hq. unfold write_json, io_bind, io_lift, io_ret.
    destruct (dumps v indent) as [t|e0] eqn:Hd; [| reflexivity].
    unfold write_text, io_bind, open_w.
    destruct (decide (p ∈ dirs fs)); [reflexivity |].
    destruct (decide (parent p ∈ dirs fs)); [| reflexivity].
    cbn [crlf with_file]. rewrite (dumps_encodes v indent t _ Hd).
    simpl. rewrite insert_insert_eq, lookup_insert_ne by congruence. reflexivity.
  - unfold write_json, io_bind, io_lift, io_ret.
    destruct (dumps v indent) as [t|e0] eqn:Hd; [| reflexivity].
    unfold write_text, io_bind, open_w.
    destruct (decide (p ∈ dirs fs)); [reflexivity |].
    destruct (decide (parent p ∈ dirs fs)); [| reflexivity].
    cbn [crlf with_file]. rewrite (dumps_encodes v indent t _ Hd).
    reflexivity.
  - unfold read_json, io_bind, io_lift, read_text.
    destruct (decide (q ∈ dirs fs)); [reflexivity |].
    destruct (files fs !! q) as [bs|]; [| reflexivity].
    destruct (utf8_decode bs); [| reflexivity].
    destruct (loads _); reflexivity.
Qed.

Lemma write_json_frame_witness :
  files (write_json ITEMS_PATH (PList []) DEFAULT_INDENT demo_fs).2
    !! ACTIVE_USERS_PATH
  = files demo_fs !! ACTIVE_USERS_PATH.
Proof.
  apply (write_json_frame ITEMS_PATH ACTIVE_USERS_PATH (PList [])
           DEFAULT_INDENT demo_fs).
  discriminate.
Defined.

(** *** Writing, then reading *)

Lemma read_json_file (fs : filesystem) (p : path) (v : value) (indent : nat)
    (text : pystr) :
  p ∉ dirs fs -> json_representable v = true ->
  dumps v indent = Return text ->
  files fs !! p = Some (byte_of_N <$> translate_out (crlf fs) text) ->
  read_json p fs = (Return v, fs).
Proof.
  intros Hp Hrep Hd Hfile.
  pose proof (JsonSpec.iterencode_plain _ _ _ _ Hd) as Hplain.
  unfold read_json, io_bind, io_lift, read_text.
  destruct (decide (p ∈ dirs fs)); [contradiction |].
  rewrite Hfile.
  rewrite JsonSpec.utf8_decode_ascii
    by (apply JsonSpec.translate_out_ascii, Hplain).
  rewrite JsonSpec.universal_newlines_translate_out by exact Hplain.
  rewrite (JsonSpec.loads_dumps v indent text Hrep Hd). reflexivity.
Qed.



(** *** DATA_DIR.mkdir(exist_ok=True) *)





(** *** normalize_emails *)

Section EmailsMore.
Context `{CaseTable}.

Lemma normalized_candidates (emails : list entry) :
  exists cands : list pystr,
    (length cands <= length emails)%nat
    /\ forall s, s ∈ normalize_emails emails -> s ∈ cands.
Proof.
  exists (omap (fun e => match e with
                         | Text t => Some (lower (strip t))
                         | NonText _ => None
                         end) emails).
  split.
  - induction emails as [|[t|b] r IH]; csimpl; simpl; lia.
  - intros s Hs. apply JsonSpec.elem_of_normalize_emails in Hs
      as (e & He & _ & ->).
    apply list_elem_of_omap. exists (Text e). auto.
Qed.

(** X18. [normalize_emails] sees its input as a set of strings: two lists
    with the same non-empty [str] entries, in whatever order, however
    often repeated and whatever else they hold, give the same result; the
    result is never longer than the input; and the result for a
    concatenation holds the addresses of the results for its parts. *)
Theorem normalize_emails_invariant (xs ys : list entry) :
  ((forall e, e <> [] -> Text e ∈ xs <-> Text e ∈ ys) ->
   normalize_emails xs = normalize_emails ys)
  /\ (length (normalize_emails xs) <= length xs)%nat
  /\ (forall s, s ∈ normalize_emails (xs ++ ys)
        <-> s ∈ normalize_emails xs \/ s ∈ normalize_emails ys).
Proof.
  split; [| split].
  - intros Hsame. apply JsonSpec.Sorted_NoDup_unique;
      try apply JsonSpec.sorted_Sorted; try apply JsonSpec.sorted_NoDup.
    intros s. rewrite !JsonSpec.elem_of_normalize_emails.
    split; intros (e & He & Hne & ->); exists e;
      (split; [apply (Hsame e Hne), He | auto]).
  - destruct (normalized_candidates xs) as (cands & Hlen & Hin).
    etransitivity; [| exact Hlen].
    apply submseteq_length, NoDup_submseteq; [apply JsonSpec.sorted_NoDup |].
    exact Hin.
  - intros s. rewrite !JsonSpec.elem_of_normalize_emails. split.
    + intros (e & He & Hne & ->). apply elem_of_app in He as [He|He];
        [left | right]; exists e; auto.
    + intros [(e & He & Hne & ->)|(e & He & Hne & ->)]; exists e;
        rewrite elem_of_app; auto.
Qed.

End EmailsMore.

Lemma normalize_emails_invariant_witness :
  normalize_emails (H := JsonSpec.ascii_case_table)
    [Text (str " A@X.com"); NonText true; Text (str "b@x.com");
     Text (str " A@X.com")]
  = normalize_emails (H := JsonSpec.ascii_case_table)
      [Text (str "b@x.com"); Text []; Text (str " A@X.com")].
Proof.
  apply (normalize_emails_invariant (H := JsonSpec.ascii_case_table)).
  intros e He. rewrite !elem_of_cons, !elem_of_nil.
  split; intros Hin; repeat destruct Hin as [Hin|Hin];
    try discriminate Hin; try (injection Hin as ->);
    try contradiction; auto 6.
Defined.

(** *** What loads builds *)

Lemma scan_digits_exp (s : pystr) (sg : exp_sign) (u : Decimal.uint) (r : pystr) :
  scan_exp s = (Some (sg, u), r) -> u <> Decimal.Nil.
Proof.
  unfold scan_exp. repeat case_match; intros [= <- <- <-]; try discriminate;
   subst; congruence.
Qed.

Lemma match_number_shaped (s : pystr) (v : value) (r : pystr) :
  match_number s = Some (v, r) -> json_shaped v = true.
Proof.
  unfold match_number. intros Hm.
  destruct (scan_integer s) as [[[neg u] r0]|]; [| discriminate]. simpl in Hm.
  destruct (scan_frac r0) as [frac r1].
  destruct (scan_exp r1) as [ex r2] eqn:Hex.
  destruct frac, ex as [[sg d]|]; injection Hm as <- <-; try reflexivity;
   simpl; unfold float_token; simpl;
   try (pose proof (scan_digits_exp _ _ _ _ Hex); destruct d; congruence).
Qed.

Lemma scan_literal_shaped s v r : scan_literal s = Some (v, r) -> json_shaped v = true.
Proof. unfold scan_literal. repeat case_match; intros [= <- <-]; reflexivity. Qed.

Lemma scan_constant_shaped s v r : scan_constant s = Some (v, r) -> json_shaped v = true.
Proof. unfold scan_constant. repeat case_match; intros [= <- <-]; reflexivity. Qed.

Lemma dict_setitem_keys {V} (k : pystr) (v : V) (d : list (pystr * V)) :
  (dict_setitem k v d).*1 = if decide (k ∈ d.*1) then d.*1 else d.*1 ++ [k].
Proof.
  induction d as [|[k' v'] r IH]; [reflexivity |].
  cbn [dict_setitem].
  destruct (decide (k = k')) as [->|Hne]; rewrite !fmap_cons; cbn [fst].
  - rewrite decide_True by left. reflexivity.
  - rewrite IH. destruct (decide (k ∈ r.*1)).
    + rewrite decide_True by (right; assumption). reflexivity.
    + rewrite decide_False; [reflexivity |].
      rewrite elem_of_cons. intros [?|?]; congruence.
Qed.

Lemma dict_setitem_values {V} (P : V -> Prop) (k : pystr) (v : V)
    (d : list (pystr * V)) :
  P v -> Forall (fun kv => P kv.2) d ->
  Forall (fun kv => P kv.2) (dict_setitem k v d).
Proof.
  intros Hv. induction 1 as [|[k' v'] r Hx Hr IH]; simpl.
  - repeat constructor. exact Hv.
  - destruct (decide (k = k')); constructor; auto.
Qed.

Lemma dict_spec {V} (P : V -> Prop) (pairs : list (pystr * V)) :
  Forall (fun kv => P kv.2) pairs ->
  NoDup ((dict pairs).*1) /\ Forall (fun kv => P kv.2) (dict pairs).
Proof.
  unfold dict. intros Hp.
  assert (G : forall acc : list (pystr * V),
    NoDup (acc.*1) -> Forall (fun kv => P kv.2) acc ->
    NoDup ((fold_left (fun d kv => dict_setitem kv.1 kv.2 d) pairs acc).*1)
    /\ Forall (fun kv => P kv.2)
         (fold_left (fun d kv => dict_setitem kv.1 kv.2 d) pairs acc)).
  { induction Hp as [|[k v] r Hv Hr IH]; intros acc Hnd Hacc; simpl.
    - auto.
    - apply IH.
      + rewrite dict_setitem_keys. destruct (decide (k ∈ acc.*1)); [exact Hnd |].
        apply NoDup_app. split; [exact Hnd |]. split.
        * intros x Hx Hx'. apply list_elem_of_singleton in Hx'. congruence.
        * apply NoDup_singleton.
      + apply dict_setitem_values; assumption. }
  apply G; constructor.
Qed.

Lemma str_keys_shaped (d : list (pystr * value)) :
  NoDup (d.*1) -> Forall (fun kv => json_shaped kv.2 = true) d ->
  json_shaped (PDict (str_keys d)) = true.
Proof.
  intros Hnd Hd. simpl. apply andb_true_iff. split.
  - apply bool_decide_eq_true.
    assert (E : (str_keys d).*1 = KStr <$> d.*1).
    { unfold str_keys. induction d as [|[k v] r IH]; simpl; [reflexivity |].
      f_equal. apply IH.
      - apply NoDup_cons in Hnd. apply Hnd.
      - apply Forall_cons in Hd. apply Hd. }
    rewrite E. apply NoDup_fmap; [| exact Hnd]. intros a b [= ->]. reflexivity.
  - apply forallb_forall. intros [k v] Hkv. apply list_elem_of_In in Hkv.
    unfold str_keys in Hkv. apply list_elem_of_fmap in Hkv as ([k' v'] & [= -> ->] & Hin).
    simpl. rewrite Forall_forall in Hd. apply (Hd _ Hin).
Qed.

Lemma scan_shaped (fuel : nat) :
  (forall s v r, scan_once fuel s = Some (v, r) -> json_shaped v = true)
  /\ (forall s vs r, array_items fuel s = Some (vs, r) ->
        Forall (fun v => json_shaped v = true) vs)
  /\ (forall s ps r, object_items fuel s = Some (ps, r) ->
        Forall (fun kv : pystr * value => json_shaped kv.2 = true) ps).
Proof.
  induction fuel as [|f (IHv & IHa & IHo)].
  - repeat split; intros; discriminate.
  - split; [| split].
    + intros s v r. cbn [scan_once].
      destruct s as [|c s']; [discriminate |].
      repeat case_match; intros Hs; try discriminate Hs.
      * destruct (scanstring s') as [[t r']|]; [| discriminate Hs].
        injection Hs as <- <-. reflexivity.
      * injection Hs as <- <-. reflexivity.
      * destruct (object_items f _) as [[pairs r'']|] eqn:Ho;
          [| discriminate Hs].
        injection Hs as <- <-. apply IHo in Ho.
        destruct (dict_spec (fun v => json_shaped v = true) pairs Ho).
        apply str_keys_shaped; assumption.
      * injection Hs as <- <-. reflexivity.
      * destruct (array_items f _) as [[items r'']|] eqn:Ha;
          [| discriminate Hs].
        injection Hs as <- <-. apply IHa in Ha. simpl.
        apply forallb_forall. intros x Hx. apply list_elem_of_In in Hx.
        rewrite Forall_forall in Ha. apply Ha, Hx.
      * subst. injection Hs as ->. eapply scan_literal_shaped; eassumption.
      * subst. injection Hs as ->. eapply match_number_shaped; eassumption.
      * eapply scan_constant_shaped; eassumption.
    + intros s vs r. cbn [array_items].
      destruct (scan_once f s) as [[v r0]|] eqn:Hv; [| discriminate].
      apply IHv in Hv. cbn [mbind option_bind].
      repeat case_match; intros Hs; try discriminate Hs.
      * injection Hs as <- <-. repeat constructor. exact Hv.
      * destruct (array_items f _) as [[vs' r'']|] eqn:Ha;
          [| discriminate Hs].
        injection Hs as <- <-. constructor; [exact Hv | eapply IHa, Ha].
    + intros s ps r. cbn [object_items].
      destruct s as [|q s']; [discriminate |].
      destruct (q =? QUOTE)%N; [| discriminate].
      destruct (scanstring s') as [[k r1]|]; [| discriminate].
      cbn [mbind option_bind].
      destruct (skip_ws r1) as [|c r2]; [discriminate |].
      destruct (c =? ord ":")%N; [| discriminate].
      destruct (scan_once f (skip_ws r2)) as [[v r3]|] eqn:Hv; [| discriminate].
      apply IHv in Hv. cbn [mbind option_bind].
      repeat case_match; intros Hs; try discriminate Hs.
      * injection Hs as <- <-. repeat constructor. exact Hv.
      * destruct (object_items f _) as [[ps' r5]|] eqn:Ho;
          [| discriminate Hs].
        injection Hs as <- <-. constructor; [exact Hv | eapply IHo, Ho].
Qed.

Lemma loads_shaped (s : pystr) (v : value) :
  loads s = Return v -> json_shaped v = true.
Proof.
  unfold loads. destruct (startswith_bom s); [discriminate |].
  destruct (scan_once _ _) as [[obj r]|] eqn:Hs; [| discriminate].
  destruct (skip_ws r); [| discriminate]. intros [= <-].
  eapply (scan_shaped _), Hs.
Qed.

Lemma shaped_serializable (v : value) :
  json_shaped v = true -> serializable v = true.
Proof.
  induction v as [|b|z|fl|s|l IH|l IH|d IH|] using JsonSpec.value_nested_ind;
    simpl; try reflexivity; try discriminate.
  - intros Hl. apply forallb_forall. intros x Hx.
    rewrite forallb_forall in Hl. rewrite List.Forall_forall in IH. auto.
  - intros Hd. apply andb_true_iff in Hd as [_ Hd].
    apply forallb_forall. intros [k x] Hx.
    rewrite forallb_forall in Hd. rewrite List.Forall_forall in IH.
    specialize (Hd _ Hx). specialize (IH _ Hx). simpl in *.
    apply andb_true_iff in Hd as [Hk Hv].
    rewrite (IH Hv). destruct k; try discriminate. reflexivity.
Qed.

Lemma shaped_representable (v : value) :
  json_shaped v = true -> finite_text v = true -> json_representable v = true.
Proof.
  induction v as [|b|z|fl|s|l IH|l IH|d IH|] using JsonSpec.value_nested_ind;
    simpl; try reflexivity; try discriminate; try tauto.
  - destruct fl; [tauto | discriminate | discriminate].
  - intros Hl Hf. apply forallb_forall. intros x Hx.
    rewrite forallb_forall in Hl, Hf. rewrite List.Forall_forall in IH. auto.
  - intros Hd Hf. apply andb_true_iff in Hd as [Hnd Hd]. rewrite Hnd. simpl.
    apply forallb_forall. intros [k x] Hx.
    rewrite forallb_forall in Hd, Hf. rewrite List.Forall_forall in IH.
    specialize (Hd _ Hx). specialize (Hf _ Hx). specialize (IH _ Hx).
    simpl in *.
    apply andb_true_iff in Hd as [Hk Hv]. apply andb_true_iff in Hf as [Hk' Hv'].
    rewrite (IH Hv Hv'). destruct k; try discriminate. simpl in *.
    rewrite Hk'. reflexivity.
Qed.

(** X19. What [read_json] returns, [write_json] accepts: a value read
    from a file is made of lists and of dictionaries with distinct [str]
    keys around scalars, so that serializing it never raises
    [TypeError], and it can be written to any path that can be written
    to. *)
Theorem read_json_write_json (p q : path) (fs fs' fs2 : filesystem)
    (v : value) (indent : nat) :
  read_json p fs = (Return v, fs') ->
  json_shaped v = true
  /\ (q ∉ dirs fs2 -> parent q ∈ dirs fs2 ->
      exists fs3, write_json q v indent fs2 = (Return tt, fs3)).
Proof.
  unfold read_json, io_bind, io_lift. intros Hr.
  destruct (read_text p fs) as [[data|e] fs0]; [| discriminate Hr].
  destruct (loads data) as [v'|e] eqn:Hl; [| discriminate Hr].
  injection Hr as -> ->. apply loads_shaped in Hl.
  split; [exact Hl |]. intros Hq Hparent.
  destruct (iterencode_cases indent v 0%nat) as [Hok _].
  destruct (Hok (shaped_serializable v Hl)) as [t Hd].
  eexists. apply (JsonSpec.write_json_written _ _ _ _ _ Hd Hq Hparent).
Qed.

Lemma read_json_write_json_witness :
  let fs := with_file demo_fs ITEMS_PATH
              (byte_of_N <$> dq "{'items': [1, 2.5, NaN]}") in
  exists fs3,
    write_json ACTIVE_USERS_PATH
      (PDict [(KStr (str "items"),
               PList [PInt 1;
                      PFloat (FLit {| fl_neg := false; fl_int := 2;
                                      fl_frac := Decimal.D5 Decimal.Nil;
                                      fl_exp := None |});
                      PFloat FNaN])])
      DEFAULT_INDENT fs = (Return tt, fs3).
Proof.
  intros fs.
  apply (read_json_write_json ITEMS_PATH ACTIVE_USERS_PATH fs fs fs).
  - vm_compute. reflexivity.
  - unfold fs, demo_fs, ACTIVE_USERS_PATH, DATA_DIR. simpl. set_solver.
  - unfold fs, demo_fs, ACTIVE_USERS_PATH, DATA_DIR. simpl. set_solver.
Defined.

(** X20. The first two steps of [main]: the items that
    [parse_items_from_json] returns from a payload without NaN, infinity
    or surrogate, written with [write_json] to a path that can be
    written to, are what [read_json] returns from that path. *)
Theorem parse_items_from_json_write_json (payload : pystr)
    (items : list value) (p : path) (indent : nat) (fs : filesystem) :
  parse_items_from_json payload = Return items ->
  finite_text (PList items) = true ->
  p ∉ dirs fs -> parent p ∈ dirs fs ->
  exists fs',
    write_json p (PList items) indent fs = (Return tt, fs')
    /\ read_json p fs' = (Return (PList items), fs').
Proof.
  intros Hparse Hfin Hp Hparent.
  assert (Hshape : json_shaped (PList items) = true).
  { unfold parse_items_from_json in Hparse.
    destruct (loads payload) as [obj|e] eqn:Hl;
      [| destruct e; discriminate Hparse].
    apply loads_shaped in Hl.
    destruct obj as [| | | | | | |d|]; try discriminate Hparse.
    destruct (dict_get _ d) as [[| | | | |l| | |]|] eqn:Hg;
      try discriminate Hparse.
    injection Hparse as ->. simpl in Hl.
    apply andb_true_iff in Hl as [_ Hl].
    clear -Hl Hg. induction d as [|[k x] r IH]; [discriminate |].
    simpl in Hl, Hg. apply andb_true_iff in Hl as [Hl Hr].
    destruct (decide _); [| auto].
    injection Hg as ->. apply andb_true_iff in Hl as [_ Hl]. exact Hl. }
  pose proof (shaped_representable _ Hshape Hfin) as Hrep.
  destruct (JsonSpec.iterencode_total indent _ 0%nat Hrep) as [t Hd].
  change (iterencode indent 0 ?x) with (dumps x indent) in Hd.
  eexists. split; [apply (JsonSpec.write_json_written _ _ _ _ _ Hd Hp Hparent) |].
  apply (read_json_file _ p _ indent t); try assumption.
  simpl. apply lookup_insert_eq.
Qed.

Lemma parse_items_from_json_write_json_witness :
  exists fs',
    write_json ITEMS_PATH demo_items DEFAULT_INDENT demo_fs = (Return tt, fs')
    /\ read_json ITEMS_PATH fs' = (Return demo_items, fs').
Proof.
  apply (parse_items_from_json_write_json
           (dq "{'items':[{'id':1,'name':'widget'},{'id':2,'name':'gadget'}]}")).
  - vm_compute. reflexivity.
  - vm_compute. reflexivity.
  - unfold demo_fs, ITEMS_PATH, DATA_DIR. simpl. set_solver.
  - unfold demo_fs, ITEMS_PATH, DATA_DIR. simpl. set_solver.
Defined.



(** *** Whitespace around a payload *)

Lemma is_ws_cases (c : codepoint) :
  is_ws c = true -> c = 32%N \/ c = 9%N \/ c = 10%N \/ c = 13%N.
Proof.
  unfold is_ws. rewrite !orb_true_iff, !N.eqb_eq. tauto.
Qed.

Ltac ws_cases x Hx :=
  destruct x as [|? x];
  [| apply is_ws_cases in Hx; destruct Hx as [-> | [-> | [-> | ->]]]].

Lemma scan_digits_app (s x : pystr) :
  ws_head x ->
  scan_digits (s ++ x) = ((scan_digits s).1, (scan_digits s).2 ++ x).
Proof.
  intros Hx. induction s as [|c r IH].
  - ws_cases x Hx; reflexivity.
  - cbn [app scan_digits]. change ((c :: r) ++ x) with (c :: (r ++ x)); cbv beta iota.
    cbn [scan_digits]. destruct (is_digit c); [| reflexivity].
    rewrite IH. destruct (scan_digits r). reflexivity.
Qed.

Lemma scan_integer_app (s x : pystr) :
  ws_head x ->
  scan_integer (s ++ x)
  = '(neg, u, r) ← scan_integer s; Some (neg, u, r ++ x).
Proof.
  intros Hx. unfold scan_integer.
  destruct s as [|c r].
  - ws_cases x Hx; reflexivity.
  - change ((c :: r) ++ x) with (c :: (r ++ x)); cbv beta iota.
    destruct (c =? ord "-")%N.
    + destruct r as [|d r'].
      * ws_cases x Hx; reflexivity.
      * change ((d :: r') ++ x) with (d :: (r' ++ x)); cbv beta iota.
        destruct (d =? ord "0")%N; [reflexivity |].
        destruct (is_digit d); [| reflexivity].
        change (d :: (r' ++ x)) with ((d :: r') ++ x).
        rewrite scan_digits_app by exact Hx.
        destruct (scan_digits (d :: r')). reflexivity.
    + destruct (c =? ord "0")%N; [reflexivity |].
      destruct (is_digit c); [| reflexivity].
      change (c :: (r ++ x)) with ((c :: r) ++ x).
      rewrite scan_digits_app by exact Hx.
      destruct (scan_digits (c :: r)). reflexivity.
Qed.

Lemma scan_frac_app (s x : pystr) :
  ws_head x ->
  scan_frac (s ++ x) = ((scan_frac s).1, (scan_frac s).2 ++ x).
Proof.
  intros Hx. unfold scan_frac. destruct s as [|c r].
  - ws_cases x Hx; reflexivity.
  - change ((c :: r) ++ x) with (c :: (r ++ x)); cbv beta iota.
    destruct (c =? ord ".")%N; [| reflexivity].
    rewrite scan_digits_app by exact Hx.
    destruct (scan_digits r) as [u r']. destruct u; reflexivity.
Qed.

Lemma scan_exp_app (s x : pystr) :
  ws_head x ->
  scan_exp (s ++ x) = ((scan_exp s).1, (scan_exp s).2 ++ x).
Proof.
  intros Hx. unfold scan_exp. destruct s as [|c r].
  - ws_cases x Hx; reflexivity.
  - change ((c :: r) ++ x) with (c :: (r ++ x)); cbv beta iota.
    destruct ((c =? ord "e") || (c =? ord "E"))%N; [| reflexivity].
    destruct r as [|d r'].
    + ws_cases x Hx; reflexivity.
    + change ((d :: r') ++ x) with (d :: (r' ++ x)); cbv beta iota.
      destruct (d =? ord "+")%N.
      { rewrite scan_digits_app by exact Hx.
        destruct (scan_digits r') as [u r2]. destruct u; reflexivity. }
      destruct (d =? ord "-")%N.
      { rewrite scan_digits_app by exact Hx.
        destruct (scan_digits r') as [u r2]. destruct u; reflexivity. }
      change (d :: (r' ++ x)) with ((d :: r') ++ x).
      rewrite scan_digits_app by exact Hx.
      destruct (scan_digits (d :: r')) as [u r2]. destruct u; reflexivity.
Qed.

Lemma match_number_app (s x : pystr) :
  ws_head x ->
  match_number (s ++ x) = '(v, r) ← match_number s; Some (v, r ++ x).
Proof.
  intros Hx. unfold match_number. rewrite scan_integer_app by exact Hx.
  destruct (scan_integer s) as [[[neg u] r]|]; [| reflexivity].
  cbn [mbind option_bind].
  rewrite scan_frac_app by exact Hx. destruct (scan_frac r) as [frac r1].
  cbn [fst snd].
  rewrite scan_exp_app by exact Hx. destruct (scan_exp r1) as [ex r2].
  cbn [fst snd]. destruct frac, ex; reflexivity.
Qed.

Lemma strip_prefix_app (p s x : pystr) :
  Forall (fun c => is_ws c = false) p -> ws_head x ->
  strip_prefix p (s ++ x) = r ← strip_prefix p s; Some (r ++ x).
Proof.
  intros Hp Hx. revert s. induction Hp as [|a p' Ha _ IH]; intros s.
  - destruct s; reflexivity.
  - destruct s as [|b s'].
    + destruct x as [|c x']; [reflexivity |]. simpl in Hx. simpl.
      destruct (N.eqb_spec a c); [congruence | reflexivity].
    + change ((b :: s') ++ x) with (b :: (s' ++ x)). cbn [strip_prefix].
      destruct (a =? b)%N; [apply IH | reflexivity].
Qed.

Lemma scan_literal_app (s x : pystr) :
  ws_head x ->
  scan_literal (s ++ x) = '(v, r) ← scan_literal s; Some (v, r ++ x).
Proof.
  intros Hx. unfold scan_literal.
  rewrite !strip_prefix_app by (try exact Hx; repeat constructor).
  destruct (strip_prefix (str "null") s); [reflexivity |].
  destruct (strip_prefix (str "true") s); [reflexivity |].
  destruct (strip_prefix (str "false") s); reflexivity.
Qed.

Lemma scan_constant_app (s x : pystr) :
  ws_head x ->
  scan_constant (s ++ x) = '(v, r) ← scan_constant s; Some (v, r ++ x).
Proof.
  intros Hx. unfold scan_constant.
  rewrite !strip_prefix_app by (try exact Hx; repeat constructor).
  destruct (strip_prefix (str "NaN") s); [reflexivity |].
  destruct (strip_prefix (str "Infinity") s); [reflexivity |].
  destruct (strip_prefix (str "-Infinity") s); reflexivity.
Qed.

Lemma skip_ws_app (s x : pystr) :
  skip_ws s <> [] -> skip_ws (s ++ x) = skip_ws s ++ x.
Proof.
  induction s as [|c r IH]; simpl; [congruence |].
  destruct (is_ws c); [exact IH | reflexivity].
Qed.

Lemma skip_ws_all (s x : pystr) :
  skip_ws s = [] -> Forall (fun c => is_ws c = true) x -> skip_ws (s ++ x) = [].
Proof.
  intros Hs Hx. induction s as [|c r IH]; simpl in *.
  - induction Hx as [|c x Hc _ IH]; simpl; [reflexivity |]. rewrite Hc. exact IH.
  - destruct (is_ws c); [auto | discriminate].
Qed.

Lemma cons_char_Some (c : codepoint) (o : option (pystr * pystr))
    (t r : pystr) :
  cons_char c o = Some (t, r) ->
  exists t', o = Some (t', r) /\ t = c :: t'.
Proof.
  unfold cons_char. destruct o as [[t' r']|]; simpl; [| discriminate].
  intros [= <- <-]. eauto.
Qed.

Lemma scanstring_app (x : pystr) (n : nat) :
  forall s t r,
    (length s <= n)%nat ->
    scanstring s = Some (t, r) -> scanstring (s ++ x) = Some (t, r ++ x).
Proof.
  induction n as [|n IH]; intros s t r Hn Hs.
  { destruct s; [discriminate Hs | simpl in Hn; lia]. }
  assert (Hrec : forall c s' t r,
            (length s' <= n)%nat ->
            cons_char c (scanstring s') = Some (t, r) ->
            cons_char c (scanstring (s' ++ x)) = Some (t, r ++ x)).
  { intros c s' t0 r0 Hl Hc. apply cons_char_Some in Hc as (t' & Hc & ->).
    rewrite (IH _ _ _ Hl Hc). reflexivity. }
  destruct s as [|c s1]; [discriminate Hs |].
  change ((c :: s1) ++ x) with (c :: (s1 ++ x)).
  cbn [scanstring] in Hs |- *. simpl in Hn.
  destruct (c =? QUOTE)%N; [injection Hs as <- <-; reflexivity |].
  destruct (c =? BACKSLASH)%N.
  2:{ destruct (c <? 32)%N; [discriminate Hs |]. apply Hrec; [lia | exact Hs]. }
  destruct s1 as [|esc r1]; [discriminate Hs |].
  change ((esc :: r1) ++ x) with (esc :: (r1 ++ x)). cbv beta iota.
  simpl in Hn.
  destruct (esc =? ord "u")%N.
  2:{ destruct (unescape esc); [| discriminate Hs].
      apply Hrec; [lia | exact Hs]. }
  destruct r1 as [|h1 [|h2 [|h3 [|h4 r2]]]]; try discriminate Hs.
  change ((h1 :: h2 :: h3 :: h4 :: r2) ++ x)
    with (h1 :: h2 :: h3 :: h4 :: (r2 ++ x)). cbv beta iota.
  simpl in Hn.
  destruct (hex4val h1 h2 h3 h4) as [uni|]; [| discriminate Hs].
  destruct (is_high_surrogate uni).
  2:{ apply Hrec; [lia | exact Hs]. }
  destruct r2 as [|b [|u r3]].
  - apply cons_char_Some in Hs as (t' & Hs & _). discriminate Hs.
  - apply cons_char_Some in Hs as (t' & Hs & ->).
    cbn [scanstring] in Hs.
    destruct (b =? QUOTE)%N eqn:Hq.
    + injection Hs as <- <-. apply N.eqb_eq in Hq. subst b.
      destruct x as [|u r3]; simpl; reflexivity.
    + destruct (b =? BACKSLASH)%N; [discriminate Hs |].
      destruct (b <? 32)%N; [discriminate Hs |].
      apply cons_char_Some in Hs as (t'' & Hs & _). discriminate Hs.
  - change ((b :: u :: r3) ++ x) with (b :: u :: (r3 ++ x)). cbv beta iota.
    simpl in Hn.
    destruct ((b =? BACKSLASH) && (u =? ord "u"))%N.
    2:{ change (b :: u :: (r3 ++ x)) with ((b :: u :: r3) ++ x).
        apply Hrec; [simpl; lia | exact Hs]. }
    destruct r3 as [|g1 [|g2 [|g3 [|g4 r4]]]]; try discriminate Hs.
    change ((g1 :: g2 :: g3 :: g4 :: r4) ++ x)
      with (g1 :: g2 :: g3 :: g4 :: (r4 ++ x)). cbv beta iota.
    simpl in Hn.
    destruct (hex4val g1 g2 g3 g4) as [uni2|]; [| discriminate Hs].
    destruct (is_low_surrogate uni2).
    + apply Hrec; [lia | exact Hs].
    + change (b :: u :: g1 :: g2 :: g3 :: g4 :: (r4 ++ x))
        with ((b :: u :: g1 :: g2 :: g3 :: g4 :: r4) ++ x).
      apply Hrec; [simpl; lia | exact Hs].
Qed.

Lemma skip_ws_cons_app (s x : pystr) (c : codepoint) (r : pystr) :
  skip_ws s = c :: r -> skip_ws (s ++ x) = c :: (r ++ x).
Proof.
  intros E. rewrite skip_ws_app by (rewrite E; discriminate).
  rewrite E. reflexivity.
Qed.

Lemma scan_nil (fuel : nat) :
  scan_once fuel [] = None /\ array_items fuel [] = None
  /\ object_items fuel [] = None.
Proof.
  destruct fuel as [|[|f]]; repeat split; reflexivity.
Qed.

Lemma scan_app (x : pystr) (fuel : nat) :
  ws_head x ->
  (forall s v r, scan_once fuel s = Some (v, r) ->
                 scan_once fuel (s ++ x) = Some (v, r ++ x))
  /\ (forall s vs r, array_items fuel s = Some (vs, r) ->
                     array_items fuel (s ++ x) = Some (vs, r ++ x))
  /\ (forall s ps r, object_items fuel s = Some (ps, r) ->
                     object_items fuel (s ++ x) = Some (ps, r ++ x)).
Proof.
  intros Hx. induction fuel as [|f (IHv & IHa & IHo)].
  - repeat split; intros; discriminate.
  - split; [| split].
    + intros s v r. cbn [scan_once].
      destruct s as [|c s']; [discriminate |].
      change ((c :: s') ++ x) with (c :: (s' ++ x)). cbv beta iota.
      destruct (c =? QUOTE)%N.
      { destruct (scanstring s') as [[t r']|] eqn:Hs; [| discriminate].
        intros [= <- <-].
        rewrite (scanstring_app x _ s' t r' (le_n _) Hs). reflexivity. }
      destruct (c =? ord "{")%N.
      { destruct (skip_ws s') as [|c' r'] eqn:Hw; [discriminate |].
        rewrite (skip_ws_cons_app _ x _ _ Hw).
        destruct (c' =? ord "}")%N; [intros [= <- <-]; reflexivity |].
        destruct (object_items f (c' :: r')) as [[pairs r'']|] eqn:Ho;
          [| discriminate].
        intros [= <- <-].
        change (c' :: (r' ++ x)) with ((c' :: r') ++ x).
        rewrite (IHo _ _ _ Ho). reflexivity. }
      destruct (c =? ord "[")%N.
      { destruct (skip_ws s') as [|c' r'] eqn:Hw; [discriminate |].
        rewrite (skip_ws_cons_app _ x _ _ Hw).
        destruct (c' =? ord "]")%N; [intros [= <- <-]; reflexivity |].
        destruct (array_items f (c' :: r')) as [[items r'']|] eqn:Ha;
          [| discriminate].
        intros [= <- <-].
        change (c' :: (r' ++ x)) with ((c' :: r') ++ x).
        rewrite (IHa _ _ _ Ha). reflexivity. }
      change (c :: (s' ++ x)) with ((c :: s') ++ x).
      rewrite scan_literal_app, match_number_app, scan_constant_app
        by exact Hx.
      destruct (scan_literal (c :: s')) as [[v0 r0]|];
        [intros [= <- <-]; reflexivity |].
      destruct (match_number (c :: s')) as [[v0 r0]|];
        [intros [= <- <-]; reflexivity |].
      destruct (scan_constant (c :: s')) as [[v0 r0]|];
        [intros [= <- <-]; reflexivity | discriminate].
    + intros s vs r. cbn [array_items].
      destruct (scan_once f s) as [[v r0]|] eqn:Hv; [| discriminate].
      rewrite (IHv _ _ _ Hv). cbn [mbind option_bind].
      destruct (skip_ws r0) as [|c r'] eqn:Hw; [discriminate |].
      rewrite (skip_ws_cons_app _ x _ _ Hw).
      destruct (c =? ord "]")%N; [intros [= <- <-]; reflexivity |].
      destruct (c =? ord ",")%N; [| discriminate].
      destruct (array_items f (skip_ws r')) as [[vs' r'']|] eqn:Ha;
        [| discriminate].
      intros [= <- <-].
      assert (Hne : skip_ws r' <> []).
      { intros E. rewrite E, (proj1 (proj2 (scan_nil f))) in Ha. discriminate Ha. }
      rewrite skip_ws_app by exact Hne.
      rewrite (IHa _ _ _ Ha). reflexivity.
    + intros s ps r. cbn [object_items].
      destruct s as [|q s']; [discriminate |].
      change ((q :: s') ++ x) with (q :: (s' ++ x)). cbv beta iota.
      destruct (q =? QUOTE)%N; [| discriminate].
      destruct (scanstring s') as [[k r1]|] eqn:Hs; [| discriminate].
      rewrite (scanstring_app x _ s' k r1 (le_n _) Hs).
      cbn [mbind option_bind].
      destruct (skip_ws r1) as [|c r2] eqn:Hw; [discriminate |].
      rewrite (skip_ws_cons_app _ x _ _ Hw).
      destruct (c =? ord ":")%N; [| discriminate].
      destruct (scan_once f (skip_ws r2)) as [[v r3]|] eqn:Hv; [| discriminate].
      assert (Hne : skip_ws r2 <> []).
      { intros E. rewrite E, (proj1 (scan_nil f)) in Hv. discriminate Hv. }
      rewrite skip_ws_app by exact Hne.
      rewrite (IHv _ _ _ Hv). cbn [mbind option_bind].
      destruct (skip_ws r3) as [|c' r4] eqn:Hw'; [discriminate |].
      rewrite (skip_ws_cons_app _ x _ _ Hw').
      destruct (c' =? ord "}")%N; [intros [= <- <-]; reflexivity |].
      destruct (c' =? ord ",")%N; [| discriminate].
      destruct (object_items f (skip_ws r4)) as [[ps' r5]|] eqn:Ho;
        [| discriminate].
      intros [= <- <-].
      assert (Hne' : skip_ws r4 <> []).
      { intros E. rewrite E, (proj2 (proj2 (scan_nil f))) in Ho. discriminate Ho. }
      rewrite skip_ws_app by exact Hne'.
      rewrite (IHo _ _ _ Ho). reflexivity.
Qed.

Lemma scan_once_S (f : nat) (s : pystr) :
  scan_once (S f) s
  = match s with
    | [] => None
    | c :: r =>
      if (c =? QUOTE)%N then '(t, r') ← scanstring r; Some (PStr t, r')
      else if (c =? ord "{")%N then
        match skip_ws r with
        | c' :: r' =>
            if (c' =? ord "}")%N then Some (PDict [], r')
            else '(pairs, r'') ← object_items f (skip_ws r);
                 Some (PDict (str_keys (dict pairs)), r'')
        | [] => None
        end
      else if (c =? ord "[")%N then
        match skip_ws r with
        | c' :: r' =>
            if (c' =? ord "]")%N then Some (PList [], r')
            else '(items, r'') ← array_items f (skip_ws r);
                 Some (PList items, r'')
        | [] => None
        end
      else
        match scan_literal s with
        | Some res => Some res
        | None =>
          match match_number s with
          | Some res => Some res
          | None => scan_constant s
          end
        end
    end.
Proof. reflexivity. Qed.

Lemma array_items_S (f : nat) (s : pystr) :
  array_items (S f) s
  = '(v, r) ← scan_once f s;
    match skip_ws r with
    | c :: r' =>
        if (c =? ord "]")%N then Some ([v], r')
        else if (c =? ord ",")%N then
          '(vs, r'') ← array_items f (skip_ws r'); Some (v :: vs, r'')
        else None
    | [] => None
    end.
Proof. reflexivity. Qed.

Lemma object_items_S (f : nat) (s : pystr) :
  object_items (S f) s
  = match s with
    | q :: r =>
      if (q =? QUOTE)%N then
        '(k, r1) ← scanstring r;
        match skip_ws r1 with
        | c :: r2 =>
          if (c =? ord ":")%N then
            '(v, r3) ← scan_once f (skip_ws r2);
            match skip_ws r3 with
            | c' :: r4 =>
                if (c' =? ord "}")%N then Some ([(k, v)], r4)
                else if (c' =? ord ",")%N then
                  '(ps, r5) ← object_items f (skip_ws r4);
                  Some ((k, v) :: ps, r5)
                else None
            | [] => None
            end
          else None
        | [] => None
        end
      else None
    | [] => None
    end.
Proof. reflexivity. Qed.

Lemma scan_fuel_S (fuel : nat) :
  (forall s res, scan_once fuel s = Some res -> scan_once (S fuel) s = Some res)
  /\ (forall s res, array_items fuel s = Some res ->
                    array_items (S fuel) s = Some res)
  /\ (forall s res, object_items fuel s = Some res ->
                    object_items (S fuel) s = Some res).
Proof.
  induction fuel as [|f (IHv & IHa & IHo)].
  - repeat split; intros; discriminate.
  - split; [| split].
    + intros s res. rewrite (scan_once_S (S f)), (scan_once_S f).
      destruct s as [|c r]; [discriminate |].
      destruct (c =? QUOTE)%N; [auto |].
      destruct (c =? ord "{")%N.
      { destruct (skip_ws r) as [|c' r']; [discriminate |].
        destruct (c' =? ord "}")%N; [auto |].
        destruct (object_items f (c' :: r')) as [ps|] eqn:Ho; [| discriminate].
        rewrite (IHo _ _ Ho). auto. }
      destruct (c =? ord "[")%N.
      { destruct (skip_ws r) as [|c' r']; [discriminate |].
        destruct (c' =? ord "]")%N; [auto |].
        destruct (array_items f (c' :: r')) as [ps|] eqn:Ha; [| discriminate].
        rewrite (IHa _ _ Ha). auto. }
      auto.
    + intros s res. rewrite (array_items_S (S f)), (array_items_S f).
      destruct (scan_once f s) as [[v r]|] eqn:Hv; [| discriminate].
      rewrite (IHv _ _ Hv). cbn [mbind option_bind].
      destruct (skip_ws r) as [|c r']; [discriminate |].
      destruct (c =? ord "]")%N; [auto |].
      destruct (c =? ord ",")%N; [| discriminate].
      destruct (array_items f (skip_ws r')) as [vs|] eqn:Ha; [| discriminate].
      rewrite (IHa _ _ Ha). auto.
    + intros s res. rewrite (object_items_S (S f)), (object_items_S f).
      destruct s as [|q r]; [discriminate |].
      destruct (q =? QUOTE)%N; [| discriminate].
      destruct (scanstring r) as [[k r1]|]; [| discriminate].
      cbn [mbind option_bind].
      destruct (skip_ws r1) as [|c r2]; [discriminate |].
      destruct (c =? ord ":")%N; [| discriminate].
      destruct (scan_once f (skip_ws r2)) as [[v r3]|] eqn:Hv; [| discriminate].
      rewrite (IHv _ _ Hv). cbn [mbind option_bind].
      destruct (skip_ws r3) as [|c' r4]; [discriminate |].
      destruct (c' =? ord "}")%N; [auto |].
      destruct (c' =? ord ",")%N; [| discriminate].
      destruct (object_items f (skip_ws r4)) as [ps|] eqn:Ho; [| discriminate].
      rewrite (IHo _ _ Ho). auto.
Qed.

Lemma scan_once_fuel (f f' : nat) (s : pystr) (res : value * pystr) :
  (f <= f')%nat -> scan_once f s = Some res -> scan_once f' s = Some res.
Proof.
  induction 1 as [|m _ IH]; [auto |].
  intros Hs. apply (scan_fuel_S m), IH, Hs.
Qed.

Lemma loads_whitespace (ws1 ws2 s : pystr) (v : value) :
  whitespace ws1 -> whitespace ws2 ->
  loads s = Return v -> loads (ws1 ++ s ++ ws2) = Return v.
Proof.
  intros H1 H2. unfold loads.
  destruct (startswith_bom s) eqn:Hbom; [discriminate |].
  destruct (scan_once _ (skip_ws s)) as [[obj r]|] eqn:Hs; [| discriminate].
  destruct (skip_ws r) eqn:Hr; [| discriminate]. intros [= ->].
  assert (Hne : skip_ws s <> []).
  { intros E. rewrite E in Hs. discriminate Hs. }
  assert (Hfront : skip_ws (ws1 ++ s ++ ws2) = skip_ws s ++ ws2).
  { clear -H1 Hne. induction H1 as [|c ws1 Hc _ IH].
    - rewrite app_nil_l. apply skip_ws_app, Hne.
    - simpl. rewrite Hc. exact IH. }
  assert (Hbom' : startswith_bom (ws1 ++ s ++ ws2) = false).
  { destruct H1 as [|c ws1 Hc _].
    - rewrite app_nil_l.
      destruct s as [|c s']; [destruct Hne; reflexivity | exact Hbom].
    - simpl. apply is_ws_cases in Hc as [-> | [-> | [-> | ->]]]; reflexivity. }
  assert (Hx : ws_head ws2) by (destruct H2; [exact I | assumption]).
  rewrite Hbom', Hfront.
  destruct (scan_app ws2 (S (length s)) Hx) as [Hv _].
  apply Hv in Hs.
  assert (Hfuel : (S (length s) <= S (length (ws1 ++ s ++ ws2)))%nat)
    by (rewrite !length_app; lia).
  rewrite (scan_once_fuel _ _ _ _ Hfuel Hs).
  rewrite (skip_ws_all r ws2 Hr H2). reflexivity.
Qed.

(** X22. Whitespace around a payload does not matter: a payload that
    [parse_items_from_json] accepts is accepted, with the same items,
    when spaces, tabs, line feeds or carriage returns come before or
    after it, as at the end of a file. *)
Theorem parse_items_from_json_whitespace (ws1 ws2 payload : pystr)
    (items : list value) :
  whitespace ws1 -> whitespace ws2 ->
  parse_items_from_json payload = Return items ->
  parse_items_from_json (ws1 ++ payload ++ ws2) = Return items.
Proof.
  intros H1 H2. unfold parse_items_from_json.
  destruct (loads payload) as [obj|e] eqn:Hl; [| destruct e; discriminate].
  rewrite (loads_whitespace ws1 ws2 payload obj H1 H2 Hl). auto.
Qed.

Lemma parse_items_from_json_whitespace_witness :
  parse_items_from_json
    ([10%N; 32%N] ++ dq "{'items':[1,2]}" ++ [13%N; 10%N])
  = Return [PInt 1; PInt 2].
Proof.
  apply parse_items_from_json_whitespace.
  - repeat constructor.
  - repeat constructor.
  - vm_compute. reflexivity.
Defined.

(** *** The bytes of the file, and reading what is not there *)

Lemma write_json_returns (p : path) (v : value) (indent : nat)
    (fs fs' : filesystem) :
  write_json p v indent fs = (Return tt, fs') ->
  exists text,
    dumps v indent = Return text
    /\ (p ∉ dirs fs) /\ (parent p ∈ dirs fs)
    /\ fs' = with_file fs p (byte_of_N <$> translate_out (crlf fs) text).
Proof.
  intros Hw. destruct (dumps v indent) as [text|e] eqn:Hd.
  - exists text. split; [reflexivity |].
    destruct (decide (p ∈ dirs fs)) as [Hin|Hout].
    + destruct (JsonSpec.write_text_refused fs p text) as [Hdir _].
      unfold write_json, io_bind, io_lift in Hw.
      rewrite Hd, (Hdir Hin) in Hw. discriminate Hw.
    + destruct (decide (parent p ∈ dirs fs)) as [Hpar|Hpar].
      * rewrite (JsonSpec.write_json_written _ _ _ _ _ Hd Hout Hpar) in Hw.
        injection Hw as <-. auto.
      * destruct (JsonSpec.write_text_refused fs p text) as [_ Hmiss].
        unfold write_json, io_bind, io_lift in Hw.
        rewrite Hd, (Hmiss Hout Hpar) in Hw. discriminate Hw.
  - unfold write_json, io_bind, io_lift in Hw. rewrite Hd in Hw.
    discriminate Hw.
Qed.

(** X23. The file that [write_json] leaves is ASCII: whatever characters
    the strings of the value hold, every byte written is below 128, so
    the file reads the same under any encoding that extends ASCII. *)
Theorem write_json_ascii (p : path) (v : value) (indent : nat)
    (fs fs' : filesystem) :
  write_json p v indent fs = (Return tt, fs') ->
  exists bs,
    files fs' !! p = Some bs
    /\ Forall (fun b => (Byte.to_N b < 128)%N) bs.
Proof.
  intros Hw. apply write_json_returns in Hw as (text & Hd & _ & _ & ->).
  eexists. split; [simpl; apply lookup_insert_eq |].
  pose proof (JsonSpec.translate_out_ascii (crlf fs) text
                (JsonSpec.iterencode_plain _ _ _ _ Hd)) as Hascii.
  unfold ascii_text in Hascii. apply Forall_fmap.
  eapply Forall_impl; [exact Hascii |]. intros c Hc. cbv beta in Hc. unfold compose.
  rewrite JsonSpec.to_N_byte_of_N; [exact Hc | lia].
Qed.

Lemma write_json_ascii_witness :
  exists bs,
    files (write_json ITEMS_PATH (PStr [233%N; 0x1F600%N]) DEFAULT_INDENT
             demo_fs).2 !! ITEMS_PATH = Some bs
    /\ Forall (fun b => (Byte.to_N b < 128)%N) bs.
Proof.
  apply (write_json_ascii ITEMS_PATH (PStr [233%N; 0x1F600%N]) DEFAULT_INDENT
           demo_fs).
  vm_compute. reflexivity.
Defined.

(** X24. [read_json] has no default: on a directory it raises
    [IsADirectoryError]; on a path with no file it raises
    [FileNotFoundError], or [NotADirectoryError] when a file is on the
    way; on an empty file it raises [JSONDecodeError]. *)
Theorem read_json_raises (p : path) (fs : filesystem) :
  (p ∈ dirs fs -> read_json p fs = (Raise IsADirectoryError, fs))
  /\ (p ∉ dirs fs -> files fs !! p = None ->
      read_json p fs = (Raise (missing fs p), fs)
      /\ (missing fs p = FileNotFoundError
          \/ missing fs p = NotADirectoryError))
  /\ (p ∉ dirs fs -> files fs !! p = Some [] ->
      read_json p fs = (Raise JSONDecodeError, fs)).
Proof.
  unfold read_json, io_bind, io_lift, read_text.
  assert (Hmiss : missing fs p = FileNotFoundError
                  \/ missing fs p = NotADirectoryError).
  { unfold missing. destruct (existsb _ _); auto. }
  destruct (decide (p ∈ dirs fs)) as [Hin|Hout].
  - repeat split; try contradiction; reflexivity.
  - split; [contradiction |].
    split; [intros _ ->; auto |].
    intros _ ->. reflexivity.
Qed.

Lemma read_json_raises_witness :
  read_json ITEMS_PATH demo_fs = (Raise (missing demo_fs ITEMS_PATH), demo_fs)
  /\ (missing demo_fs ITEMS_PATH = FileNotFoundError
      \/ missing demo_fs ITEMS_PATH = NotADirectoryError).
Proof.
  destruct (read_json_raises ITEMS_PATH demo_fs) as (_ & H & _).
  apply H.
  - unfold demo_fs, ITEMS_PATH, DATA_DIR. simpl. set_solver.
  - reflexivity.
Defined.

End JsonMoreSpec.

(** ** The records of models.py as the dictionaries of json_api.py *)

Module RecordsSpec.
Import Models ModelsMore Json JsonMore.

Lemma UserDC_to_dict_items (d : UserDC.t) :
  UserDC_to_dict d
  = PDict ([(KStr (str "id"), PInt (UserDC.id d));
            (KStr (str "name"), PStr (UserDC.name d));
            (KStr (str "email"), PStr (UserDC.email d));
            (KStr (str "active"), PBool (UserDC.active d))]
           ++ match UserDC.fingerprint d with
              | Some fp => [(KStr (str "fingerprint"), PStr fp)]
              | None => []
              end).
Proof. destruct d as [i n e a [fp|]]; vm_compute; reflexivity. Qed.




(** X16. [to_dict] loses nothing: two classic records, or two dataclass
    records, with the same dictionary have the same fields; and the
    dictionary of a dataclass record is that of the classic record with
    its fields exactly when no fingerprint was computed. *)
Theorem to_dict_faithful (u1 u2 : User.t) (d1 d2 : UserDC.t) :
  (User_to_dict u1 = User_to_dict u2 <-> u1 = u2)
  /\ (UserDC_to_dict d1 = UserDC_to_dict d2 <-> d1 = d2)
  /\ (UserDC_to_dict d1
      = User_to_dict (User.mk (UserDC.id d1) (UserDC.name d1)
                        (UserDC.email d1) (UserDC.active d1))
      <-> UserDC.fingerprint d1 = None).
Proof.
  split; [| split]; (split; [| intros E; try rewrite E; try reflexivity]).
  - destruct u1, u2. unfold User_to_dict. simpl. intros [= -> -> -> ->].
    reflexivity.
  - destruct d1 as [i1 n1 e1 a1 [f1|]], d2 as [i2 n2 e2 a2 [f2|]];
      intros E; vm_compute in E; first [discriminate E | injection E];
      intros; subst; reflexivity.
  - destruct d1 as [i1 n1 e1 a1 [f1|]]; intros E; vm_compute in E;
      [discriminate E | reflexivity].
  - destruct d1 as [i1 n1 e1 a1 f1]. simpl in E. subst f1. reflexivity.
Qed.

Lemma get_active_to_dict `{Truth} (u : user) :
  JsonMore.truthy (get (items_of (to_dict u)) (KStr (str "active")))
  = get_active u.
Proof.
  destruct u as [[i n e a]|[i n e a [fp|]]]; unfold to_dict;
    rewrite ?UserDC_to_dict_items; simpl; apply truthy_bool.
Qed.

(** X17. The two filters agree: [filter_active_users] on the
    dictionaries of [to_dict] keeps the dictionaries of the records that
    [active_users] keeps; and a dictionary without the key [active] is
    dropped, no [KeyError] raised. *)
Theorem filter_active_users_to_dict `{Truth} (users : list user)
    (u : list (key * value)) (dicts : list (list (key * value))) :
  filter_active_users ((fun u => items_of (to_dict u)) <$> users)
  = (fun u => items_of (to_dict u)) <$> active_users users
  /\ (dict_get (KStr (str "active")) u = None ->
      filter_active_users (u :: dicts) = filter_active_users dicts).
Proof.
  split.
  - unfold filter_active_users, active_users.
    induction users as [|x r IH]; [reflexivity |].
    rewrite fmap_cons.
    pose proof (get_active_to_dict x) as E.
    destruct (get_active x) eqn:Ha.
    + rewrite (filter_cons_True _ x r) by exact Ha.
      rewrite filter_cons_True by exact E.
      rewrite fmap_cons, IH. reflexivity.
    + rewrite (filter_cons_False _ x r) by congruence.
      rewrite filter_cons_False by congruence.
      exact IH.
  - intros Hu. unfold filter_active_users.
    apply filter_cons_False. unfold get. rewrite Hu, truthy_None. discriminate.
Qed.

Lemma filter_active_users_to_dict_witness :
  filter_active_users [[(KStr (str "id"), PInt 1)]; [(KStr (str "active"), PBool true)]]
  = filter_active_users [[(KStr (str "active"), PBool true)]].
Proof.
  apply (filter_active_users_to_dict [] [(KStr (str "id"), PInt 1)]).
  reflexivity.
Defined.




End RecordsSpec.

(** ** The grammar of JSON, and parse_items_from_json *)

Module GrammarSpec.
Import Json JsonMore Grammar.

Scheme json_value_mut := Minimality for json_value Sort Prop
with json_elements_mut := Minimality for json_elements Sort Prop
with json_members_mut := Minimality for json_members Sort Prop.
Combined Scheme json_mutind
  from json_value_mut, json_elements_mut, json_members_mut.

(** *** Whitespace *)

Lemma is_ws_ws_char (c : codepoint) : is_ws c = true <-> ws_char c.
Proof.
  unfold is_ws, ws_char. rewrite !orb_true_iff, !N.eqb_eq. tauto.
Qed.

Lemma is_ws_false (c : codepoint) : is_ws c = false <-> ~ ws_char c.
Proof.
  rewrite <- is_ws_ws_char. destruct (is_ws c); split; congruence.
Qed.



Lemma skip_ws_stop (c : codepoint) (r : pystr) :
  ~ ws_char c -> skip_ws (c :: r) = c :: r.
Proof. intros Hc. apply is_ws_false in Hc. simpl. rewrite Hc. reflexivity. Qed.

(** *** Strings *)
















(** *** Numbers *)














(** *** Values *)
















(** *** json.loads and the grammar *)








(** *** Looking up a key *)




(** *** parse_items_from_json *)




End GrammarSpec.
